(** * Code Flow Visualizer: call-graph builder, significance scorer,
      hierarchical layout and viewport filter

    A shallow embedding of the analyzer (buildCalledByRelationships,
    calculateSignificance, mergeAnalyses), of the hierarchical layout
    (calculateHierarchicalLayout) and of the webview's significance filter
    (getMinSignificance, shouldShowFunction, renderDetailedView,
    renderVisualization), followed by the properties of the specification
    that concern them.

    Modelling conventions.
    - A JavaScript [Map<string, V>] is an association list in insertion
      order with pairwise distinct keys; [set] on a present key replaces the
      value in place, on an absent key appends.
    - Objects that the source mutates in place (the [FunctionNode]s stored in
      a map) are updated inside the map that owns them.
    - Integer quantities (lengths, scores) are in [Z]; canvas sizes, zoom
      scales and coordinates are exact rationals in [Q]; the special values a
      coordinate can take in JavaScript (NaN, the infinities, undefined) are
      constructors of [JsNum].
    - A tree-sitter syntax node is a finite tree of typed nodes, each child
      with the field name it has in its parent; the parser that builds the
      tree is outside the model.
    - The strings of the label utilities are lists of UTF-16 code units.

    Beyond the specification, the development covers the syntax-tree walks
    of the analyzer, the webview's own copy of the hierarchical layout, the
    link loops of the renderers, the zoom handlers and the label
    utilities. *)

From Stdlib Require Import List String Ascii Bool Arith ZArith QArith Qround Lia Lqa.
From Stdlib Require Import Permutation.
Import ListNotations.

Local Open Scope string_scope.

(* ------------------------------------------------------------------ *)
(** ** JavaScript strings *)

Module JsString.

(** [s.split(c)] for a one-character separator: never empty. *)
Fixpoint split (c : ascii) (s : string) : list string :=
  match s with
  | EmptyString => [EmptyString]
  | String a s' =>
      if Ascii.eqb a c then EmptyString :: split c s'
      else match split c s' with
           | [] => [String a EmptyString]
           | seg :: rest => String a seg :: rest
           end
  end.

(** [arr.pop()] on the result of a split: its last element. *)
Definition pop (l : list string) : string := last l EmptyString.

(** [key.startsWith(p)]. *)
Definition startsWith (key p : string) : bool := String.prefix p key.

(** [s.includes(sub)]: [sub] occurs somewhere in [s]. *)
Fixpoint includes (s sub : string) : bool :=
  String.prefix sub s ||
  match s with
  | EmptyString => false
  | String _ s' => includes s' sub
  end.

(** No character of [s] is a colon. *)
Fixpoint colon_free (s : string) : bool :=
  match s with
  | EmptyString => true
  | String a s' => negb (Ascii.eqb a ":"%char) && colon_free s'
  end.

End JsString.

(** [arr.includes(x)] on an array of strings. *)
Definition includes (l : list string) (x : string) : bool :=
  existsb (String.eqb x) l.

(* ------------------------------------------------------------------ *)
(** ** JavaScript [Map] with string keys *)

Module JsMap.

Definition t (V : Type) : Type := list (string * V).

Definition empty {V : Type} : t V := [].

Fixpoint get {V : Type} (k : string) (m : t V) : option V :=
  match m with
  | [] => None
  | (k', v) :: r => if String.eqb k' k then Some v else get k r
  end.

Definition has {V : Type} (k : string) (m : t V) : bool :=
  match get k m with Some _ => true | None => false end.

Fixpoint set {V : Type} (k : string) (v : V) (m : t V) : t V :=
  match m with
  | [] => [(k, v)]
  | (k', v') :: r =>
      if String.eqb k' k then (k', v) :: r else (k', v') :: set k v r
  end.

Definition keys {V : Type} (m : t V) : list string := map fst m.

Definition values {V : Type} (m : t V) : list V := map snd m.

Definition size {V : Type} (m : t V) : nat := List.length m.

(** The representation invariant of a [Map]: keys are pairwise distinct. *)
Definition wf {V : Type} (m : t V) : Prop := NoDup (keys m).

End JsMap.

(* ------------------------------------------------------------------ *)
(** ** The analyzer (analyzer.ts) *)

Record FunctionNode : Type := mkFunctionNode {
  name : string;
  displayName : string;
  startLine : Z;
  endLine : Z;
  calls : list string;
  calledBy : list string;
  params : list string;
  complexity : string;
  fileName : option string;
  code : option string;
  significance : option Z
}.

Record CodeAnalysis : Type := mkCodeAnalysis {
  ca_fileName : string;
  ca_language : string;
  functions : JsMap.t FunctionNode;
  imports : list string;
  exports : list string
}.

Definition with_calledBy (f : FunctionNode) (cb : list string) : FunctionNode :=
  mkFunctionNode (name f) (displayName f) (startLine f) (endLine f) (calls f)
    cb (params f) (complexity f) (fileName f) (code f) (significance f).

Definition with_calls_reset (f : FunctionNode) (cs : list string) : FunctionNode :=
  mkFunctionNode (name f) (displayName f) (startLine f) (endLine f) cs
    [] (params f) (complexity f) (fileName f) (code f) (significance f).

Definition with_significance (f : FunctionNode) (s : Z) : FunctionNode :=
  mkFunctionNode (name f) (displayName f) (startLine f) (endLine f) (calls f)
    (calledBy f) (params f) (complexity f) (fileName f) (code f) (Some s).

Definition with_functions (a : CodeAnalysis) (fns : JsMap.t FunctionNode)
  : CodeAnalysis :=
  mkCodeAnalysis (ca_fileName a) (ca_language a) fns (imports a) (exports a).

(** What the syntax-tree walk hands to [processJavaScriptFunction],
    [processPythonFunction], [processJavaMethod] or the generic fallback for
    one callable unit: the parser itself is outside the model. *)
Record ParsedUnit : Type := mkParsedUnit {
  pu_name : string;
  pu_startLine : Z;
  pu_endLine : Z;
  pu_params : list string;
  pu_calls : list string;
  pu_complexity : string;
  pu_code : string
}.

(** [analysis.functions.set(name, { name, displayName: name, ...,
    calledBy: [], ..., significance: 50 })]. *)
Definition processFunction (analysis : CodeAnalysis) (u : ParsedUnit)
  : CodeAnalysis :=
  with_functions analysis
    (JsMap.set (pu_name u)
       (mkFunctionNode (pu_name u) (pu_name u) (pu_startLine u) (pu_endLine u)
          (pu_calls u) [] (pu_params u) (pu_complexity u)
          (Some (ca_fileName analysis)) (Some (pu_code u)) (Some 50%Z))
       (functions analysis)).

(** [if (!target.calledBy.includes(caller)) target.calledBy.push(caller)]. *)
Definition addCaller (caller : string) (target : FunctionNode) : FunctionNode :=
  if includes (calledBy target) caller then target
  else with_calledBy target (calledBy target ++ [caller]).

(** Mutate the first element that satisfies [p] (the object returned by
    [Array.prototype.find]); nothing happens when there is none. *)
Fixpoint modify_first {A : Type} (p : A -> bool) (g : A -> A) (l : list A)
  : list A :=
  match l with
  | [] => []
  | x :: r => if p x then g x :: r else x :: modify_first p g r
  end.

(** One iteration of the inner loop of [buildCalledByRelationships]:
    [allFunctions.find(f => f.name === calledName)], then the guarded push. *)
Definition linkByName (funcName calledName : string)
  (st : JsMap.t FunctionNode) : JsMap.t FunctionNode :=
  modify_first (fun e => String.eqb (name (snd e)) calledName)
    (fun e => (fst e, addCaller funcName (snd e))) st.

(** [buildCalledByRelationships]: [allFunctions] is the array of the map's
    objects; the loops read [name] and [calls], which are never written, and
    write [calledBy] of the shared objects. *)
Definition buildCalledByRelationships (analysis : CodeAnalysis) : CodeAnalysis :=
  let allFunctions := JsMap.values (functions analysis) in
  with_functions analysis
    (fold_left
       (fun st func =>
          fold_left (fun st calledName => linkByName (name func) calledName st)
            (calls func) st)
       allFunctions (functions analysis)).

Definition len {A : Type} (l : list A) : Z := Z.of_nat (List.length l).

(** The filter of the "deep in call chain" rule: a callee counts when
    [functions.find(f => f.name === calledName)] exists and has a caller. *)
Definition calleeAlsoCalled (fns : list FunctionNode) (calledName : string)
  : bool :=
  match find (fun f => String.eqb (name f) calledName) fns with
  | Some calledFunc => (0 <? len (calledBy calledFunc))%Z
  | None => false
  end.

(** The body of the [forEach] of [calculateSignificance], one assignment to
    [score] per line of the source. *)
Definition scoreOf (fns : list FunctionNode) (exps : list string)
  (func : FunctionNode) : Z :=
  let score := 50%Z in
  let score :=
    if (len (calledBy func) =? 0)%Z then (score + 40)%Z else score in
  let score :=
    if (0 <? len (calledBy func))%Z
    then (score + Z.min (len (calledBy func) * 8) 30)%Z else score in
  let score :=
    if (3 <? len (calls func))%Z
    then (score + Z.min (len (calls func) * 2) 10)%Z else score in
  let score :=
    if (3 <? len (calledBy func))%Z then (score - 20)%Z else score in
  let score :=
    if (0 <? len (calls func))%Z && (0 <? len (calledBy func))%Z
    then
      let calleesAlsoCalled := len (filter (calleeAlsoCalled fns) (calls func)) in
      if (2 <? calleesAlsoCalled)%Z then (score - 15)%Z else score
    else score in
  let score := if includes exps (name func) then (score + 20)%Z else score in
  Z.max 0 (Z.min 100 score).

Definition calculateSignificance (analysis : CodeAnalysis) : CodeAnalysis :=
  let fns := JsMap.values (functions analysis) in
  if Nat.eqb (List.length fns) 0 then analysis
  else
    with_functions analysis
      (map (fun e => (fst e,
                      with_significance (snd e)
                        (scoreOf fns (exports analysis) (snd e))))
         (functions analysis)).

(** [analyzeDocument] after the parse: the units found by the tree walk are
    recorded in order, then callers are linked and scores computed. *)
Definition analyzeDocument (file language : string) (units : list ParsedUnit)
  (imps exps : list string) : CodeAnalysis :=
  let analysis :=
    fold_left processFunction units
      (mkCodeAnalysis file language JsMap.empty imps exps) in
  calculateSignificance (buildCalledByRelationships analysis).

(** [analysis.fileName.split('/').pop() || analysis.fileName]. *)
Definition fileLabelOf (file : string) : string :=
  let last_segment := JsString.pop (JsString.split "/"%char file) in
  if String.eqb last_segment "" then file else last_segment.

Definition uniqueKey (localName fileLabel : string) : string :=
  localName ++ "::" ++ fileLabel.

(** First loop of [mergeAnalyses], one analysis: every function is stored
    under its unique key, imports and exports are appended. *)
Definition mergeInsert (merged analysis : CodeAnalysis) : CodeAnalysis :=
  let fileLabel := fileLabelOf (ca_fileName analysis) in
  mkCodeAnalysis (ca_fileName merged) (ca_language merged)
    (fold_left
       (fun m e =>
          let func := snd e in
          let key := uniqueKey (fst e) fileLabel in
          JsMap.set key
            (mkFunctionNode key (fst e) (startLine func) (endLine func)
               (calls func) (calledBy func) (params func) (complexity func)
               (Some (ca_fileName analysis)) (code func) (significance func))
            m)
       (functions analysis) (functions merged))
    (imports merged ++ imports analysis)
    (exports merged ++ exports analysis).

(** [for (const [key] of merged.functions) if (key.startsWith(p)) return key]. *)
Fixpoint firstKeyStartingWith {V : Type} (p : string) (m : JsMap.t V)
  : option string :=
  match m with
  | [] => None
  | (key, _) :: r =>
      if JsString.startsWith key p then Some key else firstKeyStartingWith p r
  end.

(** The callback of [func.calls.map] in the second loop. *)
Definition resolveCall (m : JsMap.t FunctionNode) (fileLabel calledName : string)
  : string :=
  let sameFileKey := uniqueKey calledName fileLabel in
  if JsMap.has sameFileKey m then sameFileKey
  else match firstKeyStartingWith (calledName ++ "::") m with
       | Some key => key
       | None => calledName
       end.

(** Second loop, one analysis: rewrite the calls of each merged function
    and reset its callers. *)
Definition mergeRewrite (m : JsMap.t FunctionNode) (analysis : CodeAnalysis)
  : JsMap.t FunctionNode :=
  let fileLabel := fileLabelOf (ca_fileName analysis) in
  fold_left
    (fun m e =>
       let key := uniqueKey (fst e) fileLabel in
       match JsMap.get key m with
       | Some mergedFunc =>
           JsMap.set key
             (with_calls_reset mergedFunc
                (map (resolveCall m fileLabel) (calls (snd e))))
             m
       | None => m
       end)
    (functions analysis) m.

(** One iteration of the inner loop of the third loop. *)
Definition linkByKey (funcKey calledKey : string) (m : JsMap.t FunctionNode)
  : JsMap.t FunctionNode :=
  match JsMap.get calledKey m with
  | Some calledFunc =>
      if includes (calledBy calledFunc) funcKey then m
      else JsMap.set calledKey
             (with_calledBy calledFunc (calledBy calledFunc ++ [funcKey])) m
  | None => m
  end.

(** Third loop: the map is iterated while the objects it holds are
    mutated; its keys do not change, so the iteration is over the keys and
    each function is read from the current store. *)
Definition mergeLink (m : JsMap.t FunctionNode) : JsMap.t FunctionNode :=
  fold_left
    (fun st funcKey =>
       match JsMap.get funcKey st with
       | Some func =>
           fold_left (fun st calledKey => linkByKey funcKey calledKey st)
             (calls func) st
       | None => st
       end)
    (JsMap.keys m) m.

Definition mergeAnalyses (analyses : list CodeAnalysis) : CodeAnalysis :=
  let merged :=
    fold_left mergeInsert analyses
      (mkCodeAnalysis "Workspace Analysis" "multiple" JsMap.empty [] []) in
  let rewritten := fold_left mergeRewrite analyses (functions merged) in
  calculateSignificance (with_functions merged (mergeLink rewritten)).

(* ------------------------------------------------------------------ *)
(** ** JavaScript numbers as the webview sees them *)

(** A coordinate or scale is a rational, or one of the values on which the
    source branches: NaN, an infinity, or [undefined]. *)
Inductive JsNum : Type :=
| Num (q : Q)
| NaN
| PosInf
| NegInf
| Undefined.

(** The global [isNaN(v)]: [undefined] converts to NaN. *)
Definition isNaN (v : JsNum) : bool :=
  match v with
  | NaN | Undefined => true
  | _ => false
  end.

(** [v === undefined]. *)
Definition isUndefined (v : JsNum) : bool :=
  match v with
  | Undefined => true
  | _ => false
  end.

(** [v > q] for a finite constant [q]. *)
Definition gtNum (v : JsNum) (q : Q) : bool :=
  match v with
  | Num p => negb (Qle_bool p q)
  | PosInf => true
  | _ => false
  end.

Record Position : Type := mkPosition {
  px : JsNum;
  py : JsNum;
  pvx : JsNum;
  pvy : JsNum
}.

(** The object literal [{ x, y }]. *)
Definition posXY (x y : Q) : Position :=
  mkPosition (Num x) (Num y) Undefined Undefined.

(* ------------------------------------------------------------------ *)
(** ** The webview script (visualizer.ts) *)

Module Visualizer.

Local Open Scope Q_scope.

(** [SIGNIFICANCE_LEVELS], in the order the literal is written. *)
Definition SIGNIFICANCE_LEVELS : list (Q * Z) :=
  [ (0.5, 70%Z); (0.8, 50%Z); (1.0, 30%Z);
    (1.3, 20%Z); (1.8, 10%Z); (2.5, 0%Z) ].

(** [Object.keys(levels).map(k => parseFloat(k))]: property order puts the
    integer-like key first; the sort that follows makes the order moot. *)
Definition levelKeys (levels : list (Q * Z)) : list Q :=
  let ks := map fst levels in
  filter (fun k => Qeq_bool k (inject_Z (Qfloor k))) ks ++
  filter (fun k => negb (Qeq_bool k (inject_Z (Qfloor k)))) ks.

Fixpoint insertSorted (a : Q) (l : list Q) : list Q :=
  match l with
  | [] => [a]
  | b :: r => if Qle_bool a b then a :: l else b :: insertSorted a r
  end.

(** [.sort((a, b) => a - b)]. *)
Definition sortAscending (l : list Q) : list Q :=
  fold_right insertSorted [] l.

(** [levels[t]]: [undefined] ([None]) when the table has no such key. *)
Fixpoint levelAt (levels : list (Q * Z)) (t : Q) : option Z :=
  match levels with
  | [] => None
  | (k, v) :: r => if Qeq_bool k t then Some v else levelAt r t
  end.

(** The descending [for] loop of [getMinSignificance], on the reversed
    array of thresholds. *)
Fixpoint firstAtMost (zoomLevel : Q) (descending : list Q) : option Q :=
  match descending with
  | [] => None
  | t :: r => if Qle_bool t zoomLevel then Some t else firstAtMost zoomLevel r
  end.

Definition getMinSignificanceIn (levels : list (Q * Z)) (zoomLevel : Q)
  : option Z :=
  let thresholds := sortAscending (levelKeys levels) in
  match firstAtMost zoomLevel (rev thresholds) with
  | Some t => levelAt levels t
  | None =>
      match thresholds with
      | t0 :: _ => levelAt levels t0
      | [] => None
      end
  end.

Definition getMinSignificance (zoomLevel : Q) : option Z :=
  getMinSignificanceIn SIGNIFICANCE_LEVELS zoomLevel.

(** [set.has(func.fileName)] for a set of file names; a function without a
    file name is in no such set. *)
Definition hasFile (files : list string) (file : option string) : bool :=
  match file with
  | Some f => includes files f
  | None => false
  end.

(** [func.significance !== undefined ? func.significance : 100]. *)
Definition significanceOrDefault (func : FunctionNode) : Z :=
  match significance func with
  | Some s => s
  | None => 100%Z
  end.

Definition shouldShowFunction (func : FunctionNode) (zoomLevel : Q)
  (isWorkspaceMode : bool) (expandedFiles filesToShow : list string) : bool :=
  if isWorkspaceMode && negb (Nat.eqb (List.length expandedFiles) 0)
     && negb (hasFile filesToShow (fileName func))
  then false
  else
    let minSignificance := getMinSignificance zoomLevel in
    let funcSignificance := significanceOrDefault func in
    match minSignificance with
    | Some m => (m <=? funcSignificance)%Z
    | None => false
    end.

(** The script's globals that the detailed view reads. *)
Record ViewState : Type := mkViewState {
  scale : Q;
  isWorkspaceMode : bool;
  expandedFiles : list string;
  fileClusters : list string
}.

(** [expandedFiles.size > 0 ? expandedFiles : new Set(fileClusters.keys())]. *)
Definition filesToShow (vs : ViewState) : list string :=
  if Nat.eqb (List.length (expandedFiles vs)) 0 then fileClusters vs
  else expandedFiles vs.

(** [visibleFunctions] of [renderDetailedView]; [renderVisualization] calls
    it with one position per function. *)
Definition visibleFunctions (vs : ViewState) (fns : list FunctionNode)
  (positions : list Position) : list FunctionNode :=
  map fst
    (filter
       (fun fp =>
          gtNum (px (snd fp)) (-1000) &&
          shouldShowFunction (fst fp) (scale vs) (isWorkspaceMode vs)
            (expandedFiles vs) (filesToShow vs))
       (combine fns positions)).

(** The nodes [renderDetailedView] draws: the visible functions, minus
    those whose file is not shown. *)
Definition drawnNodes (vs : ViewState) (fns : list FunctionNode)
  (positions : list Position) : list FunctionNode :=
  filter (fun func => hasFile (filesToShow vs) (fileName func))
    (visibleFunctions vs fns positions).

(** [Math.random()] is a stream of draws; the state is the number of draws
    made so far. *)
Definition Random : Type := nat -> Q.

Definition needsFallback (pos : Position) : bool :=
  isNaN (px pos) || isNaN (py pos) || isUndefined (px pos) || isUndefined (py pos).

(** The validation loop of [renderVisualization]. *)
Fixpoint validatePositions (rand : Random) (n : nat) (width height : Q)
  (positions : list Position) : list Position * nat :=
  match positions with
  | [] => ([], n)
  | pos :: rest =>
      if needsFallback pos then
        let x := width / 2 + (rand n - 0.5) * 100 in
        let y := height / 2 + (rand (S n) - 0.5) * 100 in
        let (rest', n') := validatePositions rand (S (S n)) width height rest in
        (mkPosition (Num x) (Num y) (pvx pos) (pvy pos) :: rest', n')
      else
        let (rest', n') := validatePositions rand n width height rest in
        (pos :: rest', n')
  end.

End Visualizer.

(* ------------------------------------------------------------------ *)
(** ** The hierarchical layout (layouts.ts) *)

Module Layout.

Local Open Scope Q_scope.

Record FunctionInfo : Type := mkFunctionInfo {
  fi_name : string;
  fi_calls : list string;
  fi_calledBy : list string;
  fi_fileName : option string;
  fi_complexity : option Z
}.

(** A reference to one of the objects of the [functions] array: its index
    there, with the object's fields. [functions.indexOf(node)] compares
    references, so two records with equal fields stay distinct nodes. *)
Definition NodeRef : Type := (nat * FunctionInfo)%type.

Definition indexed (fns : list FunctionInfo) : list NodeRef :=
  combine (seq 0 (List.length fns)) fns.

(** [set.add(x)] on an insertion-ordered [Set<string>]. *)
Definition setAdd (s : list string) (x : string) : list string :=
  if includes s x then s else s ++ [x].

(** [nodes.find(f => f.name === calledName)]. *)
Definition findByName (nodes : list NodeRef) (calledName : string)
  : option NodeRef :=
  find (fun n => String.eqb (fi_name (snd n)) calledName) nodes.

(** [getMaxDepth(node, depthVisited)]; every recursive call receives its own
    copy of the visited set. [None] stands for an exhausted recursion budget. *)
Fixpoint getMaxDepth (fuel : nat) (nodes : list NodeRef) (node : NodeRef)
  (depthVisited : list string) : option nat :=
  match fuel with
  | O => None
  | S fuel' =>
      if includes depthVisited (fi_name (snd node)) then Some 0%nat
      else
        let depthVisited := setAdd depthVisited (fi_name (snd node)) in
        if Nat.eqb (List.length (fi_calls (snd node))) 0 then Some 0%nat
        else
          fold_left
            (fun acc calledName =>
               match acc with
               | None => None
               | Some maxDepth =>
                   match findByName nodes calledName with
                   | Some called =>
                       match getMaxDepth fuel' nodes called depthVisited with
                       | Some depth => Some (Nat.max maxDepth (depth + 1))
                       | None => None
                       end
                   | None => Some maxDepth
                   end
               end)
            (fi_calls (snd node)) (Some 0%nat)
  end.

(** The [while (toVisit.length > 0)] loop; the head of [toVisit] is the top
    of the stack ([pop] takes it, [push] puts one on). *)
Fixpoint walkChain (fuel : nat) (nodes : list NodeRef) (toVisit : list NodeRef)
  (chainVisited meaningfulNodes : list string) : option (list string) :=
  match fuel with
  | O => None
  | S fuel' =>
      match toVisit with
      | [] => Some meaningfulNodes
      | current :: toVisit =>
          if includes chainVisited (fi_name (snd current))
          then walkChain fuel' nodes toVisit chainVisited meaningfulNodes
          else
            let chainVisited := setAdd chainVisited (fi_name (snd current)) in
            let meaningfulNodes :=
              setAdd meaningfulNodes (fi_name (snd current)) in
            let toVisit :=
              fold_left
                (fun stack calledName =>
                   match findByName nodes calledName with
                   | Some called =>
                       if includes chainVisited (fi_name (snd called))
                       then stack else called :: stack
                   | None => stack
                   end)
                (fi_calls (snd current)) toVisit in
            walkChain fuel' nodes toVisit chainVisited meaningfulNodes
      end
  end.

Definition totalCalls (nodes : list NodeRef) : nat :=
  fold_left (fun n node => (n + List.length (fi_calls (snd node)))%nat) nodes 0%nat.

(** First [forEach]: deep chains and hubs, with everything they reach. *)
Definition findMeaningful (nodes : list NodeRef) : option (list string) :=
  fold_left
    (fun acc func =>
       match acc with
       | None => None
       | Some meaningfulNodes =>
           match getMaxDepth (S (S (List.length nodes))) nodes func [] with
           | None => None
           | Some depth =>
               if Nat.leb 2 depth || Nat.leb 2 (List.length (fi_calledBy (snd func)))
               then walkChain (S (S (totalCalls nodes))) nodes [func] []
                      (setAdd meaningfulNodes (fi_name (snd func)))
               else Some meaningfulNodes
           end
       end)
    nodes (Some []).

(** Second [forEach]: callers of meaningful nodes; the set grows while the
    loop runs. *)
Definition addCallers (nodes : list NodeRef) (meaningfulNodes : list string)
  : list string :=
  fold_left
    (fun meaningfulNodes func =>
       fold_left
         (fun meaningfulNodes calledName =>
            if includes meaningfulNodes calledName
            then setAdd meaningfulNodes (fi_name (snd func))
            else meaningfulNodes)
         (fi_calls (snd func)) meaningfulNodes)
    nodes meaningfulNodes.

Definition functionsToDisplay (nodes : list NodeRef)
  (meaningfulNodes : list string) : list NodeRef :=
  if Nat.ltb 0 (List.length meaningfulNodes)
  then filter (fun f => includes meaningfulNodes (fi_name (snd f))) nodes
  else filter
         (fun f => Nat.ltb 0 (List.length (fi_calls (snd f))) ||
                   Nat.ltb 0 (List.length (fi_calledBy (snd f))))
         nodes.

Definition findRoots (toDisplay : list NodeRef) (meaningfulNodes : list string)
  : list NodeRef :=
  let roots :=
    filter
      (fun f => Nat.eqb (List.length (fi_calledBy (snd f))) 0 ||
                negb (existsb (fun caller => includes meaningfulNodes caller)
                        (fi_calledBy (snd f))))
      toDisplay in
  match roots, toDisplay with
  | [], first :: _ => [first]
  | _, _ => roots
  end.

(** The closure state of [assignLevels]: the [visited] set and the
    [levels] map, in insertion order. *)
Record LevelState : Type := mkLevelState {
  visited : list string;
  levels : list (nat * list NodeRef)
}.

(** [if (!levels.has(level)) levels.set(level, []); levels.get(level).push(node)]. *)
Fixpoint levelsPush (lv : list (nat * list NodeRef)) (level : nat)
  (node : NodeRef) : list (nat * list NodeRef) :=
  match lv with
  | [] => [(level, [node])]
  | (l, ns) :: r =>
      if Nat.eqb l level then (l, (ns ++ [node])%list) :: r
      else (l, ns) :: levelsPush r level node
  end.

Fixpoint assignLevels (fuel : nat) (toDisplay : list NodeRef) (node : NodeRef)
  (level : nat) (st : LevelState) : option LevelState :=
  match fuel with
  | O => None
  | S fuel' =>
      if includes (visited st) (fi_name (snd node)) then Some st
      else
        let st :=
          mkLevelState (setAdd (visited st) (fi_name (snd node)))
            (levelsPush (levels st) level node) in
        fold_left
          (fun acc calledName =>
             match acc with
             | None => None
             | Some st =>
                 match findByName toDisplay calledName with
                 | Some called => assignLevels fuel' toDisplay called (level + 1) st
                 | None => Some st
                 end
             end)
          (fi_calls (snd node)) (Some st)
  end.

(** Everything before the positions are computed: which nodes are leveled,
    and at which level. *)
Definition hierarchicalLevels (fns : list FunctionInfo) : option LevelState :=
  let nodes := indexed fns in
  match findMeaningful nodes with
  | None => None
  | Some meaningfulNodes =>
      let meaningfulNodes := addCallers nodes meaningfulNodes in
      let toDisplay := functionsToDisplay nodes meaningfulNodes in
      let roots := findRoots toDisplay meaningfulNodes in
      fold_left
        (fun acc root =>
           match acc with
           | None => None
           | Some st =>
               assignLevels (S (S (List.length nodes))) toDisplay root 0 st
           end)
        roots (Some (mkLevelState [] []))
  end.

(** The off-canvas position of a node that is not displayed. *)
Definition hiddenPosition : Position := posXY (-10000) (-10000).

Definition initialPositions (fns : list FunctionInfo) (st : LevelState)
  : list Position :=
  map (fun func =>
         if includes (visited st) (fi_name func) then posXY 0 0
         else hiddenPosition)
    fns.

(** [positions[i] = p] for an index inside the array. *)
Fixpoint setAt (i : nat) (p : Position) (positions : list Position)
  : list Position :=
  match positions, i with
  | [], _ => []
  | _ :: r, O => p :: r
  | q :: r, S i' => q :: setAt i' p r
  end.

Definition maxLevelOf (lv : list (nat * list NodeRef)) : nat :=
  fold_left (fun m l => Nat.max m (fst l)) lv 0%nat.

Definition qmin (a b : Q) : Q := if Qle_bool a b then a else b.

Definition ofNat (n : nat) : Q := inject_Z (Z.of_nat n).

Definition horizontalPadding : Q := 150.
Definition verticalPadding : Q := 120.

Definition bandY (maxLevel level : nat) (height : Q) : Q :=
  if Nat.ltb 0 maxLevel
  then verticalPadding
       + (ofNat level / ofNat maxLevel) * (height - 2 * verticalPadding)
  else height / 2.

Definition nodeX (nodeCount index : nat) (width : Q) : Q :=
  if Nat.eqb nodeCount 1 then width / 2
  else
    let availableWidth := width - 2 * horizontalPadding in
    let spacing := qmin 250 (availableWidth / ofNat (nodeCount - 1)) in
    let totalWidth := spacing * ofNat (nodeCount - 1) in
    let startX := (width - totalWidth) / 2 in
    startX + spacing * ofNat index.

(** [levels.forEach((nodes, level) => nodes.forEach((node, index) => ...))]. *)
Definition placeLevels (lv : list (nat * list NodeRef)) (width height : Q)
  (positions : list Position) : list Position :=
  let maxLevel := maxLevelOf lv in
  fold_left
    (fun positions entry =>
       let y := bandY maxLevel (fst entry) height in
       let nodes := snd entry in
       fold_left
         (fun positions ni =>
            let x := nodeX (List.length nodes) (fst ni) width in
            setAt (fst (snd ni)) (posXY x y) positions)
         (combine (seq 0 (List.length nodes)) nodes) positions)
    lv positions.

Definition calculateHierarchicalLayout (fns : list FunctionInfo)
  (width height : Q) : option (list Position) :=
  match hierarchicalLevels fns with
  | None => None
  | Some st =>
      Some (placeLevels (levels st) width height (initialPositions fns st))
  end.

(** The index of a node that the layout has put in some level. *)
Definition leveledAt (st : LevelState) (i level : nat) : Prop :=
  exists nodes, In (level, nodes) (levels st) /\ In i (map fst nodes).

Definition leveled (st : LevelState) (i : nat) : Prop :=
  exists level, leveledAt st i level.

(** The excluded outcome: the node sits at the off-canvas position. *)
Definition excluded (positions : list Position) (i : nat) : Prop :=
  nth_error positions i = Some hiddenPosition.

(** The renderers draw and link a node only when [positions[i].x > -1000]. *)
Definition onCanvas (positions : list Position) (i : nat) : bool :=
  match nth_error positions i with
  | Some p => gtNum (px p) (-1000)
  | None => false
  end.

End Layout.

(* ------------------------------------------------------------------ *)
(** ** The specification's vocabulary *)

(** The callers that the calls lists of a graph determine for the function
    stored under [b]: the keys, in map order, of the functions whose calls
    contain [b]. *)
Definition callersFromCalls (m : JsMap.t FunctionNode) (b : string)
  : list string :=
  map fst (filter (fun e => includes (calls (snd e)) b) m).

(** A resolved graph: every record is stored under its own name, and its
    callers are the inverse of the calls lists, each caller listed once. *)
Definition resolvedGraph (m : JsMap.t FunctionNode) : Prop :=
  forall kb B, JsMap.get kb m = Some B ->
    name B = kb /\
    calledBy B = callersFromCalls m kb /\
    NoDup (calledBy B) /\
    forall ka A, JsMap.get ka m = Some A ->
      (In (name A) (calledBy B) <-> In (name B) (calls A)).

Definition clamp (lo hi v : Z) : Z := Z.max lo (Z.min hi v).

(** "More than 2 of its callees themselves have at least one caller": the
    entries of the calls list that name a function of the graph with a
    non-empty callers list. *)
Definition calleesWithCaller (fns : list FunctionNode) (func : FunctionNode)
  : Z :=
  len (filter
         (fun c =>
            existsb (fun g => String.eqb (name g) c &&
                              negb (Nat.eqb (List.length (calledBy g)) 0))
              fns)
         (calls func)).

(** The sum of section 4.3, without the export bonus. *)
Definition specBaseScore (fns : list FunctionNode) (func : FunctionNode) : Z :=
  let callers := len (calledBy func) in
  let callees := len (calls func) in
  (50
   + (if (callers =? 0) then 40 else 0)
   + (if (0 <? callers) then Z.min (8 * callers) 30 else 0)
   + (if (3 <? callees) then Z.min (2 * callees) 10 else 0)
   - (if (3 <? callers) then 20 else 0)
   - (if (0 <? callees) && (0 <? callers) && (2 <? calleesWithCaller fns func)
      then 15 else 0))%Z.

(** The significance of section 4.3. *)
Definition specSignificance (fns : list FunctionNode) (exps : list string)
  (func : FunctionNode) : Z :=
  clamp 0 100
    (specBaseScore fns func + (if includes exps (name func) then 20 else 0))%Z.

(** The rewriting rule of the cross-file merge, on the keys of the merged
    graph in map order. *)
Definition rewriteSpec (mergedKeys : list string) (fileLabel callee : string)
  : string :=
  if includes mergedKeys (uniqueKey callee fileLabel)
  then uniqueKey callee fileLabel
  else match find (fun key => JsString.startsWith key (callee ++ "::"))
               mergedKeys with
       | Some key => key
       | None => callee
       end.

(** An analysis with the callers of every record forgotten. *)
Definition forgetCallers (a : CodeAnalysis) : CodeAnalysis :=
  with_functions a
    (map (fun e => (fst e, with_calledBy (snd e) [])) (functions a)).

(** The functions that a merge reads, in the order of its loops: for each
    analysis, its file label with each entry of its map. *)
Definition mergeEntries (analyses : list CodeAnalysis)
  : list (CodeAnalysis * (string * FunctionNode)) :=
  flat_map (fun a => map (fun e => (a, e)) (functions a)) analyses.

(** The key under which a merge stores an entry. *)
Definition entryLabel (x : CodeAnalysis * (string * FunctionNode)) : string :=
  fileLabelOf (ca_fileName (fst x)).

Definition entryKey (x : CodeAnalysis * (string * FunctionNode)) : string :=
  uniqueKey (fst (snd x)) (entryLabel x).

(** The local names that an analysis declares. *)
Definition declaredNames (a : CodeAnalysis) : list string :=
  JsMap.keys (functions a).

(** The chain A -> B -> C with the isolated D. *)
Definition chainA : Layout.FunctionInfo :=
  Layout.mkFunctionInfo "A" ["B"] [] None None.
Definition chainB : Layout.FunctionInfo :=
  Layout.mkFunctionInfo "B" ["C"] ["A"] None None.
Definition chainC : Layout.FunctionInfo :=
  Layout.mkFunctionInfo "C" [] ["B"] None None.
Definition isolatedD : Layout.FunctionInfo :=
  Layout.mkFunctionInfo "D" [] [] None None.

(** Every way to put [a] into [l]. *)
Fixpoint insertions {A : Type} (a : A) (l : list A) : list (list A) :=
  match l with
  | [] => [[a]]
  | b :: r => (a :: l) :: map (cons b) (insertions a r)
  end.

(** Every order of the elements of [l]. *)
Fixpoint orderings {A : Type} (l : list A) : list (list A) :=
  match l with
  | [] => [[]]
  | a :: r => flat_map (insertions a) (orderings r)
  end.

(** The index of the function called [n] in an array of functions. *)
Fixpoint indexOfName (n : string) (fns : list Layout.FunctionInfo) : option nat :=
  match fns with
  | [] => None
  | f :: r =>
      if String.eqb (Layout.fi_name f) n then Some 0%nat
      else option_map S (indexOfName n r)
  end.

(** A coordinate that is a number within [d] of [c]. *)
Definition within (d c : Q) (v : JsNum) : Prop :=
  match v with
  | Num q => (c - d <= q /\ q <= c + d)%Q
  | _ => False
  end.

(** A coordinate that rendering can use: neither NaN nor [undefined]. *)
Definition usable (v : JsNum) : Prop := v <> NaN /\ v <> Undefined.

(* ------------------------------------------------------------------ *)
(** ** The linking loops, element by element *)

(** Both linking loops look a target up (by name in one file, by key in the
    merged graph) and push the caller on it. [sel] is what a function is
    looked up by. *)
Definition linkWith (sel : string * FunctionNode -> string)
  (caller callee : string) (st : JsMap.t FunctionNode) : JsMap.t FunctionNode :=
  modify_first (fun e => String.eqb (sel e) callee)
    (fun e => (fst e, addCaller caller (snd e))) st.

(** What one (caller, callee) step does to one entry of the store. *)
Definition bump (sel : string * FunctionNode -> string) (p : string * string)
  (e : string * FunctionNode) : string * FunctionNode :=
  if String.eqb (sel e) (snd p) then (fst e, addCaller (fst p) (snd e)) else e.

Definition bumps (sel : string * FunctionNode -> string)
  (ps : list (string * string)) (e : string * FunctionNode)
  : string * FunctionNode :=
  fold_left (fun e p => bump sel p e) ps e.

(** The (caller, callee) pairs in the order the nested loops visit them. *)
Definition pairsBy (sel : string * FunctionNode -> string)
  (m : JsMap.t FunctionNode) : list (string * string) :=
  flat_map (fun x => map (pair (sel x)) (calls (snd x))) m.

(** The guarded pushes of a sequence of callers. *)
Definition pushAll (cb callers : list string) : list string :=
  fold_left (fun cb a => if includes cb a then cb else cb ++ [a])%list callers cb.

Definition callersBy (sel : string * FunctionNode -> string)
  (m : JsMap.t FunctionNode) (b : string) : list string :=
  map sel (filter (fun x => includes (calls (snd x)) b) m).

(** What the linking loops make of a store whose callers start empty. *)
Definition linked (sel : string * FunctionNode -> string)
  (m : JsMap.t FunctionNode) : JsMap.t FunctionNode :=
  map (fun e => (fst e, with_calledBy (snd e) (callersBy sel m (sel e)))) m.

(* ------------------------------------------------------------------ *)
(** ** The merge loops, entry by entry *)

(** The body of the first loop of [mergeAnalyses] for one entry. *)
Definition insertStep (m : JsMap.t FunctionNode)
  (x : CodeAnalysis * (string * FunctionNode)) : JsMap.t FunctionNode :=
  let func := snd (snd x) in
  JsMap.set (entryKey x)
    (mkFunctionNode (entryKey x) (fst (snd x)) (startLine func) (endLine func)
       (calls func) (calledBy func) (params func) (complexity func)
       (Some (ca_fileName (fst x))) (code func) (significance func))
    m.

(** The body of the second loop for one entry. *)
Definition rewriteStep (m : JsMap.t FunctionNode)
  (x : CodeAnalysis * (string * FunctionNode)) : JsMap.t FunctionNode :=
  match JsMap.get (entryKey x) m with
  | Some mergedFunc =>
      JsMap.set (entryKey x)
        (with_calls_reset mergedFunc
           (map (resolveCall m (entryLabel x)) (calls (snd (snd x)))))
        m
  | None => m
  end.

(** What the second loop's step for [x] does to one entry of a store whose
    keys are [ks]. *)
Definition rewriteEntry (ks : list string)
  (x : CodeAnalysis * (string * FunctionNode)) (e : string * FunctionNode)
  : string * FunctionNode :=
  if String.eqb (fst e) (entryKey x)
  then (fst e,
        with_calls_reset (snd e)
          (map (rewriteSpec ks (entryLabel x)) (calls (snd (snd x)))))
  else e.

Definition rewriteEntries (ks : list string)
  (xs : list (CodeAnalysis * (string * FunctionNode)))
  (e : string * FunctionNode) : string * FunctionNode :=
  fold_left (fun e x => rewriteEntry ks x e) xs e.

(** An entry of a merge, and an entry of a store, with callers forgotten. *)
Definition forgetEntry (x : CodeAnalysis * (string * FunctionNode))
  : CodeAnalysis * (string * FunctionNode) :=
  (forgetCallers (fst x), (fst (snd x), with_calledBy (snd (snd x)) [])).

Definition clearCallers (e : string * FunctionNode) : string * FunctionNode :=
  (fst e, with_calledBy (snd e) []).

(** Every record is stored under its own name. *)
Definition selfNamed (m : JsMap.t FunctionNode) : Prop :=
  forall e, In e m -> name (snd e) = fst e.

(** The store as the syntax-tree walk leaves it: distinct keys, every
    record under its own name, no callers yet. *)
Definition freshStore (m : JsMap.t FunctionNode) : Prop :=
  JsMap.wf m /\ selfNamed m /\ forall e, In e m -> calledBy (snd e) = [].

(* ------------------------------------------------------------------ *)
(** ** The viewport filter's vocabulary *)

(** The workspace file filter excludes the function: workspace mode, some
    cluster expanded, and the function's file not among the files to show. *)
Definition fileFiltered (func : FunctionNode) (isWorkspaceMode : bool)
  (expandedFiles filesToShow : list string) : bool :=
  isWorkspaceMode && negb (Nat.eqb (List.length expandedFiles) 0)
  && negb (Visualizer.hasFile filesToShow (fileName func)).

(** The significance of the function, 100 when it has none, is at least
    the cutoff of the zoom level. *)
Definition meetsCutoff (func : FunctionNode) (zoomLevel : Q) : bool :=
  match Visualizer.getMinSignificance zoomLevel with
  | Some cutoff => (cutoff <=? Visualizer.significanceOrDefault func)%Z
  | None => false
  end.

(* ------------------------------------------------------------------ *)
(** ** Sample inputs *)

Definition unit (n : string) (cs : list string) : ParsedUnit :=
  mkParsedUnit n 0 1 [] cs "" "".

(** Two files of a workspace: [main] and [helper] in a.ts, [load] and
    [parse] in b.ts. *)
Definition demoFileA : CodeAnalysis :=
  analyzeDocument "/ws/a.ts" "typescript"
    [unit "main" ["helper"; "load"; "print"]; unit "helper" []] [] ["main"].

Definition demoFileB : CodeAnalysis :=
  analyzeDocument "/ws/b.ts" "typescript"
    [unit "load" ["helper"; "parse"]; unit "parse" []] [] ["load"].

Definition demoWorkspace : list CodeAnalysis := [demoFileA; demoFileB].

(** Two files whose names and labels contain colons. *)
Definition colonFileA : CodeAnalysis :=
  analyzeDocument "g::x" "typescript" [unit "f" []] [] [].

Definition colonFileB : CodeAnalysis :=
  analyzeDocument "x" "typescript" [unit "f::g" []] [] [].

(** A function without callers, and the same function with one. *)
Definition loneFunction : FunctionNode :=
  mkFunctionNode "f" "f" 0 1 [] [] [] "" None None (Some 50%Z).

Definition calledOnce : FunctionNode := with_calledBy loneFunction ["g"].

Definition graphOf (f : FunctionNode) : CodeAnalysis :=
  mkCodeAnalysis "/ws/a.ts" "typescript" [(name f, f)] [] [].

(** A view with the cluster of a.ts expanded, zoomed out to 0.5. *)
Definition focusView : Visualizer.ViewState :=
  Visualizer.mkViewState 0.5 true ["/ws/a.ts"] ["/ws/a.ts"; "/ws/b.ts"].

(** A function of a.ts with significance 58, and one of b.ts without a
    significance. *)
Definition helperOfA : FunctionNode :=
  mkFunctionNode "helper::a.ts" "helper" 0 1 [] ["main::a.ts"] [] ""
    (Some "/ws/a.ts") None (Some 58%Z).

Definition unscoredOfB : FunctionNode :=
  mkFunctionNode "parse::b.ts" "parse" 0 1 [] [] [] ""
    (Some "/ws/b.ts") None None.

(** A stream of draws that always gives one half. *)
Definition halves : Visualizer.Random := fun _ => 0.5%Q.

(* ------------------------------------------------------------------ *)
(** ** The syntax-tree walk of the analyzer (analyzer.ts) *)

(** A tree-sitter node as the analyzer reads it: its type, its text, the rows
    of its start and end positions, and its children, each with the field name
    it has in its parent, if any. *)
#[warnings="-register-all"]
Inductive SyntaxNode : Type :=
| mkNode (type text : string) (startRow endRow : Z)
    (children : list (option string * SyntaxNode)).

Definition nodeType (n : SyntaxNode) : string :=
  match n with mkNode ty _ _ _ _ => ty end.
Definition nodeText (n : SyntaxNode) : string :=
  match n with mkNode _ tx _ _ _ => tx end.
Definition nodeStartRow (n : SyntaxNode) : Z :=
  match n with mkNode _ _ s _ _ => s end.
Definition nodeEndRow (n : SyntaxNode) : Z :=
  match n with mkNode _ _ _ e _ => e end.
Definition fieldChildren (n : SyntaxNode) : list (option string * SyntaxNode) :=
  match n with mkNode _ _ _ _ ch => ch end.

(** [node.children]. *)
Definition nodeChildren (n : SyntaxNode) : list SyntaxNode :=
  map snd (fieldChildren n).

(** [node.childForFieldName(field)]: the first child with that field name. *)
Definition childForFieldName (n : SyntaxNode) (field : string)
  : option SyntaxNode :=
  match find (fun c => match fst c with
                       | Some f => String.eqb f field
                       | None => false
                       end) (fieldChildren n) with
  | Some c => Some (snd c)
  | None => None
  end.

(** [a || b] on two nodes that may be null. *)
Definition orElse (a b : option SyntaxNode) : option SyntaxNode :=
  match a with Some _ => a | None => b end.

(** [if (!params.includes(x)) params.push(x)]. *)
Definition pushNew (params : list string) (x : string) : list string :=
  if includes params x then params else params ++ [x].

(** [extractParameters]'s [extractRecursive]. *)
Fixpoint extractRecursive (node : SyntaxNode) (params : list string)
  : list string :=
  match node with
  | mkNode ty tx _ _ ch =>
      if String.eqb ty "identifier" then pushNew params tx
      else if String.eqb ty "property_identifier" then pushNew params tx
      else if includes ["typed_parameter"; "required_parameter"; "optional_parameter"] ty
      then
        match orElse (childForFieldName node "name")
                (childForFieldName node "pattern") with
        | Some nameChild =>
            if String.eqb (nodeType nameChild) "identifier"
               && negb (includes params (nodeText nameChild))
            then params ++ [nodeText nameChild] else params
        | None => params
        end
      else if String.eqb ty "formal_parameter" then
        match childForFieldName node "name" with
        | Some nameChild => pushNew params (nodeText nameChild)
        | None => params
        end
      else if includes ["parameter"; "typed_parameter"; "typed_default_parameter"] ty
      then
        match childForFieldName node "name" with
        | Some nameChild => pushNew params (nodeText nameChild)
        | None => params
        end
      else
        fold_left (fun params child => extractRecursive (snd child) params)
          ch params
  end.

(** [extractParameters(paramsNode, params)]: the array after the call. *)
Definition extractParameters (paramsNode : SyntaxNode) (params : list string)
  : list string :=
  extractRecursive paramsNode params.

(** The names that [analyzeFunctionBody] never records as callees. *)
Definition pythonKeywords : list string := ["if"; "for"; "while"].
Definition jsKeywords : list string := ["if"; "for"; "while"; "switch"; "catch"].

(** The callee name that [analyzeFunctionBody] reads off a call node. *)
Definition calleeNameOf (node : SyntaxNode) : string :=
  match childForFieldName node "function" with
  | Some funcNode =>
      if String.eqb (nodeType funcNode) "member_expression"
         || String.eqb (nodeType funcNode) "attribute"
      then
        match orElse (childForFieldName funcNode "property")
                (childForFieldName funcNode "attribute") with
        | Some propertyNode => nodeText propertyNode
        | None => ""
        end
      else nodeText funcNode
  | None =>
      match childForFieldName node "name" with
      | Some nameNode => nodeText nameNode
      | None => ""
      end
  end.

(** What the traversal of [analyzeFunctionBody] does at one node. *)
Definition visitCall (functionName : string) (isPython : bool)
  (node : SyntaxNode) (calls : list string) : list string :=
  if includes ["call_expression"; "call"; "method_invocation"] (nodeType node)
  then
    let calleeName := calleeNameOf node in
    if negb (String.eqb calleeName "")
       && negb (String.eqb calleeName functionName)
       && negb (includes (if isPython then pythonKeywords else jsKeywords)
                  calleeName)
    then Layout.setAdd calls calleeName
    else calls
  else calls.

(** The [traverse] of [analyzeFunctionBody]. *)
Fixpoint traverseBody (functionName : string) (isPython : bool)
  (node : SyntaxNode) (calls : list string) : list string :=
  let calls := visitCall functionName isPython node calls in
  match node with
  | mkNode _ _ _ _ ch =>
      fold_left
        (fun calls child => traverseBody functionName isPython (snd child) calls)
        ch calls
  end.

(** [analyzeFunctionBody]: the calls found, and the complexity it reports,
    which this revision leaves empty. *)
Definition analyzeFunctionBody (bodyNode : SyntaxNode) (functionName : string)
  (calls : list string) (isPython : bool) : list string * string :=
  (traverseBody functionName isPython bodyNode calls, "").

(** The record a [process...Function] call stores for the declaration
    [node] named [name]: parameters from the [parameters] field, calls from
    the [body] field, both empty when the field is missing. *)
Definition unitOf (isPython : bool) (name : string) (node : SyntaxNode)
  : ParsedUnit :=
  let params :=
    match childForFieldName node "parameters" with
    | Some paramsNode => extractParameters paramsNode []
    | None => []
    end in
  let '(calls, complexity) :=
    match childForFieldName node "body" with
    | Some bodyNode => analyzeFunctionBody bodyNode name [] isPython
    | None => ([], "")
    end in
  mkParsedUnit name (nodeStartRow node) (nodeEndRow node) params calls
    complexity (nodeText node).

(** [processJavaScriptFunction], [processPythonFunction] and
    [processJavaMethod] differ in the keyword list of the body analysis. *)
Definition processJavaScriptFunction (name : string) (node : SyntaxNode)
  (analysis : CodeAnalysis) : CodeAnalysis :=
  processFunction analysis (unitOf false name node).

Definition processPythonFunction (name : string) (node : SyntaxNode)
  (analysis : CodeAnalysis) : CodeAnalysis :=
  processFunction analysis (unitOf true name node).

Definition processJavaMethod (name : string) (node : SyntaxNode)
  (analysis : CodeAnalysis) : CodeAnalysis :=
  processFunction analysis (unitOf false name node).

(** [analysis.imports.push(s)] and [analysis.exports.push(s)]. *)
Definition pushImport (a : CodeAnalysis) (s : string) : CodeAnalysis :=
  mkCodeAnalysis (ca_fileName a) (ca_language a) (functions a)
    (imports a ++ [s]) (exports a).

Definition pushExport (a : CodeAnalysis) (s : string) : CodeAnalysis :=
  mkCodeAnalysis (ca_fileName a) (ca_language a) (functions a)
    (imports a) (exports a ++ [s]).

Definition singleQuote : ascii := ascii_of_nat 39.
Definition doubleQuote : ascii := ascii_of_nat 34.

(** The global replace of [analyzeJavaScript] on an import source: every
    single-quote and double-quote character is removed. *)
Fixpoint stripQuotes (s : string) : string :=
  match s with
  | EmptyString => EmptyString
  | String c r =>
      if Ascii.eqb c singleQuote || Ascii.eqb c doubleQuote
      then stripQuotes r else String c (stripQuotes r)
  end.

(** The [if] blocks that [analyzeJavaScript]'s [traverse] runs at one node
    before descending into its children. *)
Definition visitJavaScript (node : SyntaxNode) (analysis : CodeAnalysis)
  : CodeAnalysis :=
  let analysis :=
    if String.eqb (nodeType node) "import_statement" then
      match childForFieldName node "source" with
      | Some source => pushImport analysis (stripQuotes (nodeText source))
      | None => analysis
      end
    else analysis in
  let analysis :=
    if String.eqb (nodeType node) "export_statement" then
      match childForFieldName node "declaration" with
      | Some declaration =>
          match childForFieldName declaration "name" with
          | Some nameNode => pushExport analysis (nodeText nameNode)
          | None => analysis
          end
      | None => analysis
      end
    else analysis in
  let analysis :=
    if String.eqb (nodeType node) "function_declaration"
       || String.eqb (nodeType node) "generator_function_declaration" then
      match childForFieldName node "name" with
      | Some nameNode =>
          processJavaScriptFunction (nodeText nameNode) node analysis
      | None => analysis
      end
    else analysis in
  let analysis :=
    if String.eqb (nodeType node) "method_definition" then
      match childForFieldName node "name" with
      | Some nameNode =>
          processJavaScriptFunction (nodeText nameNode) node analysis
      | None => analysis
      end
    else analysis in
  if String.eqb (nodeType node) "lexical_declaration"
     || String.eqb (nodeType node) "variable_declaration" then
    fold_left
      (fun analysis child =>
         if String.eqb (nodeType child) "variable_declarator" then
           match childForFieldName child "name",
                 childForFieldName child "value" with
           | Some nameNode, Some valueNode =>
               if String.eqb (nodeType valueNode) "arrow_function"
                  || String.eqb (nodeType valueNode) "function_expression"
                  || String.eqb (nodeType valueNode) "generator_function"
               then processJavaScriptFunction (nodeText nameNode) valueNode
                      analysis
               else analysis
           | _, _ => analysis
           end
         else analysis)
      (nodeChildren node) analysis
  else analysis.

(** The [traverse] of [analyzeJavaScript]. *)
Fixpoint traverseJavaScript (node : SyntaxNode) (analysis : CodeAnalysis)
  : CodeAnalysis :=
  let analysis := visitJavaScript node analysis in
  match node with
  | mkNode _ _ _ _ ch =>
      fold_left (fun analysis child => traverseJavaScript (snd child) analysis)
        ch analysis
  end.

(** [analyzeJavaScript(tree, analysis)], on the tree's root node. *)
Definition analyzeJavaScript (rootNode : SyntaxNode) (analysis : CodeAnalysis)
  : CodeAnalysis :=
  traverseJavaScript rootNode analysis.

(** [analyzeDocument] on a document of one of the JavaScript languages whose
    parse gave the tree rooted at [rootNode]. *)
Definition analyzeJavaScriptDocument (file language : string)
  (rootNode : SyntaxNode) : CodeAnalysis :=
  let analysis :=
    analyzeJavaScript rootNode
      (mkCodeAnalysis file language JsMap.empty [] []) in
  calculateSignificance (buildCalledByRelationships analysis).

(** The nodes of a subtree, the node first, then its children's subtrees in
    order. *)
Fixpoint subtreeNodes (node : SyntaxNode) : list SyntaxNode :=
  node ::
  match node with
  | mkNode _ _ _ _ ch => flat_map (fun child => subtreeNodes (snd child)) ch
  end.

(** A node of one of the three call types. *)
Definition isCallNode (node : SyntaxNode) : bool :=
  includes ["call_expression"; "call"; "method_invocation"] (nodeType node).

Definition keywordsOf (isPython : bool) : list string :=
  if isPython then pythonKeywords else jsKeywords.

(** Induction on a syntax tree, with the property available for every
    child. *)
Section SyntaxNodeInduction.

Variable P : SyntaxNode -> Prop.
Hypothesis step : forall ty tx s e ch,
  Forall (fun c => P (snd c)) ch -> P (mkNode ty tx s e ch).

Fixpoint SyntaxNode_induction (n : SyntaxNode) : P n :=
  match n with
  | mkNode ty tx s e ch =>
      step ty tx s e ch
        ((fix children (l : list (option string * SyntaxNode))
            : Forall (fun c => P (snd c)) l :=
            match l with
            | [] => Forall_nil _
            | c :: r => Forall_cons c (SyntaxNode_induction (snd c)) (children r)
            end) ch)
  end.

End SyntaxNodeInduction.

(** The call nodes whose callee name [analyzeFunctionBody] records. *)
Definition recordedCall (functionName : string) (isPython : bool)
  (node : SyntaxNode) : bool :=
  isCallNode node
  && negb (String.eqb (calleeNameOf node) "")
  && negb (String.eqb (calleeNameOf node) functionName)
  && negb (includes (keywordsOf isPython) (calleeNameOf node)).

(** No stored record names itself among its calls. *)
Definition noSelfCalls (m : JsMap.t FunctionNode) : Prop :=
  forall e, In e m -> ~ In (name (snd e)) (calls (snd e)).

(* ------------------------------------------------------------------ *)
(** ** The webview's copy of the hierarchical layout (visualizer.ts) *)

(** The script of the webview carries its own [calculateHierarchicalLayout]:
    the same meaningful set, roots and levels, placed with other margins. *)
Module LayoutWebview.

Import Layout.
Local Open Scope Q_scope.

(** The webview's copy of the layout places the levels with its own
    formulas. *)
Definition bandY (maxLevel level : nat) (height : Q) : Q :=
  if Nat.ltb 0 maxLevel
  then (ofNat level / ofNat maxLevel) * (height - 100) + 50
  else height / 2.

Definition nodeX (nodeCount index : nat) (width : Q) : Q :=
  if Nat.ltb 1 nodeCount
  then (ofNat index / ofNat (nodeCount - 1)) * (width - 100) + 50
  else width / 2.

Definition placeLevels (lv : list (nat * list NodeRef)) (width height : Q)
  (positions : list Position) : list Position :=
  let maxLevel := maxLevelOf lv in
  fold_left
    (fun positions entry =>
       let y := bandY maxLevel (fst entry) height in
       let nodes := snd entry in
       fold_left
         (fun positions ni =>
            let x := nodeX (List.length nodes) (fst ni) width in
            setAt (fst (snd ni)) (posXY x y) positions)
         (combine (seq 0 (List.length nodes)) nodes) positions)
    lv positions.

Definition calculateHierarchicalLayout (fns : list FunctionInfo)
  (width height : Q) : option (list Position) :=
  match hierarchicalLevels fns with
  | None => None
  | Some st =>
      Some (placeLevels (levels st) width height (initialPositions fns st))
  end.

End LayoutWebview.

(* ------------------------------------------------------------------ *)
(** ** The hierarchical layout, step by step *)

Module LayoutSteps.

Import Layout.
Local Open Scope Q_scope.

(** The nodes whose name a traversal has not yet put in [seen]: each
    recursive call of the depth search and each productive iteration of the
    chain walk removes one. *)
Definition unvisitedCount (nodes : list NodeRef) (seen : list string) : nat :=
  List.length (filter (fun nd => negb (includes seen (fi_name (snd nd)))) nodes).

(** The calls of the nodes not yet in [seen]: a bound on what the chain
    walk can still push on its stack. *)
Definition pendingCalls (nodes : list NodeRef) (seen : list string) : nat :=
  list_sum (map (fun nd => List.length (fi_calls (snd nd)))
              (filter (fun nd => negb (includes seen (fi_name (snd nd)))) nodes)).

(** The nodes of all levels, level by level. *)
Definition allLeveled (lv : list (nat * list NodeRef)) : list NodeRef :=
  flat_map snd lv.

Definition nodeName (n : NodeRef) : string := fi_name (snd n).

(** What [assignLevels] keeps: the visited names are distinct, they are the
    names of the leveled nodes, and every leveled node is displayed. *)
Definition LevelInv (toDisplay : list NodeRef) (st : LevelState) : Prop :=
  NoDup (visited st) /\
  Permutation (visited st) (map nodeName (allLeveled (levels st))) /\
  (forall n, In n (allLeveled (levels st)) -> In n toDisplay).

(** The array writes of the placement loops, in order. *)
Definition levelWrites (xf yf : nat -> nat -> Q) (lv : list (nat * list NodeRef))
  : list (nat * Position) :=
  flat_map
    (fun entry =>
       map (fun ni => (fst (snd ni),
                       posXY (xf (List.length (snd entry)) (fst ni))
                         (yf (fst entry) (fst ni))))
         (combine (seq 0 (List.length (snd entry))) (snd entry)))
    lv.

(** [positions[i] = p] for each write, in order. *)
Definition applyWrites (ws : list (nat * Position)) (positions : list Position)
  : list Position :=
  fold_left (fun ps w => setAt (fst w) (snd w) ps) ws positions.

(** Some function of the array calls [x]. *)
Definition calledBySome (nodes : list NodeRef) (x : string) : Prop :=
  exists g, In g nodes /\ In x (fi_calls (snd g)).

End LayoutSteps.

(* ------------------------------------------------------------------ *)
(** ** The zoom cutoff, file labels and merged records *)

(** The cutoff as a step function of the zoom level. *)
Definition cutoffSteps (zoomLevel : Q) : Z :=
  if Qle_bool 2.5 zoomLevel then 0%Z
  else if Qle_bool 1.8 zoomLevel then 10%Z
  else if Qle_bool 1.3 zoomLevel then 20%Z
  else if Qle_bool 1.0 zoomLevel then 30%Z
  else if Qle_bool 0.8 zoomLevel then 50%Z
  else 70%Z.

(** No character of [s] is a slash. *)
Fixpoint slash_free (s : string) : bool :=
  match s with
  | EmptyString => true
  | String a s' => negb (Ascii.eqb a "/"%char) && slash_free s'
  end.

(** The fields of a record that neither the rewriting of calls, nor the
    linking of callers, nor the scoring touches. *)
Definition details (f : FunctionNode)
  : string * Z * Z * list string * string * option string * option string :=
  (displayName f, startLine f, endLine f, params f, complexity f, fileName f,
   code f).

(** Two stores hold, under every key, records with the same name and
    details. *)
Definition sameDetails (m m' : JsMap.t FunctionNode) : Prop :=
  forall k, option_map (fun f => (name f, details f)) (JsMap.get k m) =
            option_map (fun f => (name f, details f)) (JsMap.get k m').

(* ------------------------------------------------------------------ *)
(** ** The render loops of the webview (visualizer.ts) *)

(** [v < q] for a finite constant [q]. *)
Definition ltNum (v : JsNum) (q : Q) : bool :=
  match v with
  | Num p => negb (Qle_bool q p)
  | NegInf => true
  | _ => false
  end.

Module Render.

Import Visualizer.

(** The render loops walk [functions] with the index [i] and read
    [positions[i]]: [renderVisualization] passes one position per function. *)
Definition placed (fns : list FunctionNode) (positions : list Position)
  : list (nat * (FunctionNode * Position)) :=
  combine (seq 0 (List.length fns)) (combine fns positions).

(** [visibleIndices]: [functions.indexOf(func)] of the object that the
    filter kept at index [i] is [i]. *)
Definition visibleIndices (vs : ViewState) (toShow : list string)
  (fns : list FunctionNode) (positions : list Position) : list nat :=
  map fst
    (filter
       (fun e =>
          gtNum (px (snd (snd e))) (-1000) &&
          shouldShowFunction (fst (snd e)) (scale vs) (isWorkspaceMode vs)
            (expandedFiles vs) toShow)
       (placed fns positions)).

(** [set.has(i)] on a set of indices. *)
Definition hasIndex (s : list nat) (i : nat) : bool := existsb (Nat.eqb i) s.

(** [functions.findIndex(f => f.name === calledFunc)]; [None] is -1. *)
Fixpoint findIndex (calledFunc : string) (fns : list FunctionNode) : option nat :=
  match fns with
  | [] => None
  | f :: r =>
      if String.eqb (name f) calledFunc then Some 0%nat
      else option_map S (findIndex calledFunc r)
  end.

(** [positions[i].x]. *)
Definition xAt (positions : list Position) (i : nat) : JsNum :=
  match nth_error positions i with
  | Some pos => px pos
  | None => Undefined
  end.

(** The links that [renderStandardView] appends, as (source index, target
    index), in drawing order. *)
Definition standardLinks (vs : ViewState) (fns : list FunctionNode)
  (positions : list Position) : list (nat * nat) :=
  let visible := visibleIndices vs [] fns positions in
  flat_map
    (fun e =>
       let i := fst e in
       let func := fst (snd e) in
       if negb (hasIndex visible i) || ltNum (px (snd (snd e))) (-1000) then []
       else
         flat_map
           (fun calledFunc =>
              match findIndex calledFunc fns with
              | Some targetIndex =>
                  if hasIndex visible targetIndex
                     && gtNum (xAt positions targetIndex) (-1000)
                  then [(i, targetIndex)] else []
              | None => []
              end)
           (calls func))
    (placed fns positions).

(** The indices of the nodes that [renderStandardView] appends. *)
Definition standardNodes (vs : ViewState) (fns : list FunctionNode)
  (positions : list Position) : list nat :=
  filter (fun i => negb (ltNum (xAt positions i) (-1000)))
    (visibleIndices vs [] fns positions).

(** The links that [renderDetailedView] appends. *)
Definition detailedLinks (vs : ViewState) (fns : list FunctionNode)
  (positions : list Position) : list (nat * nat) :=
  let visible := visibleIndices vs (filesToShow vs) fns positions in
  flat_map
    (fun e =>
       let i := fst e in
       let func := fst (snd e) in
       if negb (hasIndex visible i) then []
       else
         flat_map
           (fun calledFunc =>
              match findIndex calledFunc fns with
              | Some targetIndex =>
                  if hasIndex visible targetIndex
                     && gtNum (xAt positions targetIndex) (-1000)
                     && match nth_error fns targetIndex with
                        | Some targetFunc =>
                            hasFile (filesToShow vs) (fileName targetFunc)
                        | None => false
                        end
                  then [(i, targetIndex)] else []
              | None => []
              end)
           (calls func))
    (placed fns positions).

(** The indices of the nodes that [renderDetailedView] appends. *)
Definition detailedNodes (vs : ViewState) (fns : list FunctionNode)
  (positions : list Position) : list nat :=
  filter
    (fun i =>
       match nth_error fns i with
       | Some func => hasFile (filesToShow vs) (fileName func)
       | None => false
       end)
    (visibleIndices vs (filesToShow vs) fns positions).

End Render.

(* ------------------------------------------------------------------ *)
(** ** Zooming (visualizer.ts) *)

Module Zoom.

Local Open Scope Q_scope.







End Zoom.

(* ------------------------------------------------------------------ *)
(** ** Label utilities (label-utilities.ts) *)

Module Labels.

Local Open Scope list_scope.

(** A JavaScript string as the utilities see it: its UTF-16 code units.
    [length], [substring] and [split] count code units. *)
Definition JsText : Type := list N.

Definition ellipsis : N := 8230%N.
Definition underscore : N := 95%N.
Definition dot : N := 46%N.

Definition isLower (c : N) : bool := (97 <=? c)%N && (c <=? 122)%N.
Definition isUpper (c : N) : bool := (65 <=? c)%N && (c <=? 90)%N.

(** [/[a-z][A-Z]/.test(name)]. *)
Fixpoint hasCamelBoundary (s : JsText) : bool :=
  match s with
  | a :: (b :: _) as r => (isLower a && isUpper b) || hasCamelBoundary r
  | _ => false
  end.

(** [name.split(/(?=[A-Z])/)]: a cut before every capital that is not the
    first code unit. *)
Fixpoint splitBeforeUpper (s : JsText) : list JsText :=
  match s with
  | [] => [[]]
  | a :: r =>
      match r with
      | [] => [[a]]
      | b :: _ =>
          if isUpper b then [a] :: splitBeforeUpper r
          else match splitBeforeUpper r with
               | seg :: rest => (a :: seg) :: rest
               | [] => [[a]]
               end
      end
  end.

(** [s.split(c)] for a one-unit separator. *)
Fixpoint splitOn (c : N) (s : JsText) : list JsText :=
  match s with
  | [] => [[]]
  | a :: r =>
      if N.eqb a c then [] :: splitOn c r
      else match splitOn c r with
           | seg :: rest => (a :: seg) :: rest
           | [] => [[a]]
           end
  end.

(** [parts.join(sep)]. *)
Fixpoint join (sep : JsText) (parts : list JsText) : JsText :=
  match parts with
  | [] => []
  | [p] => p
  | p :: r => p ++ sep ++ join sep r
  end.

(** [s.includes(c)] for a one-unit string. *)
Definition includesUnit (s : JsText) (c : N) : bool := existsb (N.eqb c) s.

(** An index argument of [substring], clamped to the string. *)
Definition clampIndex (len : nat) (i : Z) : nat :=
  Z.to_nat (Z.max 0 (Z.min i (Z.of_nat len))).

(** [s.substring(a, b)] for integer arguments: both are clamped, and
    swapped when the first is the greater. *)
Definition substring (s : JsText) (a b : Z) : JsText :=
  let a' := clampIndex (List.length s) a in
  let b' := clampIndex (List.length s) b in
  firstn (Nat.max a' b' - Nat.min a' b') (skipn (Nat.min a' b') s).

(** [s.substring(a)]. *)
Definition substringFrom (s : JsText) (a : Z) : JsText :=
  substring s a (Z.of_nat (List.length s)).

(** The code units of an ASCII text. *)
Definition unitsOf (s : string) : JsText :=
  map N_of_ascii (list_ascii_of_string s).

Definition textLength (s : JsText) : Z := Z.of_nat (List.length s).

(** [parts[0]] and [parts[parts.length - 1]] of a split, which is never
    empty. *)
Definition firstPart (parts : list JsText) : JsText := hd [] parts.
Definition lastPart (parts : list JsText) : JsText := last parts [].

(** [smartTruncate(name, maxLength)] for an integer [maxLength]. *)
Definition smartTruncate (name : JsText) (maxLength : Z) : JsText :=
  if (textLength name <=? maxLength)%Z then name
  else
    let camel :=
      if hasCamelBoundary name then
        let parts := splitBeforeUpper name in
        if Nat.ltb 1 (List.length parts) then
          let first := firstPart parts in
          let last := lastPart parts in
          if (textLength first + textLength last + 2 <=? maxLength)%Z
          then Some (first ++ [ellipsis] ++ last) else None
        else None
      else None in
    match camel with
    | Some label => label
    | None =>
        let snake :=
          if includesUnit name underscore then
            let parts := splitOn underscore name in
            if Nat.ltb 1 (List.length parts) then
              let first := firstPart parts in
              let last := lastPart parts in
              if (textLength first + textLength last + 3 <=? maxLength)%Z
              then Some (first ++ [underscore; ellipsis; underscore] ++ last)
              else None
            else None
          else None in
        match snake with
        | Some label => label
        | None =>
            let halfLen := ((maxLength - 1) / 2)%Z in
            substring name 0 halfLen ++ [ellipsis]
            ++ substringFrom name (textLength name - halfLen)
        end
    end.

(** [truncateFileName(fileName, maxLength)] for an integer [maxLength]. *)
Definition truncateFileName (fileName : JsText) (maxLength : Z) : JsText :=
  if (textLength fileName <=? maxLength)%Z then fileName
  else
    let parts := splitOn dot fileName in
    let withExtension :=
      if Nat.ltb 1 (List.length parts) then
        let ext := lastPart parts in
        let name := join [dot] (removelast parts) in
        if (textLength ext <? 6)%Z && (15 <? textLength name)%Z then
          let truncatedName :=
            substring name 0 (maxLength - textLength ext - 4) in
          Some (truncatedName ++ [dot; dot; dot] ++ ext)
        else None
      else None in
    match withExtension with
    | Some label => label
    | None => substring fileName 0 (maxLength - 3) ++ [dot; dot; dot]
    end.

End Labels.

(** The chain A -> B -> C and the isolated D, as one array. *)
Definition chainWithIsolated : list Layout.FunctionInfo :=
  [chainA; chainB; chainC; isolatedD].

(** A function of a.ts that calls [helperOfA]. *)
Definition mainOfA : FunctionNode :=
  mkFunctionNode "main::a.ts" "main" 0 1 ["helper::a.ts"] [] [] ""
    (Some "/ws/a.ts") None (Some 90%Z).

(** The parameter list [(a, b)] of a JavaScript function. *)
Definition twoParameters : SyntaxNode :=
  mkNode "formal_parameters" "(a, b)" 0 0
    [ (None, mkNode "identifier" "a" 0 0 []);
      (None, mkNode "identifier" "b" 0 0 []) ].

(* ================================================================== *)
(** * Properties *)

Local Open Scope list_scope.

(* ------------------------------------------------------------------ *)
(** ** Arrays of strings *)

Lemma includes_In (l : list string) (x : string) :
  includes l x = true <-> In x l.
Proof.
  unfold includes. rewrite existsb_exists. split.
  - intros [y [Hy Heq]]. apply String.eqb_eq in Heq. now subst.
  - intros H. exists x. split; [assumption | apply String.eqb_refl].
Qed.

Lemma includes_not_In (l : list string) (x : string) :
  includes l x = false <-> ~ In x l.
Proof.
  rewrite <- includes_In. destruct (includes l x); split; congruence.
Qed.

Lemma fold_left_flat_map {A B S : Type} (f : S -> B -> S) (g : A -> list B)
  (l : list A) (s : S) :
  fold_left f (flat_map g l) s =
  fold_left (fun s a => fold_left f (g a) s) l s.
Proof.
  revert s. induction l as [|a l IH]; intros s; simpl; [reflexivity|].
  now rewrite fold_left_app, IH.
Qed.

Lemma fold_left_map {A B S : Type} (f : S -> B -> S) (g : A -> B)
  (l : list A) (s : S) :
  fold_left f (map g l) s = fold_left (fun s a => f s (g a)) l s.
Proof.
  revert s. induction l as [|a l IH]; intros s; simpl; [reflexivity|].
  apply IH.
Qed.

Lemma fold_left_ext_in {A S : Type} (f g : S -> A -> S) (l : list A) (s : S) :
  (forall s a, In a l -> f s a = g s a) ->
  fold_left f l s = fold_left g l s.
Proof.
  revert s. induction l as [|a l IH]; intros s H; simpl; [reflexivity|].
  rewrite H by (now left). apply IH. intros; apply H; now right.
Qed.

(* ------------------------------------------------------------------ *)
(** ** Maps *)

Module JsMapFacts.
Import JsMap.

Section Facts.
Context {V : Type}.
Implicit Types (m : t V) (k : string) (v : V).

Lemma get_In_key m k v : get k m = Some v -> In k (keys m).
Proof.
  induction m as [|[k' v'] m IH]; simpl; [discriminate|].
  destruct (String.eqb k' k) eqn:E.
  - apply String.eqb_eq in E. now left.
  - intros H. right. now apply IH.
Qed.

Lemma get_In m k v : get k m = Some v -> In (k, v) m.
Proof.
  induction m as [|[k' v'] m IH]; simpl; [discriminate|].
  destruct (String.eqb k' k) eqn:E.
  - apply String.eqb_eq in E. intros [= ->]. subst. now left.
  - intros H. right. now apply IH.
Qed.

Lemma In_get m k v : wf m -> In (k, v) m -> get k m = Some v.
Proof.
  unfold wf. induction m as [|[k' v'] m IH]; simpl; [contradiction|].
  intros Hnd [Heq | Hin].
  - injection Heq as -> ->. now rewrite String.eqb_refl.
  - inversion Hnd as [|? ? Hk Hnd']; subst.
    destruct (String.eqb k' k) eqn:E.
    + apply String.eqb_eq in E. subst. exfalso. apply Hk.
      change k with (fst (k, v)). now apply in_map.
    + now apply IH.
Qed.

Lemma get_None m k : get k m = None <-> ~ In k (keys m).
Proof.
  induction m as [|[k' v'] m IH]; simpl.
  - split; [intros _ [] | reflexivity].
  - destruct (String.eqb k' k) eqn:E.
    + apply String.eqb_eq in E. split; [discriminate | intros H; exfalso; apply H; now left].
    + apply String.eqb_neq in E. rewrite IH. split.
      * intros H [H1 | H1]; [now apply E | now apply H].
      * intros H H1. apply H. now right.
Qed.

Lemma In_key_get m k : In k (keys m) -> exists v, get k m = Some v.
Proof.
  intros H. destruct (get k m) as [v|] eqn:E; [now exists v|].
  apply get_None in E. contradiction.
Qed.

Lemma has_In m k : has k m = true <-> In k (keys m).
Proof.
  unfold has. split.
  - destruct (get k m) eqn:E; [intros _; eapply get_In_key; eassumption | discriminate].
  - intros H. apply In_key_get in H as [v ->]. reflexivity.
Qed.

Lemma has_includes m k : has k m = includes (keys m) k.
Proof.
  destruct (includes (keys m) k) eqn:E.
  - apply has_In. now apply includes_In.
  - apply includes_not_In in E. rewrite <- has_In in E.
    now destruct (has k m).
Qed.

Lemma get_set_eq m k v : get k (set k v m) = Some v.
Proof.
  induction m as [|[k' v'] m IH]; simpl.
  - now rewrite String.eqb_refl.
  - destruct (String.eqb k' k) eqn:E; simpl; rewrite E; [reflexivity | exact IH].
Qed.

Lemma get_set_neq m k k' v : k <> k' -> get k' (set k v m) = get k' m.
Proof.
  intros Hne. induction m as [|[k0 v0] m IH]; simpl.
  - apply String.eqb_neq in Hne. now rewrite Hne.
  - destruct (String.eqb k0 k) eqn:E; simpl.
    + apply String.eqb_eq in E. subst k0.
      apply String.eqb_neq in Hne. now rewrite Hne.
    + destruct (String.eqb k0 k'); [reflexivity | exact IH].
Qed.

Lemma keys_set_present m k v : In k (keys m) -> keys (set k v m) = keys m.
Proof.
  induction m as [|[k' v'] m IH]; simpl; [contradiction|].
  destruct (String.eqb k' k) eqn:E; simpl; [reflexivity|].
  intros [H | H].
  - subst. now rewrite String.eqb_refl in E.
  - f_equal. now apply IH.
Qed.

Lemma keys_set_absent m k v : ~ In k (keys m) -> keys (set k v m) = keys m ++ [k].
Proof.
  induction m as [|[k' v'] m IH]; simpl; [reflexivity|].
  intros H. destruct (String.eqb k' k) eqn:E; simpl.
  - apply String.eqb_eq in E. exfalso. apply H. now left.
  - f_equal. apply IH. intros H1. apply H. now right.
Qed.

Lemma wf_set m k v : wf m -> wf (set k v m).
Proof.
  unfold wf. intros H.
  destruct (in_dec string_dec k (keys m)) as [Hin | Hout].
  - now rewrite keys_set_present.
  - rewrite keys_set_absent by assumption.
    apply NoDup_app; [assumption | repeat constructor; intros [] | ].
    intros a Ha [<- | []]. contradiction.
Qed.

Lemma In_set m k v e : In e (set k v m) -> e = (k, v) \/ In e m.
Proof.
  induction m as [|[k' v'] m IH]; simpl.
  - intros [<- | []]. now left.
  - destruct (String.eqb k' k) eqn:E; simpl.
    + apply String.eqb_eq in E. subst. intros [<- | H]; [now left | right; now right].
    + intros [<- | H]; [right; now left|].
      destruct (IH H) as [-> | H']; [now left | right; now right].
Qed.

End Facts.

(** Reading a map whose values were transformed, the keys being kept. *)
Lemma get_map {V W : Type} (g : string * V -> string * W) (m : t V) k :
  (forall e, fst (g e) = fst e) ->
  get k (map g m) = option_map (fun v => snd (g (k, v))) (get k m).
Proof.
  intros Hg. induction m as [|[k' v'] m IH]; simpl; [reflexivity|].
  specialize (Hg (k', v')). destruct (g (k', v')) as [k1 w1] eqn:Eg.
  simpl in Hg. subst k1. destruct (String.eqb k' k) eqn:E.
  - apply String.eqb_eq in E. subst. simpl. now rewrite Eg.
  - exact IH.
Qed.

Lemma keys_map {V W : Type} (g : string * V -> string * W) (m : t V) :
  (forall e, fst (g e) = fst e) -> keys (map g m) = keys m.
Proof.
  intros Hg. unfold keys. rewrite map_map. apply map_ext. exact Hg.
Qed.

End JsMapFacts.

(* ------------------------------------------------------------------ *)
(** ** The significance scorer *)

Section Scorer.

Local Open Scope Z_scope.

Lemma len_nonneg {A : Type} (l : list A) : 0 <= len l.
Proof. unfold len. lia. Qed.

Lemma len_nil_iff {A : Type} (l : list A) : len l = 0 <-> l = [].
Proof.
  unfold len. destruct l; simpl; split; intros H; try reflexivity; try discriminate; lia.
Qed.

(** With pairwise distinct names, the callee that [find] returns is the
    only function of that name. *)
Lemma calleeAlsoCalled_exists (fns : list FunctionNode) (c : string) :
  NoDup (map name fns) ->
  calleeAlsoCalled fns c =
  existsb (fun g => String.eqb (name g) c &&
                    negb (Nat.eqb (List.length (calledBy g)) 0)) fns.
Proof.
  unfold calleeAlsoCalled.
  induction fns as [|g fns IH]; simpl; intros Hnd; [reflexivity|].
  inversion Hnd as [|? ? Hout Hnd']; subst.
  destruct (String.eqb (name g) c) eqn:E; simpl.
  - apply String.eqb_eq in E.
    assert (Hrest : existsb (fun g0 => String.eqb (name g0) c &&
                     negb (Nat.eqb (List.length (calledBy g0)) 0)) fns = false).
    { apply not_true_is_false. intros H. apply existsb_exists in H.
      destruct H as [h [Hh Hc]]. apply andb_prop in Hc as [Hc _].
      apply String.eqb_eq in Hc. apply Hout. rewrite E, <- Hc.
      now apply in_map. }
    rewrite Hrest, orb_false_r. unfold len.
    destruct (calledBy g); reflexivity.
  - now apply IH.
Qed.

Lemma scoreOf_spec (fns : list FunctionNode) (exps : list string)
  (func : FunctionNode) :
  NoDup (map name fns) ->
  scoreOf fns exps func = specSignificance fns exps func.
Proof.
  intros Hnd. unfold scoreOf, specSignificance, specBaseScore, calleesWithCaller, clamp.
  rewrite (filter_ext _ _ (fun c => calleeAlsoCalled_exists fns c Hnd)).
  set (k := len (filter _ (calls func))).
  pose proof (len_nonneg (calledBy func)) as Hn.
  pose proof (len_nonneg (calls func)) as Hc.
  set (n := len (calledBy func)) in *. set (c := len (calls func)) in *.
  destruct (includes exps (name func));
    destruct (Z.eqb_spec n 0); destruct (Z.ltb_spec 0 n);
    destruct (Z.ltb_spec 3 c); destruct (Z.ltb_spec 3 n);
    destruct (Z.ltb_spec 0 c); destruct (Z.ltb_spec 2 k);
    cbv beta iota zeta delta [andb]; lia.
Qed.

(** A function without callers scores at least 90. *)
Lemma scoreOf_entry_point fns exps func :
  calledBy func = [] -> 90 <= scoreOf fns exps func.
Proof.
  intros H. unfold scoreOf. rewrite H.
  change (len (@nil string)) with 0. rewrite andb_false_r.
  change (0 =? 0) with true. change (0 <? 0) with false.
  change (3 <? 0) with false. cbv beta iota zeta.
  pose proof (len_nonneg (calls func)).
  destruct (3 <? len (calls func)); destruct (includes exps (name func)); lia.
Qed.

(** A function with exactly one caller scores at most 88. *)
Lemma scoreOf_one_caller fns exps func :
  List.length (calledBy func) = 1%nat -> scoreOf fns exps func <= 88.
Proof.
  intros H. assert (Hn : len (calledBy func) = 1) by (unfold len; now rewrite H).
  unfold scoreOf. rewrite Hn.
  change (1 =? 0) with false. change (0 <? 1) with true.
  change (3 <? 1) with false. rewrite andb_true_r. cbv beta iota zeta.
  pose proof (len_nonneg (calls func)).
  destruct (3 <? len (calls func)); destruct (0 <? len (calls func));
    try destruct (2 <? _); destruct (includes exps (name func)); lia.
Qed.

End Scorer.

(** Scoring rewrites the significance of every record and nothing else. *)
Lemma calculateSignificance_functions (a : CodeAnalysis) :
  functions (calculateSignificance a) =
  map (fun e => (fst e,
                 with_significance (snd e)
                   (scoreOf (JsMap.values (functions a)) (exports a) (snd e))))
    (functions a).
Proof.
  unfold calculateSignificance.
  destruct (functions a) as [|e m] eqn:E; simpl; [now rewrite E | reflexivity].
Qed.

Lemma calculateSignificance_exports (a : CodeAnalysis) :
  exports (calculateSignificance a) = exports a.
Proof.
  unfold calculateSignificance.
  destruct (Nat.eqb _ 0); reflexivity.
Qed.

Lemma calculateSignificance_get (a : CodeAnalysis) (k : string) :
  JsMap.get k (functions (calculateSignificance a)) =
  option_map
    (fun f => with_significance f
                (scoreOf (JsMap.values (functions a)) (exports a) f))
    (JsMap.get k (functions a)).
Proof.
  rewrite calculateSignificance_functions.
  now rewrite JsMapFacts.get_map by reflexivity.
Qed.

(* ------------------------------------------------------------------ *)
(** ** Linking callers *)

Lemma modify_first_map {A : Type} (sel : A -> string) (g : A -> A)
  (c : string) (l : list A) :
  NoDup (map sel l) ->
  modify_first (fun e => String.eqb (sel e) c) g l =
  map (fun e => if String.eqb (sel e) c then g e else e) l.
Proof.
  induction l as [|x l IH]; simpl; intros Hnd; [reflexivity|].
  inversion Hnd as [|? ? Hout Hnd']; subst.
  destruct (String.eqb (sel x) c) eqn:E.
  - f_equal. apply String.eqb_eq in E.
    rewrite <- (map_id l) at 1. apply map_ext_in. intros y Hy.
    destruct (String.eqb (sel y) c) eqn:Ey; [|reflexivity].
    apply String.eqb_eq in Ey. exfalso. apply Hout. rewrite E, <- Ey.
    now apply in_map.
  - f_equal. now apply IH.
Qed.

Lemma with_calledBy_same (f : FunctionNode) : with_calledBy f (calledBy f) = f.
Proof. now destruct f. Qed.

Lemma addCaller_shape (a : string) (f : FunctionNode) :
  addCaller a f = with_calledBy f (pushAll (calledBy f) [a]).
Proof.
  unfold addCaller, pushAll. simpl.
  destruct (includes (calledBy f) a); [now rewrite with_calledBy_same | reflexivity].
Qed.

Lemma pushAll_app (cb l1 l2 : list string) :
  pushAll cb (l1 ++ l2) = pushAll (pushAll cb l1) l2.
Proof. unfold pushAll. apply fold_left_app. Qed.

(** Pushing the same caller any number of times adds it once. *)
Lemma pushAll_same (cb l : list string) (a : string) :
  (forall y, In y l -> y = a) -> ~ In a cb ->
  pushAll cb l = match l with [] => cb | _ :: _ => cb ++ [a] end.
Proof.
  intros Hall Hout. destruct l as [|y l]; [reflexivity|].
  assert (y = a) by (apply Hall; now left). subst y.
  unfold pushAll. simpl.
  apply includes_not_In in Hout. rewrite Hout.
  assert (Hall' : forall y, In y l -> y = a) by (intros; apply Hall; now right).
  clear Hall Hout. induction l as [|y l IH]; simpl; [reflexivity|].
  assert (y = a) by (apply Hall'; now left). subst y.
  assert (Hin : includes (cb ++ [a]) a = true).
  { apply includes_In. apply in_or_app. right. now left. }
  rewrite Hin. apply IH. intros; apply Hall'; now right.
Qed.

Section Linking.

Variable sel : string * FunctionNode -> string.
Hypothesis sel_with_calledBy :
  forall k f cb, sel (k, with_calledBy f cb) = sel (k, f).

Lemma linkWith_bump (a c : string) (st : JsMap.t FunctionNode) :
  NoDup (map sel st) -> linkWith sel a c st = map (bump sel (a, c)) st.
Proof. intros H. unfold linkWith. now rewrite modify_first_map. Qed.

Lemma fst_bump p e : fst (bump sel p e) = fst e.
Proof. unfold bump. now destruct (String.eqb (sel e) (snd p)). Qed.

Lemma sel_bump p e : sel (bump sel p e) = sel e.
Proof.
  unfold bump. destruct (String.eqb (sel e) (snd p)); [|reflexivity].
  rewrite addCaller_shape, sel_with_calledBy. now destruct e.
Qed.

Lemma bumps_app ps qs e : bumps sel (ps ++ qs) e = bumps sel qs (bumps sel ps e).
Proof. unfold bumps. apply fold_left_app. Qed.

Lemma fst_bumps ps e : fst (bumps sel ps e) = fst e.
Proof.
  revert e. induction ps as [|p ps IH]; intros e; simpl; [reflexivity|].
  unfold bumps in *. simpl. now rewrite IH, fst_bump.
Qed.

Lemma sel_bumps ps e : sel (bumps sel ps e) = sel e.
Proof.
  revert e. induction ps as [|p ps IH]; intros e; simpl; [reflexivity|].
  unfold bumps in *. simpl. now rewrite IH, sel_bump.
Qed.

(** A run of links changes nothing but the callers of an entry, and those
    by the guarded pushes of the callers that name it. *)
Lemma bumps_shape ps e :
  bumps sel ps e =
  (fst e,
   with_calledBy (snd e)
     (pushAll (calledBy (snd e))
        (map fst (filter (fun p => String.eqb (sel e) (snd p)) ps)))).
Proof.
  revert e. induction ps as [|p ps IH]; intros [k f].
  - simpl. unfold pushAll. simpl. now rewrite with_calledBy_same.
  - change (bumps sel (p :: ps) (k, f)) with (bumps sel ps (bump sel p (k, f))).
    rewrite IH, sel_bump, fst_bump. cbn [filter fst snd].
    unfold bump. destruct (String.eqb (sel (k, f)) (snd p)) eqn:E.
    + cbn [fst snd map]. rewrite addCaller_shape.
      change (fst p :: ?l) with ([fst p] ++ l).
      rewrite pushAll_app. reflexivity.
    + reflexivity.
Qed.

Lemma linkWith_run ps (st : JsMap.t FunctionNode) :
  NoDup (map sel st) ->
  fold_left (fun st p => linkWith sel (fst p) (snd p) st) ps st =
  map (bumps sel ps) st.
Proof.
  revert st. induction ps as [|[a c] ps IH]; intros st Hnd.
  - simpl. now rewrite map_id.
  - simpl. rewrite linkWith_bump by assumption. rewrite IH.
    + rewrite map_map. reflexivity.
    + rewrite map_map. erewrite map_ext; [exact Hnd|]. intros e. apply sel_bump.
Qed.

(** The callers pushed on the entry named [b] by the loops over [xs]. *)
Lemma pushAll_pairs (xs : JsMap.t FunctionNode) (b : string) (cb : list string) :
  NoDup (map sel xs) ->
  (forall x, In x xs -> ~ In (sel x) cb) ->
  pushAll cb (map fst (filter (fun p => String.eqb b (snd p)) (pairsBy sel xs)))
  = cb ++ callersBy sel xs b.
Proof.
  revert cb. induction xs as [|x xs IH]; intros cb Hnd Hout.
  - simpl. unfold pushAll, callersBy. simpl. now rewrite app_nil_r.
  - inversion Hnd as [|? ? Hx Hnd']; subst.
    unfold pairsBy. cbn [flat_map]. fold (pairsBy sel xs).
    rewrite filter_app, map_app, pushAll_app.
    set (l1 := map fst (filter _ (map (pair (sel x)) (calls (snd x))))).
    assert (Hl1 : forall y, In y l1 -> y = sel x).
    { intros y Hy. unfold l1 in Hy. apply in_map_iff in Hy as [p [<- Hp]].
      apply filter_In in Hp as [Hp _]. apply in_map_iff in Hp as [c [<- _]].
      reflexivity. }
    assert (Hne : l1 <> [] <-> includes (calls (snd x)) b = true).
    { unfold l1. rewrite includes_In. split.
      - intros H.
        destruct (filter (fun p => String.eqb b (snd p))
                    (map (pair (sel x)) (calls (snd x)))) as [|p l] eqn:E;
          [exfalso; apply H; reflexivity|].
        assert (Hp : In p (p :: l)) by now left.
        rewrite <- E in Hp. apply filter_In in Hp as [Hp Hb].
        apply in_map_iff in Hp as [c [<- Hc]]. simpl in Hb.
        apply String.eqb_eq in Hb. now subst.
      - intros H E.
        assert (Hp : In (sel x, b) (filter (fun p => String.eqb b (snd p))
                      (map (pair (sel x)) (calls (snd x))))).
        { apply filter_In. split; [now apply in_map | apply String.eqb_refl]. }
        destruct (filter (fun p => String.eqb b (snd p))
                    (map (pair (sel x)) (calls (snd x))));
          [contradiction | discriminate]. }
    rewrite (pushAll_same cb l1 (sel x) Hl1) by (apply Hout; now left).
    unfold callersBy. cbn [filter]. fold (callersBy sel xs b).
    destruct (includes (calls (snd x)) b) eqn:Einc.
    + destruct l1 as [|y l1']; [exfalso; now apply Hne|].
      rewrite IH; [cbn [map]; now rewrite <- app_assoc | assumption |].
      intros z Hz Hin. apply in_app_or in Hin as [Hin | [Heq | []]].
      * apply (Hout z); [now right | assumption].
      * apply Hx. rewrite Heq. now apply in_map.
    + destruct l1 as [|y l1'].
      * apply IH; [assumption|]. intros z Hz. apply Hout. now right.
      * assert (Habs : false = true) by (now apply Hne).
        discriminate.
Qed.

(** The two nested loops, run on a store whose callers are all empty. *)
Lemma linkWith_all (m : JsMap.t FunctionNode) :
  NoDup (map sel m) ->
  (forall e, In e m -> calledBy (snd e) = []) ->
  fold_left (fun st p => linkWith sel (fst p) (snd p) st) (pairsBy sel m) m =
  linked sel m.
Proof.
  intros Hnd Hempty. rewrite linkWith_run by assumption.
  unfold linked. apply map_ext_in. intros e He.
  rewrite bumps_shape. f_equal. f_equal.
  rewrite (Hempty e He).
  rewrite (pushAll_pairs m (sel e) []); [reflexivity | assumption |].
  intros x _ [].
Qed.

End Linking.

(* ------------------------------------------------------------------ *)
(** ** Resolved graphs *)

(** Distinct keys give distinct callers. *)
Lemma callersFromCalls_NoDup (m : JsMap.t FunctionNode) (b : string) :
  JsMap.wf m -> NoDup (callersFromCalls m b).
Proof.
  unfold JsMap.wf, JsMap.keys, callersFromCalls.
  induction m as [|[k f] m IH]; intros Hwf; cbn [map filter snd];
    [constructor|].
  inversion Hwf as [|? ? Hfresh Hrest]; subst.
  destruct (includes (calls f) b); [|now apply IH].
  cbn [map fst]. constructor; [|now apply IH].
  rewrite in_map_iff. intros [[k' f'] [Hk Hin]]. cbn [fst] in Hk. subst k'.
  apply filter_In in Hin as [Hin _]. apply Hfresh.
  change k with (fst (k, f')). now apply in_map.
Qed.

Lemma callersFromCalls_map (g : string * FunctionNode -> string * FunctionNode)
  (m : JsMap.t FunctionNode) (b : string) :
  (forall e, fst (g e) = fst e) ->
  (forall e, calls (snd (g e)) = calls (snd e)) ->
  callersFromCalls (map g m) b = callersFromCalls m b.
Proof.
  intros Hfst Hcalls. unfold callersFromCalls.
  induction m as [|e m IH]; simpl; [reflexivity|].
  rewrite Hcalls. destruct (includes (calls (snd e)) b); simpl; now rewrite ?Hfst, IH.
Qed.

Lemma In_callersFromCalls (m : JsMap.t FunctionNode) (a b : string) :
  In a (callersFromCalls m b) <->
  exists f, In (a, f) m /\ In b (calls f).
Proof.
  unfold callersFromCalls. rewrite in_map_iff. split.
  - intros [[k f] [<- Hin]]. apply filter_In in Hin as [Hin Hb].
    exists f. split; [assumption | now apply includes_In].
  - intros [f [Hin Hb]]. exists (a, f). split; [reflexivity|].
    apply filter_In. split; [assumption | now apply includes_In].
Qed.

Lemma linked_get (m : JsMap.t FunctionNode) (k : string) :
  JsMap.get k (linked fst m) =
  option_map (fun f => with_calledBy f (callersFromCalls m k)) (JsMap.get k m).
Proof. unfold linked. now rewrite JsMapFacts.get_map by reflexivity. Qed.

(** Linking a self-named store with distinct keys gives a resolved graph. *)
Lemma resolvedGraph_linked (m : JsMap.t FunctionNode) :
  JsMap.wf m -> selfNamed m -> resolvedGraph (linked fst m).
Proof.
  intros Hwf Hself kb B HB.
  rewrite linked_get in HB.
  destruct (JsMap.get kb m) as [B0|] eqn:EB; [|discriminate].
  injection HB as <-.
  assert (HnB : name B0 = kb) by (apply (Hself (kb, B0)); now apply JsMapFacts.get_In).
  split; [exact HnB|]. split.
  { unfold linked. now rewrite callersFromCalls_map by reflexivity. }
  split.
  { simpl. now apply callersFromCalls_NoDup. }
  intros ka A HA. rewrite linked_get in HA.
  destruct (JsMap.get ka m) as [A0|] eqn:EA; [|discriminate].
  injection HA as <-.
  assert (HnA : name A0 = ka) by (apply (Hself (ka, A0)); now apply JsMapFacts.get_In).
  cbn [name calledBy calls with_calledBy]. rewrite HnA, HnB, In_callersFromCalls.
  split.
  - intros [f [Hin Hb]].
    apply (JsMapFacts.In_get _ _ _ Hwf) in Hin. congruence.
  - intros Hb. exists A0. split; [now apply JsMapFacts.get_In | assumption].
Qed.

(** A pass that keeps keys, names, calls and callers keeps a graph resolved. *)
Lemma resolvedGraph_map (g : string * FunctionNode -> string * FunctionNode)
  (m : JsMap.t FunctionNode) :
  (forall e, fst (g e) = fst e) ->
  (forall e, name (snd (g e)) = name (snd e)) ->
  (forall e, calls (snd (g e)) = calls (snd e)) ->
  (forall e, calledBy (snd (g e)) = calledBy (snd e)) ->
  resolvedGraph m -> resolvedGraph (map g m).
Proof.
  intros Hfst Hname Hcalls Hcb Hres kb B HB.
  rewrite JsMapFacts.get_map in HB by assumption.
  destruct (JsMap.get kb m) as [B0|] eqn:EB; [|discriminate].
  injection HB as <-.
  destruct (Hres kb B0 EB) as (Hn & Hc & Hnd & Hiff).
  rewrite Hname, Hcb, callersFromCalls_map by assumption.
  repeat split; try assumption.
  - intros Hin. rewrite JsMapFacts.get_map in H by assumption.
    destruct (JsMap.get ka m) as [A0|] eqn:EA; [|discriminate].
    injection H as <-. rewrite Hname in Hin. rewrite Hcalls.
    now apply (Hiff ka A0 EA).
  - intros Hin. rewrite JsMapFacts.get_map in H by assumption.
    destruct (JsMap.get ka m) as [A0|] eqn:EA; [|discriminate].
    injection H as <-. rewrite Hcalls in Hin. rewrite Hname.
    now apply (Hiff ka A0 EA).
Qed.

Lemma resolvedGraph_scored (a : CodeAnalysis) :
  resolvedGraph (functions a) ->
  resolvedGraph (functions (calculateSignificance a)).
Proof.
  intros H. rewrite calculateSignificance_functions.
  now apply resolvedGraph_map.
Qed.

(** *** One file *)

Lemma freshStore_processed (units : list ParsedUnit) (a : CodeAnalysis) :
  freshStore (functions a) ->
  freshStore (functions (fold_left processFunction units a)).
Proof.
  revert a. induction units as [|u units IH]; intros a H; [exact H|].
  simpl. apply IH. destruct H as (Hwf & Hself & Hcb).
  unfold processFunction. cbn [functions with_functions].
  split; [now apply JsMapFacts.wf_set|].
  split; intros e He; apply JsMapFacts.In_set in He as [-> | He];
    try reflexivity; [now apply Hself | now apply Hcb].
Qed.

Lemma buildCalledByRelationships_functions (a : CodeAnalysis) :
  freshStore (functions a) ->
  functions (buildCalledByRelationships a) = linked fst (functions a).
Proof.
  intros (Hwf & Hself & Hcb).
  unfold buildCalledByRelationships. cbn [functions with_functions].
  unfold JsMap.values. rewrite fold_left_map.
  assert (Hsel : map (fun e : string * FunctionNode => name (snd e)) (functions a)
                 = map fst (functions a)).
  { apply map_ext_in. exact Hself. }
  transitivity (fold_left
      (fun st p => linkWith (fun e => name (snd e)) (fst p) (snd p) st)
      (pairsBy (fun e => name (snd e)) (functions a)) (functions a)).
  - unfold pairsBy. rewrite fold_left_flat_map.
    apply fold_left_ext_in. intros st e _. now rewrite fold_left_map.
  - rewrite linkWith_all.
    + unfold linked, callersBy. apply map_ext_in. intros e He.
      rewrite (Hself e He). f_equal. f_equal.
      apply map_ext_in. intros x Hx. apply filter_In in Hx as [Hx _].
      now apply Hself.
    + reflexivity.
    + rewrite Hsel. exact Hwf.
    + exact Hcb.
Qed.

Lemma resolvedGraph_analyzeDocument file language units imps exps :
  resolvedGraph (functions (analyzeDocument file language units imps exps)).
Proof.
  unfold analyzeDocument. apply resolvedGraph_scored.
  assert (Hfresh : freshStore (functions
            (fold_left processFunction units
               (mkCodeAnalysis file language JsMap.empty imps exps)))).
  { apply freshStore_processed. simpl. repeat split.
    - constructor.
    - intros e [].
    - intros e []. }
  rewrite buildCalledByRelationships_functions by exact Hfresh.
  destruct Hfresh as (Hwf & Hself & _).
  now apply resolvedGraph_linked.
Qed.

(** *** The merged workspace *)

Lemma linkByKey_linkWith (a c : string) (m : JsMap.t FunctionNode) :
  linkByKey a c m = linkWith fst a c m.
Proof.
  unfold linkByKey, linkWith.
  induction m as [|[k v] m IH]; simpl; [reflexivity|].
  destruct (String.eqb k c) eqn:E.
  - unfold addCaller. destruct (includes (calledBy v) a); simpl;
      rewrite ?E; reflexivity.
  - rewrite <- IH. destruct (JsMap.get c m) as [cf|]; [|reflexivity].
    destruct (includes (calledBy cf) a); simpl; rewrite ?E; reflexivity.
Qed.

Lemma calls_bumps sel ps e :
  (forall k f cb, sel (k, with_calledBy f cb) = sel (k, f)) ->
  calls (snd (bumps sel ps e)) = calls (snd e).
Proof. intros H. now rewrite bumps_shape. Qed.

Lemma mergeLink_run (m : JsMap.t FunctionNode) :
  JsMap.wf m -> mergeLink m = map (bumps fst (pairsBy fst m)) m.
Proof.
  intros Hwf. unfold mergeLink, JsMap.keys.
  assert (Hgen : forall l ps, (forall e, In e l -> In e m) ->
    fold_left
      (fun st funcKey =>
         match JsMap.get funcKey st with
         | Some func =>
             fold_left (fun st calledKey => linkByKey funcKey calledKey st)
               (calls func) st
         | None => st
         end)
      (map fst l) (map (bumps fst ps) m)
    = map (bumps fst (ps ++ pairsBy fst l)) m).
  { induction l as [|[k v] l IH]; intros ps Hl.
    - simpl. now rewrite app_nil_r.
    - cbn [map fold_left fst].
      rewrite JsMapFacts.get_map by (intros; now apply fst_bumps).
      rewrite (JsMapFacts.In_get m k v Hwf) by (apply Hl; now left).
      cbn [option_map]. rewrite calls_bumps by reflexivity. cbn [snd].
      rewrite (fold_left_ext_in (fun st c => linkByKey k c st)
                 (fun st c => linkWith fst (fst (k, c)) (snd (k, c)) st))
        by (intros; apply linkByKey_linkWith).
      rewrite <- (fold_left_map
                    (fun st p => linkWith fst (fst p) (snd p) st) (pair k)).
      rewrite linkWith_run; [| reflexivity |].
      + rewrite map_map.
        rewrite (map_ext _ (bumps fst (ps ++ map (pair k) (calls v))))
          by (intros; now rewrite bumps_app).
        rewrite IH by (intros; apply Hl; now right).
        unfold pairsBy. cbn [flat_map fst snd]. now rewrite app_assoc.
      + rewrite map_map.
        rewrite (map_ext _ fst) by (intros; now apply fst_bumps).
        exact Hwf. }
  specialize (Hgen m [] (fun e H => H)).
  unfold bumps at 1 in Hgen. simpl in Hgen. rewrite map_id in Hgen.
  exact Hgen.
Qed.

Lemma mergeLink_linked (m : JsMap.t FunctionNode) :
  JsMap.wf m -> (forall e, In e m -> calledBy (snd e) = []) ->
  mergeLink m = linked fst m.
Proof.
  intros Hwf Hcb. rewrite mergeLink_run by assumption.
  rewrite <- linkWith_run by (reflexivity || exact Hwf).
  now apply linkWith_all.
Qed.

Lemma mergeInsert_functions (analyses : list CodeAnalysis) (merged : CodeAnalysis) :
  functions (fold_left mergeInsert analyses merged) =
  fold_left insertStep (mergeEntries analyses) (functions merged).
Proof.
  revert merged. induction analyses as [|a analyses IH]; intros merged;
    [reflexivity|].
  cbn [fold_left mergeEntries flat_map]. rewrite fold_left_app, IH.
  f_equal. unfold mergeInsert. cbn [functions].
  now rewrite fold_left_map.
Qed.

Lemma mergeInsert_exports (analyses : list CodeAnalysis) (merged : CodeAnalysis) :
  exports (fold_left mergeInsert analyses merged) =
  exports merged ++ flat_map exports analyses.
Proof.
  revert merged. induction analyses as [|a analyses IH]; intros merged.
  - simpl. now rewrite app_nil_r.
  - cbn [fold_left flat_map]. rewrite IH. unfold mergeInsert. cbn [exports].
    now rewrite app_assoc.
Qed.

Lemma mergeRewrite_steps (analyses : list CodeAnalysis) (m : JsMap.t FunctionNode) :
  fold_left mergeRewrite analyses m =
  fold_left rewriteStep (mergeEntries analyses) m.
Proof.
  revert m. induction analyses as [|a analyses IH]; intros m; [reflexivity|].
  cbn [fold_left mergeEntries flat_map]. rewrite fold_left_app, IH.
  f_equal. unfold mergeRewrite. now rewrite fold_left_map.
Qed.

(** **** First loop *)

Lemma insertStep_wf m x : JsMap.wf m -> JsMap.wf (insertStep m x).
Proof. intros H. now apply JsMapFacts.wf_set. Qed.

Lemma insertSteps_wf xs m :
  JsMap.wf m -> JsMap.wf (fold_left insertStep xs m).
Proof.
  revert m. induction xs as [|x xs IH]; intros m H; [exact H|].
  simpl. apply IH. now apply insertStep_wf.
Qed.

Lemma insertSteps_selfNamed xs m :
  selfNamed m -> selfNamed (fold_left insertStep xs m).
Proof.
  revert m. induction xs as [|x xs IH]; intros m H; [exact H|].
  simpl. apply IH. intros e He.
  apply JsMapFacts.In_set in He as [-> | He]; [reflexivity | now apply H].
Qed.

(** Every key of the merged map is the unique key of an entry. *)
Lemma insertSteps_keys xs m k :
  In k (JsMap.keys (fold_left insertStep xs m)) ->
  In k (JsMap.keys m) \/ exists x, In x xs /\ entryKey x = k.
Proof.
  revert m. induction xs as [|x xs IH]; intros m H; [now left|].
  simpl in H. apply IH in H as [H | [y [Hy Hk]]].
  - unfold JsMap.keys in H. apply in_map_iff in H as [e [He Hin]].
    apply JsMapFacts.In_set in Hin as [-> | Hin].
    + right. exists x. split; [now left | exact He].
    + left. rewrite <- He. now apply in_map.
  - right. exists y. split; [now right | exact Hk].
Qed.

(** With pairwise distinct unique keys, nothing is overwritten: the merged
    map lists the entries in order. *)
Lemma insertSteps_keys_NoDup xs m :
  NoDup (JsMap.keys m ++ map entryKey xs) ->
  JsMap.keys (fold_left insertStep xs m) = JsMap.keys m ++ map entryKey xs.
Proof.
  revert m. induction xs as [|x xs IH]; intros m H.
  - simpl. now rewrite app_nil_r.
  - cbn [fold_left map].
    assert (Hout : ~ In (entryKey x) (JsMap.keys m)).
    { intros Hin. apply NoDup_remove_2 in H. apply H.
      apply in_or_app. now left. }
    assert (Hk : JsMap.keys (insertStep m x) = JsMap.keys m ++ [entryKey x]).
    { unfold insertStep. now apply JsMapFacts.keys_set_absent. }
    rewrite IH; rewrite Hk, <- app_assoc; [reflexivity | exact H].
Qed.

(** **** Second loop *)

Lemma firstKeyStartingWith_find {V : Type} (p : string) (m : JsMap.t V) :
  firstKeyStartingWith p m =
  find (fun key => JsString.startsWith key p) (JsMap.keys m).
Proof.
  induction m as [|[k v] m IH]; simpl; [reflexivity|].
  destruct (JsString.startsWith k p); [reflexivity | exact IH].
Qed.

(** The rewriting of a call depends on the keys of the merged map only. *)
Lemma resolveCall_spec (m : JsMap.t FunctionNode) (fileLabel callee : string) :
  resolveCall m fileLabel callee = rewriteSpec (JsMap.keys m) fileLabel callee.
Proof.
  unfold resolveCall, rewriteSpec.
  now rewrite JsMapFacts.has_includes, firstKeyStartingWith_find.
Qed.

Lemma set_adjust {V : Type} (g : V -> V) (m : JsMap.t V) (k : string) (old : V) :
  JsMap.wf m -> JsMap.get k m = Some old ->
  JsMap.set k (g old) m =
  map (fun e => if String.eqb (fst e) k then (fst e, g (snd e)) else e) m.
Proof.
  unfold JsMap.wf. induction m as [|[k' v'] m IH]; simpl; [discriminate|].
  intros Hnd Hget. inversion Hnd as [|? ? Hout Hnd']; subst.
  destruct (String.eqb k' k) eqn:E.
  - injection Hget as ->. f_equal.
    apply String.eqb_eq in E. subst k'.
    rewrite <- (map_id m) at 1. apply map_ext_in. intros e He.
    destruct (String.eqb (fst e) k) eqn:Ee; [|reflexivity].
    apply String.eqb_eq in Ee. exfalso. apply Hout. rewrite <- Ee.
    now apply in_map.
  - f_equal. now apply IH.
Qed.

Lemma fst_rewriteEntry ks x e : fst (rewriteEntry ks x e) = fst e.
Proof. unfold rewriteEntry. now destruct (String.eqb (fst e) (entryKey x)). Qed.

Lemma fst_rewriteEntries ks xs e : fst (rewriteEntries ks xs e) = fst e.
Proof.
  revert e. induction xs as [|x xs IH]; intros e; [reflexivity|].
  unfold rewriteEntries in *. simpl. now rewrite IH, fst_rewriteEntry.
Qed.

Lemma name_rewriteEntries ks xs e :
  name (snd (rewriteEntries ks xs e)) = name (snd e).
Proof.
  revert e. induction xs as [|x xs IH]; intros e; [reflexivity|].
  unfold rewriteEntries in *. simpl. rewrite IH. unfold rewriteEntry.
  now destruct (String.eqb (fst e) (entryKey x)).
Qed.

Lemma rewriteStep_map (m : JsMap.t FunctionNode) x :
  JsMap.wf m -> rewriteStep m x = map (rewriteEntry (JsMap.keys m) x) m.
Proof.
  intros Hwf. unfold rewriteStep.
  destruct (JsMap.get (entryKey x) m) as [mf|] eqn:E.
  - rewrite (map_ext _ _ (resolveCall_spec m (entryLabel x))).
    now rewrite (set_adjust
                   (fun f => with_calls_reset f
                      (map (rewriteSpec (JsMap.keys m) (entryLabel x))
                         (calls (snd (snd x))))) m _ mf Hwf E).
  - rewrite <- (map_id m) at 1. apply map_ext_in. intros e He.
    unfold rewriteEntry. destruct (String.eqb (fst e) (entryKey x)) eqn:Ee;
      [|reflexivity].
    apply String.eqb_eq in Ee. apply JsMapFacts.get_None in E.
    exfalso. apply E. rewrite <- Ee. now apply in_map.
Qed.

Lemma rewriteSteps_map xs (m : JsMap.t FunctionNode) :
  JsMap.wf m ->
  fold_left rewriteStep xs m = map (rewriteEntries (JsMap.keys m) xs) m.
Proof.
  revert m. induction xs as [|x xs IH]; intros m Hwf.
  - simpl. now rewrite map_id.
  - simpl. rewrite rewriteStep_map by assumption.
    assert (Hk : JsMap.keys (map (rewriteEntry (JsMap.keys m) x) m) = JsMap.keys m).
    { apply JsMapFacts.keys_map. intros; apply fst_rewriteEntry. }
    rewrite IH by (unfold JsMap.wf; now rewrite Hk).
    now rewrite Hk, map_map.
Qed.

(** An entry that some step of the second loop names ends with no callers. *)
Lemma calledBy_rewriteEntries ks xs e :
  calledBy (snd e) = [] \/ (exists x, In x xs /\ entryKey x = fst e) ->
  calledBy (snd (rewriteEntries ks xs e)) = [].
Proof.
  revert e. induction xs as [|x xs IH]; intros e H.
  - destruct H as [H | [x [[] _]]]. exact H.
  - change (rewriteEntries ks (x :: xs) e)
      with (rewriteEntries ks xs (rewriteEntry ks x e)).
    apply IH. unfold rewriteEntry.
    destruct (String.eqb (fst e) (entryKey x)) eqn:E; [now left|].
    destruct H as [H | [y [[<- | Hy] Hk]]].
    + now left.
    + rewrite Hk, String.eqb_refl in E. discriminate.
    + right. exists y. now split.
Qed.

(** The calls of an entry are those written by the last step that names it. *)
Lemma calls_rewriteEntries ks pre x post e :
  fst e = entryKey x ->
  (forall y, In y post -> entryKey y <> entryKey x) ->
  calls (snd (rewriteEntries ks (pre ++ x :: post) e)) =
  map (rewriteSpec ks (entryLabel x)) (calls (snd (snd x))).
Proof.
  intros He Hpost. unfold rewriteEntries. rewrite fold_left_app.
  fold (rewriteEntries ks pre e). cbn [fold_left].
  assert (Hx : rewriteEntry ks x (rewriteEntries ks pre e) =
               (fst e, with_calls_reset (snd (rewriteEntries ks pre e))
                  (map (rewriteSpec ks (entryLabel x)) (calls (snd (snd x)))))).
  { unfold rewriteEntry. now rewrite fst_rewriteEntries, He, String.eqb_refl. }
  rewrite Hx. clear Hx.
  set (e1 := (fst e, _)).
  assert (Hgen : forall e', fst e' = entryKey x ->
            fold_left (fun e0 x0 => rewriteEntry ks x0 e0) post e' = e').
  { clear e1. induction post as [|y post IH]; intros e' He'; [reflexivity|].
    simpl. unfold rewriteEntry at 2.
    assert (Hy : entryKey y <> entryKey x) by (apply Hpost; now left).
    rewrite He'. apply not_eq_sym in Hy. apply String.eqb_neq in Hy.
    rewrite Hy. apply IH; [|exact He'].
    intros z Hz. apply Hpost. now right. }
  rewrite Hgen by exact He. reflexivity.
Qed.

(** **** The three loops together *)

Lemma insertStep_keys_mono m x k :
  In k (JsMap.keys m) -> In k (JsMap.keys (insertStep m x)).
Proof.
  intros H. unfold insertStep.
  destruct (in_dec string_dec (entryKey x) (JsMap.keys m)) as [Hin | Hout].
  - now rewrite JsMapFacts.keys_set_present.
  - rewrite JsMapFacts.keys_set_absent by assumption. apply in_or_app. now left.
Qed.

Lemma insertSteps_keys_mono xs m k :
  In k (JsMap.keys m) -> In k (JsMap.keys (fold_left insertStep xs m)).
Proof.
  revert m. induction xs as [|x xs IH]; intros m H; [exact H|].
  simpl. apply IH. now apply insertStep_keys_mono.
Qed.

Lemma insertSteps_has xs m x :
  In x xs -> In (entryKey x) (JsMap.keys (fold_left insertStep xs m)).
Proof.
  revert m. induction xs as [|y xs IH]; intros m Hin; [destruct Hin|].
  destruct Hin as [-> | H]; simpl.
  - apply insertSteps_keys_mono. apply JsMapFacts.get_In_key with (v :=
      mkFunctionNode (entryKey x) (fst (snd x)) (startLine (snd (snd x)))
        (endLine (snd (snd x))) (calls (snd (snd x))) (calledBy (snd (snd x)))
        (params (snd (snd x))) (complexity (snd (snd x)))
        (Some (ca_fileName (fst x))) (code (snd (snd x)))
        (significance (snd (snd x)))).
    apply JsMapFacts.get_set_eq.
  - now apply IH.
Qed.

Lemma insertSteps_keys_origin xs k :
  In k (JsMap.keys (fold_left insertStep xs JsMap.empty)) ->
  exists x, In x xs /\ entryKey x = k.
Proof.
  intros H. apply insertSteps_keys in H as [H | H]; [destruct H | exact H].
Qed.

(** The store that the third loop links: what the first two loops build. *)
Lemma merged_store (analyses : list CodeAnalysis) :
  exists (merged : CodeAnalysis) (store : JsMap.t FunctionNode),
    mergeAnalyses analyses =
      calculateSignificance (with_functions merged (linked fst store)) /\
    exports merged = flat_map exports analyses /\
    JsMap.keys store =
      JsMap.keys (fold_left insertStep (mergeEntries analyses) JsMap.empty) /\
    JsMap.wf store /\
    selfNamed store /\
    (forall e, In e store ->
       exists x, In x (mergeEntries analyses) /\ fst e = entryKey x) /\
    (forall pre x post,
       mergeEntries analyses = pre ++ x :: post ->
       (forall y, In y post -> entryKey y <> entryKey x) ->
       exists mf, JsMap.get (entryKey x) store = Some mf /\
         calls mf = map (rewriteSpec (JsMap.keys store) (entryLabel x))
                      (calls (snd (snd x)))).
Proof.
  set (init := mkCodeAnalysis "Workspace Analysis" "multiple" JsMap.empty [] []).
  set (E := mergeEntries analyses).
  set (M1 := fold_left insertStep E JsMap.empty).
  set (M2 := map (rewriteEntries (JsMap.keys M1) E) M1).
  assert (Hwf1 : JsMap.wf M1) by (apply insertSteps_wf; constructor).
  assert (Hself1 : selfNamed M1) by (apply insertSteps_selfNamed; intros e []).
  assert (Hk : JsMap.keys M2 = JsMap.keys M1).
  { apply JsMapFacts.keys_map. intros; apply fst_rewriteEntries. }
  assert (Hwf2 : JsMap.wf M2) by (unfold JsMap.wf; now rewrite Hk).
  assert (Horigin : forall e, In e M2 -> exists x, In x E /\ fst e = entryKey x).
  { intros e He. assert (Hin : In (fst e) (JsMap.keys M2)) by now apply in_map.
    rewrite Hk in Hin. apply insertSteps_keys_origin in Hin as [x [Hx Hkx]].
    exists x. now split. }
  assert (Hcb : forall e, In e M2 -> calledBy (snd e) = []).
  { intros e He. unfold M2 in He. apply in_map_iff in He as [e0 [<- He0]].
    apply calledBy_rewriteEntries. right.
    assert (Hin : In (fst e0) (JsMap.keys M1)) by now apply in_map.
    apply insertSteps_keys_origin in Hin as [x [Hx Hkx]]. exists x. now split. }
  exists (fold_left mergeInsert analyses init), M2.
  split; [|split; [|split; [|split; [|split; [|split]]]]].
  - unfold mergeAnalyses. fold init.
    rewrite mergeRewrite_steps, mergeInsert_functions. cbn [functions init].
    fold E. fold M1. rewrite rewriteSteps_map by exact Hwf1. fold M2.
    now rewrite mergeLink_linked.
  - now rewrite mergeInsert_exports.
  - exact Hk.
  - exact Hwf2.
  - intros e He. unfold M2 in He. apply in_map_iff in He as [e0 [<- He0]].
    rewrite name_rewriteEntries, fst_rewriteEntries. now apply Hself1.
  - exact Horigin.
  - intros pre x post HE Hpost.
    assert (Hx : In (entryKey x) (JsMap.keys M1)).
    { apply insertSteps_has. fold E. rewrite HE. apply in_or_app. right. now left. }
    apply JsMapFacts.In_key_get in Hx as [v Hv].
    unfold M2 at 1. rewrite JsMapFacts.get_map by (intros; apply fst_rewriteEntries).
    rewrite Hv. cbn [option_map]. eexists. split; [reflexivity|].
    rewrite Hk. fold E. rewrite HE. now apply calls_rewriteEntries.
Qed.

(** Reading the merged graph: a record of the store, with its callers
    linked and its score computed. *)
Lemma merged_get (merged : CodeAnalysis) (store : JsMap.t FunctionNode)
  (k : string) (f : FunctionNode) :
  JsMap.get k
    (functions (calculateSignificance (with_functions merged (linked fst store))))
  = Some f ->
  exists f0, JsMap.get k store = Some f0 /\
    name f = name f0 /\ calls f = calls f0 /\
    calledBy f = callersFromCalls store k /\
    significance f =
      Some (scoreOf (JsMap.values (linked fst store)) (exports merged) f).
Proof.
  rewrite calculateSignificance_get. cbn [functions exports with_functions].
  rewrite linked_get.
  destruct (JsMap.get k store) as [f0|]; [|discriminate].
  cbn [option_map]. intros [= <-]. exists f0. repeat split.
Qed.

Lemma merged_keys (merged : CodeAnalysis) (store : JsMap.t FunctionNode) :
  JsMap.keys
    (functions (calculateSignificance (with_functions merged (linked fst store))))
  = JsMap.keys store.
Proof.
  rewrite calculateSignificance_functions. cbn [functions with_functions].
  unfold linked. now rewrite !JsMapFacts.keys_map by reflexivity.
Qed.

(** **** Callers known before the merge are discarded *)

Lemma mergeEntries_forget (analyses : list CodeAnalysis) :
  mergeEntries (map forgetCallers analyses) =
  map forgetEntry (mergeEntries analyses).
Proof.
  unfold mergeEntries. induction analyses as [|a analyses IH]; [reflexivity|].
  cbn [map flat_map]. rewrite IH, map_app. f_equal.
  unfold forgetCallers at 2. cbn [functions with_functions].
  now rewrite !map_map.
Qed.

Lemma set_clearCallers (m : JsMap.t FunctionNode) (k : string) (v : FunctionNode) :
  JsMap.set k (with_calledBy v []) (map clearCallers m) =
  map clearCallers (JsMap.set k v m).
Proof.
  induction m as [|[k' v'] m IH]; [reflexivity|].
  cbn [map clearCallers fst snd JsMap.set].
  destruct (String.eqb k' k); [reflexivity|].
  cbn [map]. now rewrite IH.
Qed.

Lemma insertSteps_forget xs (m : JsMap.t FunctionNode) :
  fold_left insertStep (map forgetEntry xs) (map clearCallers m) =
  map clearCallers (fold_left insertStep xs m).
Proof.
  revert m. induction xs as [|x xs IH]; intros m; [reflexivity|].
  cbn [map fold_left]. rewrite <- IH. f_equal.
  unfold insertStep. now rewrite <- set_clearCallers.
Qed.

Lemma rewriteEntries_forget ks xs e :
  rewriteEntries ks (map forgetEntry xs) e = rewriteEntries ks xs e.
Proof.
  unfold rewriteEntries. now rewrite fold_left_map.
Qed.

(** Once a step of the second loop names an entry, the callers it had are
    gone. *)
Lemma rewriteEntries_clearCallers ks xs e :
  (exists x, In x xs /\ entryKey x = fst e) ->
  rewriteEntries ks xs (clearCallers e) = rewriteEntries ks xs e.
Proof.
  revert e. induction xs as [|x xs IH]; intros e [y [Hy Hk]]; [destruct Hy|].
  change (rewriteEntries ks (x :: xs) ?e0)
    with (rewriteEntries ks xs (rewriteEntry ks x e0)).
  unfold rewriteEntry. cbn [clearCallers fst snd].
  destruct (String.eqb (fst e) (entryKey x)) eqn:E; [reflexivity|].
  apply IH. destruct Hy as [<- | Hy].
  - rewrite Hk, String.eqb_refl in E. discriminate.
  - exists y. now split.
Qed.

Lemma mergeInsert_header (analyses : list CodeAnalysis) (merged : CodeAnalysis) :
  ca_fileName (fold_left mergeInsert analyses merged) = ca_fileName merged /\
  ca_language (fold_left mergeInsert analyses merged) = ca_language merged /\
  imports (fold_left mergeInsert analyses merged) =
    imports merged ++ flat_map imports analyses.
Proof.
  revert merged. induction analyses as [|a analyses IH]; intros merged.
  - simpl. now rewrite app_nil_r.
  - cbn [fold_left flat_map]. destruct (IH (mergeInsert merged a)) as (-> & -> & ->).
    unfold mergeInsert. cbn [ca_fileName ca_language imports].
    now rewrite app_assoc.
Qed.

Lemma flat_map_forget {B : Type} (g : CodeAnalysis -> list B)
  (analyses : list CodeAnalysis) :
  (forall a, g (forgetCallers a) = g a) ->
  flat_map g (map forgetCallers analyses) = flat_map g analyses.
Proof.
  intros Hg. induction analyses as [|a analyses IH]; [reflexivity|].
  cbn [map flat_map]. now rewrite Hg, IH.
Qed.

(** The merge does not read the callers of its inputs. *)
Lemma mergeAnalyses_forgets_callers (analyses : list CodeAnalysis) :
  mergeAnalyses (map forgetCallers analyses) = mergeAnalyses analyses.
Proof.
  unfold mergeAnalyses.
  set (init := mkCodeAnalysis "Workspace Analysis" "multiple" JsMap.empty [] []).
  set (E := mergeEntries analyses).
  set (M1 := fold_left insertStep E JsMap.empty).
  assert (Hwf1 : JsMap.wf M1) by (apply insertSteps_wf; constructor).
  assert (HM1 : functions (fold_left mergeInsert (map forgetCallers analyses) init)
                = map clearCallers M1).
  { rewrite mergeInsert_functions, mergeEntries_forget. cbn [functions init].
    apply (insertSteps_forget E JsMap.empty). }
  assert (Hk : JsMap.keys (map clearCallers M1) = JsMap.keys M1)
    by (now apply JsMapFacts.keys_map).
  assert (Hrew : fold_left mergeRewrite (map forgetCallers analyses)
                   (functions (fold_left mergeInsert (map forgetCallers analyses) init))
                 = fold_left mergeRewrite analyses
                     (functions (fold_left mergeInsert analyses init))).
  { rewrite HM1, !mergeRewrite_steps, mergeInsert_functions, mergeEntries_forget.
    cbn [functions init]. fold E. fold M1.
    rewrite !rewriteSteps_map;
      [ | exact Hwf1 | unfold JsMap.wf; now rewrite Hk ].
    rewrite Hk, map_map. apply map_ext_in. intros e He.
    rewrite rewriteEntries_forget. apply rewriteEntries_clearCallers.
    assert (Hin : In (fst e) (JsMap.keys M1)) by now apply in_map.
    apply insertSteps_keys_origin in Hin as [x [Hx Hkx]]. exists x. now split. }
  rewrite Hrew. f_equal. unfold with_functions. f_equal.
  - destruct (mergeInsert_header (map forgetCallers analyses) init) as (-> & _).
    now destruct (mergeInsert_header analyses init) as (-> & _).
  - destruct (mergeInsert_header (map forgetCallers analyses) init) as (_ & -> & _).
    now destruct (mergeInsert_header analyses init) as (_ & -> & _).
  - destruct (mergeInsert_header (map forgetCallers analyses) init) as (_ & _ & ->).
    destruct (mergeInsert_header analyses init) as (_ & _ & ->).
    now rewrite flat_map_forget.
  - rewrite !mergeInsert_exports. now rewrite flat_map_forget.
Qed.

(* ------------------------------------------------------------------ *)
(** ** Unique keys *)

Lemma prefix_app (p s : string) : String.prefix p (p ++ s)%string = true.
Proof.
  induction p as [|a p IH]; simpl; [now destruct s|].
  destruct (ascii_dec a a); [exact IH | congruence].
Qed.

(** A unique key contains the separator. *)
Lemma uniqueKey_includes_sep (localName fileLabel : string) :
  JsString.includes (uniqueKey localName fileLabel) "::" = true.
Proof.
  unfold uniqueKey. induction localName as [|a n IH].
  - change ("" ++ "::" ++ fileLabel)%string with ("::" ++ fileLabel)%string.
    destruct fileLabel; reflexivity.
  - change (String a n ++ "::" ++ fileLabel)%string
      with (String a (n ++ "::" ++ fileLabel)%string).
    cbn [JsString.includes]. rewrite IH. apply orb_true_r.
Qed.

(** The local name of a unique key ends at the first colon. *)
Lemma uniqueKey_name_inj (n1 n2 l1 l2 : string) :
  JsString.colon_free n1 = true -> JsString.colon_free n2 = true ->
  uniqueKey n1 l1 = uniqueKey n2 l2 -> n1 = n2.
Proof.
  unfold uniqueKey. revert n2.
  induction n1 as [|a n1 IH]; intros [|b n2] H1 H2 Heq; simpl in *.
  - reflexivity.
  - injection Heq as <- _. discriminate.
  - injection Heq as -> _. discriminate.
  - injection Heq as -> Heq.
    apply andb_prop in H1 as [_ H1]. apply andb_prop in H2 as [_ H2].
    f_equal. now apply IH.
Qed.

Lemma NoDup_map_inj_on {A B C : Type} (f : A -> B) (g : A -> C) (l : list A) :
  (forall x y, In x l -> In y l -> f x = f y -> g x = g y) ->
  NoDup (map g l) -> NoDup (map f l).
Proof.
  induction l as [|a l IH]; simpl; intros Hinj Hnd; [constructor|].
  inversion Hnd as [|? ? Hout Hnd']; subst. constructor.
  - intros Hin. apply in_map_iff in Hin as [x [Hx Hin]].
    apply Hout. rewrite <- (Hinj x a); [now apply in_map | now right | now left | exact Hx].
  - apply IH; [|assumption]. intros x y Hx Hy. apply Hinj; now right.
Qed.

(** The local names of the entries of a merge, file by file. *)
Lemma mergeEntries_names (analyses : list CodeAnalysis) :
  map (fun x => fst (snd x)) (mergeEntries analyses) =
  flat_map declaredNames analyses.
Proof.
  unfold mergeEntries, declaredNames, JsMap.keys.
  induction analyses as [|a analyses IH]; simpl; [reflexivity|].
  now rewrite map_app, map_map, IH.
Qed.

Lemma mergeEntries_length (analyses : list CodeAnalysis) (M : nat) :
  Forall (fun a => JsMap.size (functions a) = M) analyses ->
  List.length (mergeEntries analyses) = (List.length analyses * M)%nat.
Proof.
  unfold mergeEntries. induction 1 as [|a analyses Ha _ IH]; simpl; [reflexivity|].
  rewrite length_app, length_map, IH. unfold JsMap.size in Ha. now rewrite Ha.
Qed.

(** Maps with distinct keys and pairwise disjoint names declare every name
    once. *)
Lemma declaredNames_NoDup (analyses : list CodeAnalysis) :
  Forall (fun a => JsMap.wf (functions a)) analyses ->
  ForallOrdPairs
    (fun a b => forall n, In n (declaredNames a) -> ~ In n (declaredNames b))
    analyses ->
  NoDup (flat_map declaredNames analyses).
Proof.
  intros Hwf Hdisj. induction Hdisj as [|a analyses Ha _ IH]; simpl; [constructor|].
  inversion Hwf as [|? ? Hwfa Hwf']; subst.
  apply NoDup_app; [exact Hwfa | now apply IH |].
  intros n Hn Hin. apply in_flat_map in Hin as [b [Hb Hnb]].
  rewrite Forall_forall in Ha. now apply (Ha b Hb n).
Qed.

(* ------------------------------------------------------------------ *)
(** ** The call graph builder: specified properties *)

Lemma linked_wf (m : JsMap.t FunctionNode) :
  JsMap.wf m -> JsMap.wf (linked fst m).
Proof.
  unfold JsMap.wf, linked. now rewrite JsMapFacts.keys_map by reflexivity.
Qed.

Lemma linked_selfNamed (m : JsMap.t FunctionNode) :
  selfNamed m -> selfNamed (linked fst m).
Proof.
  intros H e He. unfold linked in He. apply in_map_iff in He as [e0 [<- He0]].
  simpl. now apply H.
Qed.

(** C1. In every resolved graph, that of one analyzed file and that of a
    merged workspace, every record is stored under its name, the callers of
    B contain A's key exactly when the calls of A contain B's key, and the
    callers list of B is computed from the calls lists alone (the keys of the
    functions whose calls contain B's key, in map order), without
    duplicates; the merge gives the same graph when the callers of its
    inputs are forgotten first. *)
Theorem C1_callers_inverse_of_calls :
  (forall file language units imps exps,
     resolvedGraph (functions (analyzeDocument file language units imps exps)))
  /\
  (forall analyses, resolvedGraph (functions (mergeAnalyses analyses)))
  /\
  (forall analyses,
     mergeAnalyses (map forgetCallers analyses) = mergeAnalyses analyses).
Proof.
  split; [|split].
  - apply resolvedGraph_analyzeDocument.
  - intros analyses.
    destruct (merged_store analyses)
      as (merged & store & -> & _ & _ & Hwf & Hself & _).
    apply resolvedGraph_scored. cbn [functions with_functions].
    now apply resolvedGraph_linked.
  - apply mergeAnalyses_forgets_callers.
Qed.

(** C5. In the merged graph, the calls of the function stored under the
    key of an entry (the last entry with that key, when several collide) are
    the raw calls of that entry, each rewritten by the rule: the same-file key
    when the merged graph has it, else the first key of the merged graph, in
    map order, that starts with the callee's name and the separator, else the
    raw name. *)
Theorem C5_merge_rewrites_calls (analyses : list CodeAnalysis)
  (pre post : list (CodeAnalysis * (string * FunctionNode)))
  (x : CodeAnalysis * (string * FunctionNode)) :
  mergeEntries analyses = pre ++ x :: post ->
  (forall y, In y post -> entryKey y <> entryKey x) ->
  exists mergedFunc,
    JsMap.get (entryKey x) (functions (mergeAnalyses analyses)) = Some mergedFunc /\
    calls mergedFunc =
      map (rewriteSpec (JsMap.keys (functions (mergeAnalyses analyses)))
             (entryLabel x))
        (calls (snd (snd x))).
Proof.
  intros HE Hpost.
  destruct (merged_store analyses)
    as (merged & store & -> & _ & _ & _ & _ & _ & Hlast).
  destruct (Hlast pre x post HE Hpost) as (mf & Hget & Hcalls).
  rewrite merged_keys, calculateSignificance_get.
  cbn [functions with_functions]. rewrite linked_get, Hget. cbn [option_map].
  eexists. split; [reflexivity | exact Hcalls].
Qed.

Lemma C5_merge_rewrites_calls_witness :
  exists mergedFunc,
    JsMap.get "load::b.ts" (functions (mergeAnalyses demoWorkspace)) = Some mergedFunc /\
    calls mergedFunc = ["helper::a.ts"; "parse::b.ts"].
Proof.
  destruct (C5_merge_rewrites_calls demoWorkspace
              (firstn 2 (mergeEntries demoWorkspace))
              (skipn 3 (mergeEntries demoWorkspace))
              (nth 2 (mergeEntries demoWorkspace)
                 (demoFileB, ("", loneFunction))))
    as (mf & Hget & Hcalls).
  - reflexivity.
  - intros y [<- | []]. vm_compute. discriminate.
  - exists mf. split; [exact Hget | exact Hcalls].
Defined.

(** C6 as stated fails when names contain colons: "f" in the file "g::x"
    and "f::g" in the file "x" are different names with the same unique key,
    so the merge of these two one-function files has one entry. *)
Lemma C6_counterexample :
  Forall (fun a => JsMap.wf (functions a)) [colonFileA; colonFileB] /\
  ForallOrdPairs
    (fun a b => forall n, In n (declaredNames a) -> ~ In n (declaredNames b))
    [colonFileA; colonFileB] /\
  Forall (fun a => JsMap.size (functions a) = 1%nat) [colonFileA; colonFileB] /\
  JsMap.size (functions (mergeAnalyses [colonFileA; colonFileB])) <> (2 * 1)%nat.
Proof.
  split; [|split; [|split]].
  - repeat constructor; intros [].
  - repeat constructor. vm_compute. intros n [<- | []] [H | []]. discriminate.
  - repeat constructor.
  - vm_compute. discriminate.
Qed.

(** C6, amended. K analyses whose maps have distinct keys, whose names are
    pairwise disjoint across files and free of colons, and that declare M
    functions each, merge into exactly K * M entries with pairwise distinct
    keys, one per entry: the local name, the separator and the file label. *)
Theorem C6_merge_counts (analyses : list CodeAnalysis) (M : nat) :
  Forall (fun a => JsMap.wf (functions a)) analyses ->
  ForallOrdPairs
    (fun a b => forall n, In n (declaredNames a) -> ~ In n (declaredNames b))
    analyses ->
  Forall (fun a => Forall (fun n => JsString.colon_free n = true)
                     (declaredNames a)) analyses ->
  Forall (fun a => JsMap.size (functions a) = M) analyses ->
  JsMap.size (functions (mergeAnalyses analyses)) = (List.length analyses * M)%nat /\
  NoDup (JsMap.keys (functions (mergeAnalyses analyses))) /\
  JsMap.keys (functions (mergeAnalyses analyses)) =
    map entryKey (mergeEntries analyses).
Proof.
  intros Hwf Hdisj Hcolon Hsize.
  assert (Hnames : NoDup (map (fun x => fst (snd x)) (mergeEntries analyses))).
  { rewrite mergeEntries_names. now apply declaredNames_NoDup. }
  assert (Hfree : forall x, In x (mergeEntries analyses) ->
                    JsString.colon_free (fst (snd x)) = true).
  { intros x Hx. unfold mergeEntries in Hx.
    apply in_flat_map in Hx as [a [Ha Hx]]. apply in_map_iff in Hx as [e [<- He]].
    rewrite Forall_forall in Hcolon. specialize (Hcolon a Ha).
    rewrite Forall_forall in Hcolon. apply Hcolon.
    unfold declaredNames, JsMap.keys. now apply in_map. }
  assert (Hkeys : NoDup (map entryKey (mergeEntries analyses))).
  { apply (NoDup_map_inj_on entryKey (fun x => fst (snd x))); [|exact Hnames].
    intros x y Hx Hy Heq. unfold entryKey in Heq.
    apply (uniqueKey_name_inj _ _ _ _ (Hfree x Hx) (Hfree y Hy) Heq). }
  destruct (merged_store analyses) as (merged & store & -> & _ & Hk & _).
  rewrite (insertSteps_keys_NoDup (mergeEntries analyses) JsMap.empty) in Hk
    by exact Hkeys.
  cbn [JsMap.keys JsMap.empty map app] in Hk. fold (JsMap.keys store) in Hk.
  assert (Hall : JsMap.keys
            (functions (calculateSignificance
               (with_functions merged (linked fst store))))
          = map entryKey (mergeEntries analyses)).
  { now rewrite merged_keys. }
  split; [|split].
  - unfold JsMap.size. rewrite <- (length_map fst). fold (JsMap.keys
      (functions (calculateSignificance (with_functions merged (linked fst store))))).
    rewrite Hall, length_map. now apply mergeEntries_length.
  - now rewrite Hall.
  - exact Hall.
Qed.

Lemma C6_merge_counts_witness :
  JsMap.size (functions (mergeAnalyses demoWorkspace)) = (2 * 2)%nat /\
  NoDup (JsMap.keys (functions (mergeAnalyses demoWorkspace))) /\
  JsMap.keys (functions (mergeAnalyses demoWorkspace)) =
    ["main::a.ts"; "helper::a.ts"; "load::b.ts"; "parse::b.ts"].
Proof.
  apply (C6_merge_counts demoWorkspace 2).
  - repeat constructor; vm_compute; intuition discriminate.
  - repeat constructor. vm_compute. intuition congruence.
  - repeat constructor.
  - repeat constructor.
Defined.

(* ------------------------------------------------------------------ *)
(** ** The significance scorer: specified properties *)

(** The specified score reads names, calls and callers only. *)
Lemma calleeTest_ext (fns fns' : list FunctionNode) (c : string) :
  map (fun g => (name g, calledBy g)) fns = map (fun g => (name g, calledBy g)) fns' ->
  existsb (fun g => String.eqb (name g) c &&
                    negb (Nat.eqb (List.length (calledBy g)) 0)) fns =
  existsb (fun g => String.eqb (name g) c &&
                    negb (Nat.eqb (List.length (calledBy g)) 0)) fns'.
Proof.
  revert fns'. induction fns as [|g fns IH]; intros [|g' fns'] H;
    try discriminate; [reflexivity|].
  simpl in H. injection H as Hn Hc Hrest. simpl.
  now rewrite Hn, Hc, (IH fns' Hrest).
Qed.

Lemma specBaseScore_ext (fns fns' : list FunctionNode) (f f' : FunctionNode) :
  map (fun g => (name g, calledBy g)) fns = map (fun g => (name g, calledBy g)) fns' ->
  calls f = calls f' -> calledBy f = calledBy f' ->
  specBaseScore fns f = specBaseScore fns' f'.
Proof.
  intros Hfns Hcalls Hcb. unfold specBaseScore, calleesWithCaller.
  rewrite Hcalls, Hcb.
  rewrite (filter_ext _ _ (fun c => calleeTest_ext fns fns' c Hfns)).
  reflexivity.
Qed.

(** After scoring a self-named graph with distinct keys, every record
    carries the specified significance. *)
Lemma scored_spec (a : CodeAnalysis) (k : string) (f : FunctionNode) :
  JsMap.wf (functions a) -> selfNamed (functions a) ->
  JsMap.get k (functions (calculateSignificance a)) = Some f ->
  significance f =
  Some (specSignificance (JsMap.values (functions (calculateSignificance a)))
          (exports (calculateSignificance a)) f).
Proof.
  intros Hwf Hself Hget.
  rewrite calculateSignificance_exports.
  pose proof Hget as Hget'. rewrite calculateSignificance_get in Hget'.
  destruct (JsMap.get k (functions a)) as [f0|]; [|discriminate].
  injection Hget' as <-. cbn [significance with_significance]. f_equal.
  rewrite scoreOf_spec.
  - unfold specSignificance. cbn [name with_significance]. f_equal. f_equal.
    apply specBaseScore_ext; try reflexivity.
    rewrite calculateSignificance_functions. unfold JsMap.values.
    now rewrite !map_map.
  - unfold JsMap.values. rewrite map_map.
    rewrite (map_ext_in _ fst) by exact Hself. exact Hwf.
Qed.

Lemma merged_scored_spec (analyses : list CodeAnalysis) (k : string)
  (f : FunctionNode) :
  JsMap.get k (functions (mergeAnalyses analyses)) = Some f ->
  significance f =
  Some (specSignificance (JsMap.values (functions (mergeAnalyses analyses)))
          (exports (mergeAnalyses analyses)) f).
Proof.
  destruct (merged_store analyses)
    as (merged & store & -> & _ & _ & Hwf & Hself & _).
  apply scored_spec; cbn [functions with_functions];
    [now apply linked_wf | now apply linked_selfNamed].
Qed.

(** C2. In a scored graph, that of one analyzed file and that of a merged
    workspace, the significance of every record is: 50, plus 40 without
    callers, plus min(8 * callers, 30) with callers, plus min(2 * calls, 10)
    with more than 3 calls, minus 20 with more than 3 callers, minus 15 with
    calls, callers and more than 2 callees that have a caller, plus 20 when
    its name is exported, the whole clamped to [0, 100]. *)
Theorem C2_significance_formula :
  (forall file language units imps exps k f,
     let graph := analyzeDocument file language units imps exps in
     JsMap.get k (functions graph) = Some f ->
     significance f =
     Some (specSignificance (JsMap.values (functions graph)) (exports graph) f))
  /\
  (forall analyses k f,
     let graph := mergeAnalyses analyses in
     JsMap.get k (functions graph) = Some f ->
     significance f =
     Some (specSignificance (JsMap.values (functions graph)) (exports graph) f)).
Proof.
  split.
  - intros file language units imps exps k f graph. subst graph.
    unfold analyzeDocument.
    assert (Hfresh : freshStore (functions
              (fold_left processFunction units
                 (mkCodeAnalysis file language JsMap.empty imps exps)))).
    { apply freshStore_processed. simpl. repeat split.
      - constructor.
      - intros e [].
      - intros e []. }
    pose proof (buildCalledByRelationships_functions _ Hfresh) as Hb.
    destruct Hfresh as (Hwf & Hself & _).
    apply scored_spec; rewrite Hb;
      [now apply linked_wf | now apply linked_selfNamed].
  - intros analyses k f graph. subst graph. apply merged_scored_spec.
Qed.

Lemma C2_significance_formula_witness :
  match JsMap.get "load::b.ts" (functions (mergeAnalyses demoWorkspace)) with
  | Some f =>
      significance f =
      Some (specSignificance
              (JsMap.values (functions (mergeAnalyses demoWorkspace)))
              (exports (mergeAnalyses demoWorkspace)) f)
  | None => False
  end.
Proof.
  pose proof (proj2 C2_significance_formula demoWorkspace "load::b.ts") as H.
  cbv zeta in H.
  destruct (JsMap.get "load::b.ts" (functions (mergeAnalyses demoWorkspace)))
    as [f|] eqn:E.
  - exact (H f eq_refl).
  - vm_compute in E. discriminate.
Defined.

(** C3 as stated fails: a function without callers scores 90, the same
    function with one caller scores 58. *)
Lemma C3_counterexample :
  calledBy loneFunction = [] /\
  calledBy calledOnce = ["g"] /\
  option_map significance
    (JsMap.get "f" (functions (calculateSignificance (graphOf loneFunction))))
    = Some (Some 90%Z) /\
  option_map significance
    (JsMap.get "f" (functions (calculateSignificance (graphOf calledOnce))))
    = Some (Some 58%Z) /\
  ~ (scoreOf [loneFunction] [] loneFunction < scoreOf [calledOnce] [] calledOnce)%Z.
Proof. vm_compute. repeat split. discriminate. Qed.

(** C3, amended. Whatever the rest of the graph and the export list are,
    a function scores strictly less with exactly one caller than the same
    function scores without callers: at most 88 against at least 90. *)
Theorem C3_first_caller_lowers_significance
  (fns : list FunctionNode) (exps : list string) (func : FunctionNode)
  (caller : string) :
  calledBy func = [] ->
  (scoreOf fns exps (with_calledBy func [caller]) < scoreOf fns exps func)%Z /\
  (scoreOf fns exps (with_calledBy func [caller]) <= 88)%Z /\
  (90 <= scoreOf fns exps func)%Z.
Proof.
  intros H.
  pose proof (scoreOf_entry_point fns exps func H).
  pose proof (scoreOf_one_caller fns exps (with_calledBy func [caller]) eq_refl).
  lia.
Qed.

Lemma C3_first_caller_lowers_significance_witness :
  (scoreOf [loneFunction] [] (with_calledBy loneFunction ["g"])
   < scoreOf [loneFunction] [] loneFunction)%Z.
Proof.
  exact (proj1 (C3_first_caller_lowers_significance [loneFunction] []
                  loneFunction "g" eq_refl)).
Defined.

(** C10. In a merged graph whose export list has no entry containing the
    separator, no record's name is in the export list, and every
    significance is the specified score without the export bonus. *)
Theorem C10_no_export_bonus_after_merge (analyses : list CodeAnalysis)
  (k : string) (f : FunctionNode) :
  Forall (fun e => JsString.includes e "::" = false)
    (exports (mergeAnalyses analyses)) ->
  JsMap.get k (functions (mergeAnalyses analyses)) = Some f ->
  includes (exports (mergeAnalyses analyses)) (name f) = false /\
  significance f =
  Some (clamp 0 100
          (specBaseScore (JsMap.values (functions (mergeAnalyses analyses))) f)).
Proof.
  intros Hexp Hget.
  assert (Hout : includes (exports (mergeAnalyses analyses)) (name f) = false).
  { apply includes_not_In. intros Hin.
    rewrite Forall_forall in Hexp. specialize (Hexp _ Hin).
    destruct (merged_store analyses)
      as (merged & store & Hm & _ & _ & _ & Hself & Horigin & _).
    rewrite Hm in Hget. apply merged_get in Hget as (f0 & Hf0 & Hn & _).
    apply JsMapFacts.get_In in Hf0.
    destruct (Horigin _ Hf0) as (x & _ & Hk).
    pose proof (Hself _ Hf0) as Hs. cbn [fst snd] in Hs, Hk.
    rewrite Hn, Hs, Hk in Hexp. unfold entryKey in Hexp.
    now rewrite uniqueKey_includes_sep in Hexp. }
  split; [exact Hout|].
  rewrite (merged_scored_spec analyses k f Hget).
  unfold specSignificance. rewrite Hout. f_equal. f_equal. lia.
Qed.

Lemma C10_no_export_bonus_after_merge_witness :
  match JsMap.get "main::a.ts" (functions (mergeAnalyses demoWorkspace)) with
  | Some f =>
      includes (exports (mergeAnalyses demoWorkspace)) (name f) = false /\
      significance f =
      Some (clamp 0 100
              (specBaseScore
                 (JsMap.values (functions (mergeAnalyses demoWorkspace))) f))
  | None => False
  end.
Proof.
  destruct (JsMap.get "main::a.ts" (functions (mergeAnalyses demoWorkspace)))
    as [f|] eqn:E.
  - apply (C10_no_export_bonus_after_merge demoWorkspace "main::a.ts" f).
    + vm_compute. repeat constructor.
    + exact E.
  - vm_compute in E. discriminate.
Defined.

(* ------------------------------------------------------------------ *)
(** ** The viewport filter: specified properties *)

Section Viewport.

Import Visualizer.
Local Open Scope Q_scope.

(** The thresholds of the table, as the loop of [getMinSignificance] scans
    them. *)
Lemma thresholds_descending :
  rev (sortAscending (levelKeys SIGNIFICANCE_LEVELS)) =
  [2.5; 1.8; 1.3; 1.0; 0.8; 0.5].
Proof. reflexivity. Qed.

Ltac level_case t c :=
  exists t, c;
  repeat match goal with
         | H : Qle_bool _ _ = true |- _ => apply Qle_bool_iff in H
         end;
  split; [simpl; tauto |];
  split; [assumption |];
  split; [| reflexivity];
  let t' := fresh "t'" in
  let c' := fresh "c'" in
  let Hin := fresh "Hin" in
  let Hle := fresh "Hle" in
  intros t' c' Hin Hle; simpl in Hin;
  repeat (destruct Hin as [Hin | Hin];
          [injection Hin as <- <-;
           first [ discriminate
                 | apply Qle_bool_iff in Hle; congruence ] |]);
  contradiction.

(** At or above the lowest threshold, the cutoff is the entry of the
    greatest threshold that the zoom level reaches. *)
Lemma getMinSignificance_cutoff (zoomLevel : Q) :
  0.5 <= zoomLevel ->
  exists t cutoff,
    In (t, cutoff) SIGNIFICANCE_LEVELS /\
    t <= zoomLevel /\
    (forall t' c', In (t', c') SIGNIFICANCE_LEVELS ->
       t' <= zoomLevel -> t' <= t) /\
    getMinSignificance zoomLevel = Some cutoff.
Proof.
  intros Hlow. unfold getMinSignificance, getMinSignificanceIn.
  rewrite thresholds_descending. cbn [firstAtMost].
  destruct (Qle_bool 2.5 zoomLevel) eqn:E1; [level_case 2.5 0%Z|].
  destruct (Qle_bool 1.8 zoomLevel) eqn:E2; [level_case 1.8 10%Z|].
  destruct (Qle_bool 1.3 zoomLevel) eqn:E3; [level_case 1.3 20%Z|].
  destruct (Qle_bool 1.0 zoomLevel) eqn:E4; [level_case 1.0 30%Z|].
  destruct (Qle_bool 0.8 zoomLevel) eqn:E5; [level_case 0.8 50%Z|].
  destruct (Qle_bool 0.5 zoomLevel) eqn:E6; [level_case 0.5 70%Z|].
  apply Qle_bool_iff in Hlow. congruence.
Qed.

Lemma shouldShowFunction_filter func zoomLevel ws expanded toShow :
  shouldShowFunction func zoomLevel ws expanded toShow =
  if fileFiltered func ws expanded toShow then false
  else meetsCutoff func zoomLevel.
Proof. reflexivity. Qed.

(** C7 as stated fails: in workspace mode with a.ts expanded, a function
    of b.ts without a significance value is not eligible at zoom 1, although
    its default significance 100 is above the cutoff 30. *)
Lemma C7_counterexample :
  significance unscoredOfB = None /\
  getMinSignificance 1 = Some 30%Z /\
  (30 <= significanceOrDefault unscoredOfB)%Z /\
  shouldShowFunction unscoredOfB 1 true ["/ws/a.ts"] ["/ws/a.ts"] = false.
Proof. vm_compute. repeat split. discriminate. Qed.

(** C7, amended. At a zoom level at or above the lowest threshold, the
    cutoff is the minSignificance paired with the greatest threshold not
    exceeding the zoom level. A function that the workspace file filter
    excludes is not eligible. Any other function is eligible exactly when
    its significance is at least the cutoff, a missing significance counting
    as 100, so that a function without a significance is then eligible. *)
Theorem C7_cutoff_and_eligibility (func : FunctionNode) (zoomLevel : Q)
  (ws : bool) (expanded toShow : list string) :
  0.5 <= zoomLevel ->
  exists t cutoff,
    In (t, cutoff) SIGNIFICANCE_LEVELS /\
    t <= zoomLevel /\
    (forall t' c', In (t', c') SIGNIFICANCE_LEVELS ->
       t' <= zoomLevel -> t' <= t) /\
    getMinSignificance zoomLevel = Some cutoff /\
    (fileFiltered func ws expanded toShow = true ->
       shouldShowFunction func zoomLevel ws expanded toShow = false) /\
    (fileFiltered func ws expanded toShow = false ->
       (shouldShowFunction func zoomLevel ws expanded toShow = true <->
        (cutoff <= significanceOrDefault func)%Z) /\
       (significance func = None ->
        significanceOrDefault func = 100%Z /\
        shouldShowFunction func zoomLevel ws expanded toShow = true)).
Proof.
  intros Hlow.
  destruct (getMinSignificance_cutoff zoomLevel Hlow)
    as (t & cutoff & Hin & Hle & Hmax & Hmin).
  exists t, cutoff. repeat (split; [assumption|]).
  rewrite shouldShowFunction_filter. split.
  - now intros ->.
  - intros ->. unfold meetsCutoff. rewrite Hmin. split.
    + apply Z.leb_le.
    + intros Hnone. unfold significanceOrDefault. rewrite Hnone.
      split; [reflexivity|]. apply Z.leb_le.
      simpl in Hin.
      repeat (destruct Hin as [Hin | Hin];
              [injection Hin as <- <-; discriminate|]).
      contradiction.
Qed.

Lemma C7_cutoff_and_eligibility_witness :
  exists t cutoff,
    In (t, cutoff) SIGNIFICANCE_LEVELS /\
    t <= 1.2 /\
    (forall t' c', In (t', c') SIGNIFICANCE_LEVELS -> t' <= 1.2 -> t' <= t) /\
    getMinSignificance 1.2 = Some cutoff /\
    (fileFiltered helperOfA true ["/ws/a.ts"] ["/ws/a.ts"] = true ->
       shouldShowFunction helperOfA 1.2 true ["/ws/a.ts"] ["/ws/a.ts"] = false) /\
    (fileFiltered helperOfA true ["/ws/a.ts"] ["/ws/a.ts"] = false ->
       (shouldShowFunction helperOfA 1.2 true ["/ws/a.ts"] ["/ws/a.ts"] = true <->
        (cutoff <= significanceOrDefault helperOfA)%Z) /\
       (significance helperOfA = None ->
        significanceOrDefault helperOfA = 100%Z /\
        shouldShowFunction helperOfA 1.2 true ["/ws/a.ts"] ["/ws/a.ts"] = true)).
Proof.
  apply (C7_cutoff_and_eligibility helperOfA 1.2 true ["/ws/a.ts"] ["/ws/a.ts"]).
  discriminate.
Defined.

Lemma In_visibleFunctions (vs : ViewState) (fns : list FunctionNode)
  (positions : list Position) (func : FunctionNode) :
  In func (visibleFunctions vs fns positions) <->
  exists pos, In (func, pos) (combine fns positions) /\
    gtNum (px pos) (-1000) = true /\
    shouldShowFunction func (scale vs) (isWorkspaceMode vs) (expandedFiles vs)
      (filesToShow vs) = true.
Proof.
  unfold visibleFunctions. rewrite in_map_iff. split.
  - intros [[f pos] [<- Hin]]. apply filter_In in Hin as [Hin Hb].
    apply andb_prop in Hb as [Hx Hs]. exists pos. now repeat split.
  - intros [pos (Hin & Hx & Hs)]. exists (func, pos). split; [reflexivity|].
    apply filter_In. split; [assumption|]. cbn [fst snd]. now rewrite Hx, Hs.
Qed.

(** C4 as stated fails: with the cluster of a.ts expanded and the view
    zoomed out to 0.5 (cutoff 70), a function of a.ts with significance 58
    that sits on the canvas is not drawn. *)
Lemma C4_counterexample :
  expandedFiles focusView <> [] /\
  hasFile (expandedFiles focusView) (fileName helperOfA) = true /\
  gtNum (px (posXY 100 100)) (-1000) = true /\
  ~ In helperOfA (drawnNodes focusView [helperOfA] [posXY 100 100]).
Proof.
  split; [discriminate|]. split; [reflexivity|]. split; [reflexivity|].
  vm_compute. intros [].
Qed.

(** C4, amended. With some cluster expanded, the detailed view draws a
    function exactly when its file is an expanded cluster, its position is
    on the canvas side of the off-canvas sentinel, and its significance (100
    when missing) is at least the cutoff of the current scale: the focus
    override selects files and leaves the significance filter in force. *)
Theorem C4_focus_keeps_significance_filter (vs : ViewState)
  (fns : list FunctionNode) (positions : list Position) (func : FunctionNode) :
  expandedFiles vs <> [] ->
  (In func (drawnNodes vs fns positions) <->
   hasFile (expandedFiles vs) (fileName func) = true /\
   meetsCutoff func (scale vs) = true /\
   exists pos, In (func, pos) (combine fns positions) /\
               gtNum (px pos) (-1000) = true).
Proof.
  intros Hexp. unfold drawnNodes. rewrite filter_In, In_visibleFunctions.
  assert (Hfiles : filesToShow vs = expandedFiles vs).
  { unfold filesToShow. destruct (expandedFiles vs); [contradiction | reflexivity]. }
  rewrite Hfiles. split.
  - intros [[pos (Hin & Hx & Hs)] Hfile].
    rewrite shouldShowFunction_filter in Hs. unfold fileFiltered in Hs.
    rewrite Hfile, andb_false_r in Hs.
    split; [assumption|]. split; [assumption|]. now exists pos.
  - intros (Hfile & Hcut & pos & Hin & Hx).
    split; [|assumption]. exists pos. repeat split; try assumption.
    rewrite shouldShowFunction_filter. unfold fileFiltered.
    now rewrite Hfile, andb_false_r.
Qed.

Lemma C4_focus_keeps_significance_filter_witness :
  In helperOfA
    (drawnNodes (mkViewState 1.0 true ["/ws/a.ts"] ["/ws/a.ts"; "/ws/b.ts"])
       [helperOfA] [posXY 100 100]) <->
  hasFile ["/ws/a.ts"] (fileName helperOfA) = true /\
  meetsCutoff helperOfA 1.0 = true /\
  exists pos, In (helperOfA, pos) (combine [helperOfA] [posXY 100 100]) /\
              gtNum (px pos) (-1000) = true.
Proof.
  apply (C4_focus_keeps_significance_filter
           (mkViewState 1.0 true ["/ws/a.ts"] ["/ws/a.ts"; "/ws/b.ts"])).
  discriminate.
Defined.

Lemma usable_not_fallback (pos : Position) :
  needsFallback pos = false -> usable (px pos) /\ usable (py pos).
Proof.
  unfold needsFallback, usable.
  destruct (px pos); destruct (py pos); simpl; intros H; try discriminate;
    repeat split; discriminate.
Qed.

Lemma fallback_within (c r : Q) :
  0 <= r -> r < 1 -> within 50 c (Num (c + (r - 0.5) * 100)).
Proof. intros H0 H1. unfold within. split; lra. Qed.

(** C9. Whatever a layout returns, after the validation loop no position
    has a NaN or undefined coordinate: a position that had one has both
    coordinates replaced by numbers within 50 of the canvas centre, and every
    other position is left as it was. *)
Theorem C9_positions_validated (rand : Random) (n : nat) (width height : Q)
  (positions : list Position) :
  (forall k, 0 <= rand k /\ rand k < 1) ->
  Forall (fun pos => usable (px pos) /\ usable (py pos))
    (fst (validatePositions rand n width height positions)) /\
  Forall2
    (fun pos pos' =>
       if needsFallback pos
       then within 50 (width / 2) (px pos') /\ within 50 (height / 2) (py pos')
       else pos' = pos)
    positions (fst (validatePositions rand n width height positions)).
Proof.
  intros Hrand. revert n.
  induction positions as [|pos positions IH]; intros n.
  - simpl. split; constructor.
  - cbn [validatePositions].
    destruct (needsFallback pos) eqn:E.
    + specialize (IH (S (S n))).
      destruct (validatePositions rand (S (S n)) width height positions)
        as [rest' n'].
      cbn [fst] in *. destruct IH as [IH1 IH2].
      destruct (Hrand n) as [Hn0 Hn1]. destruct (Hrand (S n)) as [Hs0 Hs1].
      split; constructor; try assumption.
      * cbn [px py]. unfold usable. repeat split; discriminate.
      * rewrite E. cbn [px py]. split; now apply fallback_within.
    + specialize (IH n).
      destruct (validatePositions rand n width height positions) as [rest' n'].
      cbn [fst] in *. destruct IH as [IH1 IH2].
      split; constructor; try assumption.
      * now apply usable_not_fallback.
      * now rewrite E.
Qed.

Lemma C9_positions_validated_witness :
  Forall (fun pos => usable (px pos) /\ usable (py pos))
    (fst (validatePositions halves 0 800 600
            [mkPosition NaN (Num 3) Undefined Undefined; posXY 10 20])) /\
  Forall2
    (fun pos pos' =>
       if needsFallback pos
       then within 50 (800 / 2) (px pos') /\ within 50 (600 / 2) (py pos')
       else pos' = pos)
    [mkPosition NaN (Num 3) Undefined Undefined; posXY 10 20]
    (fst (validatePositions halves 0 800 600
            [mkPosition NaN (Num 3) Undefined Undefined; posXY 10 20])).
Proof.
  apply (C9_positions_validated halves 0 800 600).
  intros k. unfold halves. split; discriminate || reflexivity.
Defined.

End Viewport.

(* ------------------------------------------------------------------ *)
(** ** The hierarchical layout: specified properties *)

Section Hierarchical.

Import Layout.
Local Open Scope Q_scope.

Lemma bandY_three_levels (height : Q) :
  bandY 2 0 height == 120 /\
  bandY 2 1 height == 120 + (1 # 2) * (height - 240) /\
  bandY 2 2 height == height - 120.
Proof.
  unfold bandY, verticalPadding, ofNat.
  cbn [Nat.ltb Nat.leb Z.of_nat Pos.of_succ_nat Pos.succ].
  change (inject_Z 0) with 0. change (inject_Z 1) with 1.
  change (inject_Z (Z.pos 2)) with 2.
  repeat split; field.
Qed.

(** The three bands are at three heights unless the canvas is exactly as
    high as the two vertical paddings. *)
Lemma bandY_distinct (height : Q) :
  ~ height == 240 ->
  ~ bandY 2 0 height == bandY 2 1 height /\
  ~ bandY 2 1 height == bandY 2 2 height /\
  ~ bandY 2 0 height == bandY 2 2 height.
Proof.
  intros H. destruct (bandY_three_levels height) as (E0 & E1 & E2).
  rewrite E0, E1, E2. repeat split; intros E; apply H; lra.
Qed.

Lemma half_on_canvas (width y : Q) :
  0 <= width -> gtNum (px (posXY (width / 2) y)) (-1000) = true.
Proof.
  intros H. cbn [px posXY gtNum].
  destruct (Qle_bool (width / 2) (-1000)) eqn:E; [|reflexivity].
  apply Qle_bool_iff in E.
  assert (Hhalf : width / 2 == width * (1 # 2)) by field.
  rewrite Hhalf in E. lra.
Qed.

Lemma excluded_off_canvas (positions : list Position) (i : nat) :
  excluded positions i -> onCanvas positions i = false.
Proof. unfold excluded, onCanvas. now intros ->. Qed.

Lemma on_canvas_not_excluded (positions : list Position) (i : nat) :
  onCanvas positions i = true -> ~ excluded positions i.
Proof.
  intros H Hex. apply excluded_off_canvas in Hex. congruence.
Qed.

Ltac compute_levels fns :=
  let v := eval vm_compute in (hierarchicalLevels fns) in
  change (hierarchicalLevels fns) with v.

Ltac layout_positions :=
  cbv beta iota;
  cbn [levels visited placeLevels initialPositions map fold_left maxLevelOf
       fst snd Nat.max List.length combine seq setAt includes existsb
       String.eqb Ascii.eqb Bool.eqb fi_name orb
       chainA chainB chainC isolatedD].

Ltac leveled_at :=
  unfold leveledAt; eexists; split;
  [ cbn [levels];
    first [ left; reflexivity
          | right; left; reflexivity
          | right; right; left; reflexivity ]
  | cbn [map fst]; left; reflexivity ].

Ltac not_leveled :=
  let level := fresh in
  let nodes := fresh in
  let Hin := fresh in
  let Hi := fresh in
  intros (level & nodes & Hin & Hi); cbn [levels In] in Hin;
  repeat (destruct Hin as [Hin | Hin];
          [injection Hin as <- <-; cbn [map fst In] in Hi;
           destruct Hi as [Hi | Hi]; [discriminate | contradiction] |]);
  contradiction.

Ltac chain_case width :=
  match goal with
  | |- context [hierarchicalLevels ?fns] =>
      unfold calculateHierarchicalLayout; compute_levels fns
  end;
  layout_positions;
  do 6 eexists;
  split; [reflexivity|];
  split; [reflexivity|];
  split; [vm_compute; reflexivity|];
  split; [vm_compute; reflexivity|];
  split; [vm_compute; reflexivity|];
  split; [vm_compute; reflexivity|];
  split; [leveled_at|];
  split; [leveled_at|];
  split; [leveled_at|];
  split; [reflexivity|];
  split; [reflexivity|];
  split; [reflexivity|];
  split; [not_leveled|];
  split; [reflexivity|];
  split; [reflexivity|];
  let i := fresh "i" in
  let Hi := fresh "Hi" in
  intros i Hi;
  destruct i as [|[|[|[|i]]]];
  [ | | | | cbn [List.length] in Hi; lia ];
  first
    [ right; split; [not_leveled | reflexivity]
    | left; split;
      [ first [ exists 0%nat; leveled_at
              | exists 1%nat; leveled_at
              | exists 2%nat; leveled_at ]
      | assert (Hon : forall y, gtNum (px (posXY (width / 2) y)) (-1000) = true)
          by (intros; now apply half_on_canvas);
        split; [apply on_canvas_not_excluded|];
        unfold onCanvas; cbn [nth_error]; apply Hon ] ].

Lemma insertions_In {A : Type} (a : A) (l1 l2 : list A) :
  In (l1 ++ a :: l2) (insertions a (l1 ++ l2)).
Proof.
  induction l1 as [|b l1 IH]; simpl.
  - destruct l2; now left.
  - right. now apply in_map.
Qed.

(** [orderings] lists every permutation. *)
Lemma orderings_complete {A : Type} (l l' : list A) :
  Permutation l l' -> In l' (orderings l).
Proof.
  revert l'. induction l as [|a l IH]; intros l' Hp.
  - apply Permutation_nil in Hp. subst. now left.
  - assert (Ha : In a l') by (apply (Permutation_in a Hp); now left).
    apply in_split in Ha as (l1 & l2 & ->).
    apply Permutation_cons_app_inv in Hp.
    simpl. apply in_flat_map. exists (l1 ++ l2). split.
    + now apply IH.
    + apply insertions_In.
Qed.

(** The layout of the chain with the isolated function, in any order of
    the array and on any canvas of non-negative width: levels, positions, and
    the leveled/excluded split. *)
Lemma chain_layout (fns : list FunctionInfo) (width height : Q) :
  In fns (orderings [chainA; chainB; chainC; isolatedD]) ->
  0 <= width ->
  exists st positions ia ib ic id,
    hierarchicalLevels fns = Some st /\
    calculateHierarchicalLayout fns width height = Some positions /\
    indexOfName "A" fns = Some ia /\
    indexOfName "B" fns = Some ib /\
    indexOfName "C" fns = Some ic /\
    indexOfName "D" fns = Some id /\
    leveledAt st ia 0 /\ leveledAt st ib 1 /\ leveledAt st ic 2 /\
    nth_error positions ia = Some (posXY (width / 2) (bandY 2 0 height)) /\
    nth_error positions ib = Some (posXY (width / 2) (bandY 2 1 height)) /\
    nth_error positions ic = Some (posXY (width / 2) (bandY 2 2 height)) /\
    ~ leveled st id /\
    excluded positions id /\
    onCanvas positions id = false /\
    (forall i, (i < List.length fns)%nat ->
       (leveled st i /\ ~ excluded positions i /\ onCanvas positions i = true) \/
       (~ leveled st i /\ excluded positions i)).
Proof.
  intros Hin Hw.
  cbn [orderings insertions flat_map map app In] in Hin.
  repeat (destruct Hin as [Hin | Hin]; [subst fns; chain_case width |]).
  contradiction.
Qed.

(** C8 as stated fails on a canvas of height 240: the three levels are
    there, but their bands are all at height 120. *)
Lemma C8_counterexample :
  exists positions,
    calculateHierarchicalLayout [chainA; chainB; chainC; isolatedD] 800 240
      = Some positions /\
    nth_error positions 0 = Some (posXY (800 / 2) (bandY 2 0 240)) /\
    nth_error positions 1 = Some (posXY (800 / 2) (bandY 2 1 240)) /\
    nth_error positions 2 = Some (posXY (800 / 2) (bandY 2 2 240)) /\
    bandY 2 0 240 == 120 /\ bandY 2 1 240 == 120 /\ bandY 2 2 240 == 120.
Proof.
  eexists. split; [reflexivity|].
  repeat (split; [reflexivity|]). reflexivity.
Qed.

(** C8, amended. For the chain A -> B -> C with the isolated D, in any
    order of the array, on a canvas of non-negative width whose height is not
    240: A, B and C are at the levels 0, 1 and 2, each centred in the band of
    its level, the three bands being at three different heights; D is in no
    level, sits at the off-canvas position and fails the renderers' test; and
    every function is either leveled and on the canvas, or not leveled and
    excluded. *)
Theorem C8_chain_layout (fns : list FunctionInfo) (width height : Q) :
  Permutation [chainA; chainB; chainC; isolatedD] fns ->
  0 <= width -> ~ height == 240 ->
  (exists st positions ia ib ic id,
    hierarchicalLevels fns = Some st /\
    calculateHierarchicalLayout fns width height = Some positions /\
    indexOfName "A" fns = Some ia /\
    indexOfName "B" fns = Some ib /\
    indexOfName "C" fns = Some ic /\
    indexOfName "D" fns = Some id /\
    leveledAt st ia 0 /\ leveledAt st ib 1 /\ leveledAt st ic 2 /\
    nth_error positions ia = Some (posXY (width / 2) (bandY 2 0 height)) /\
    nth_error positions ib = Some (posXY (width / 2) (bandY 2 1 height)) /\
    nth_error positions ic = Some (posXY (width / 2) (bandY 2 2 height)) /\
    ~ leveled st id /\
    excluded positions id /\
    onCanvas positions id = false /\
    (forall i, (i < List.length fns)%nat ->
       (leveled st i /\ ~ excluded positions i /\ onCanvas positions i = true) \/
       (~ leveled st i /\ excluded positions i))) /\
  ~ bandY 2 0 height == bandY 2 1 height /\
  ~ bandY 2 1 height == bandY 2 2 height /\
  ~ bandY 2 0 height == bandY 2 2 height.
Proof.
  intros Hperm Hw Hh. split.
  - apply chain_layout; [now apply orderings_complete | exact Hw].
  - now apply bandY_distinct.
Qed.

Lemma C8_chain_layout_witness :
  (exists st positions ia ib ic id,
    hierarchicalLevels [isolatedD; chainC; chainB; chainA] = Some st /\
    calculateHierarchicalLayout [isolatedD; chainC; chainB; chainA] 800 600
      = Some positions /\
    indexOfName "A" [isolatedD; chainC; chainB; chainA] = Some ia /\
    indexOfName "B" [isolatedD; chainC; chainB; chainA] = Some ib /\
    indexOfName "C" [isolatedD; chainC; chainB; chainA] = Some ic /\
    indexOfName "D" [isolatedD; chainC; chainB; chainA] = Some id /\
    leveledAt st ia 0 /\ leveledAt st ib 1 /\ leveledAt st ic 2 /\
    nth_error positions ia = Some (posXY (800 / 2) (bandY 2 0 600)) /\
    nth_error positions ib = Some (posXY (800 / 2) (bandY 2 1 600)) /\
    nth_error positions ic = Some (posXY (800 / 2) (bandY 2 2 600)) /\
    ~ leveled st id /\
    excluded positions id /\
    onCanvas positions id = false /\
    (forall i, (i < List.length [isolatedD; chainC; chainB; chainA])%nat ->
       (leveled st i /\ ~ excluded positions i /\ onCanvas positions i = true) \/
       (~ leveled st i /\ excluded positions i))) /\
  ~ bandY 2 0 600 == bandY 2 1 600 /\
  ~ bandY 2 1 600 == bandY 2 2 600 /\
  ~ bandY 2 0 600 == bandY 2 2 600.
Proof.
  apply (C8_chain_layout [isolatedD; chainC; chainB; chainA] 800 600).
  - apply Permutation_rev.
  - discriminate.
  - discriminate.
Defined.

End Hierarchical.

(* ------------------------------------------------------------------ *)
(** ** The hierarchical layout on every input *)

Section HierarchicalSteps.

Import Layout LayoutSteps.

Lemma includes_setAdd (s : list string) (x y : string) :
  includes (setAdd s x) y = includes s y || String.eqb y x.
Proof.
  unfold setAdd. destruct (includes s x) eqn:E.
  - destruct (String.eqb y x) eqn:Ey; [|now rewrite orb_false_r].
    apply String.eqb_eq in Ey. subst. now rewrite E.
  - unfold includes. rewrite existsb_app. simpl. now rewrite orb_false_r.
Qed.

Lemma findByName_In nodes c n : findByName nodes c = Some n -> In n nodes.
Proof. unfold findByName. intros H. now apply find_some in H. Qed.

Lemma unvisitedCount_le nodes seen : (unvisitedCount nodes seen <= List.length nodes)%nat.
Proof. unfold unvisitedCount. apply filter_length_le. Qed.

Lemma In_setAdd s x y : In y (setAdd s x) <-> In y s \/ y = x.
Proof.
  rewrite <- !includes_In, includes_setAdd. rewrite orb_true_iff, String.eqb_eq. tauto.
Qed.

Lemma filter_length_mono {A : Type} (p q : A -> bool) (l : list A) :
  (forall a, q a = true -> p a = true) ->
  (List.length (filter q l) <= List.length (filter p l))%nat.
Proof.
  intros H. induction l as [|a l IH]; simpl; [lia|].
  destruct (q a) eqn:Eq.
  - rewrite (H a Eq). simpl. lia.
  - destruct (p a); simpl; lia.
Qed.

Lemma filter_length_drop {A : Type} (p q : A -> bool) (l : list A) (x : A) :
  (forall a, q a = true -> p a = true) ->
  In x l -> p x = true -> q x = false ->
  (List.length (filter q l) < List.length (filter p l))%nat.
Proof.
  intros H Hin Hp Hq. induction l as [|a l IH]; [destruct Hin|].
  simpl. destruct Hin as [-> | Hin].
  - rewrite Hp, Hq. simpl. pose proof (filter_length_mono p q l H). lia.
  - specialize (IH Hin). destruct (q a) eqn:Eq.
    + rewrite (H a Eq). simpl. lia.
    + destruct (p a); simpl; lia.
Qed.

Lemma unvisitedCount_mono nodes seen seen' :
  (forall x, In x seen -> In x seen') ->
  (unvisitedCount nodes seen' <= unvisitedCount nodes seen)%nat.
Proof.
  intros H. unfold unvisitedCount. apply filter_length_mono.
  intros a Ha. apply negb_true_iff in Ha. apply negb_true_iff.
  apply includes_not_In. apply includes_not_In in Ha. auto.
Qed.

Lemma unvisitedCount_setAdd nodes seen node :
  In node nodes -> includes seen (fi_name (snd node)) = false ->
  (unvisitedCount nodes (setAdd seen (fi_name (snd node))) < unvisitedCount nodes seen)%nat.
Proof.
  intros Hin Hout. unfold unvisitedCount.
  apply (filter_length_drop _ _ nodes node); [|assumption| |].
  - intros a Ha. apply negb_true_iff in Ha. apply negb_true_iff.
    rewrite includes_setAdd in Ha. now apply orb_false_elim in Ha as [Ha _].
  - now rewrite Hout.
  - now rewrite includes_setAdd, String.eqb_refl, orb_true_r.
Qed.

(** [getMaxDepth] never exhausts its fuel. *)
Lemma getMaxDepth_total fuel nodes node seen :
  In node nodes ->
  (unvisitedCount nodes seen < fuel)%nat ->
  exists d, getMaxDepth fuel nodes node seen = Some d.
Proof.
  revert node seen. induction fuel as [|fuel IH]; intros node seen Hin Hlt; [lia|].
  cbn [getMaxDepth].
  destruct (includes seen (fi_name (snd node))) eqn:E; [now exists 0%nat|].
  destruct (Nat.eqb (List.length (fi_calls (snd node))) 0); [now exists 0%nat|].
  pose proof (unvisitedCount_setAdd nodes seen node Hin E) as Hdec.
  set (seen' := setAdd seen (fi_name (snd node))) in *.
  assert (Hfold : forall cs m, exists d,
    fold_left
      (fun acc calledName =>
         match acc with
         | None => None
         | Some maxDepth =>
             match findByName nodes calledName with
             | Some called =>
                 match getMaxDepth fuel nodes called seen' with
                 | Some depth => Some (Nat.max maxDepth (depth + 1))
                 | None => None
                 end
             | None => Some maxDepth
             end
         end) cs (Some m) = Some d).
  { induction cs as [|c cs IHcs]; intros m; [now exists m|].
    cbn [fold_left]. destruct (findByName nodes c) as [called|] eqn:Ef; [|apply IHcs].
    destruct (IH called seen' (findByName_In _ _ _ Ef)) as [d Hd]; [lia|].
    rewrite Hd. apply IHcs. }
  apply Hfold.
Qed.

Lemma pendingCalls_cons nd nodes seen :
  pendingCalls (nd :: nodes) seen =
  ((if includes seen (fi_name (snd nd)) then 0 else List.length (fi_calls (snd nd)))
   + pendingCalls nodes seen)%nat.
Proof.
  unfold pendingCalls. simpl. destruct (includes seen (fi_name (snd nd))); reflexivity.
Qed.

Lemma pendingCalls_mono nodes seen x :
  (pendingCalls nodes (setAdd seen x) <= pendingCalls nodes seen)%nat.
Proof.
  induction nodes as [|nd nodes IH]; [reflexivity|].
  rewrite !pendingCalls_cons, includes_setAdd.
  destruct (includes seen (fi_name (snd nd))); simpl; [lia|].
  destruct (String.eqb (fi_name (snd nd)) x); lia.
Qed.

Lemma pendingCalls_setAdd nodes seen node :
  In node nodes -> includes seen (fi_name (snd node)) = false ->
  (pendingCalls nodes (setAdd seen (fi_name (snd node)))
   + List.length (fi_calls (snd node)) <= pendingCalls nodes seen)%nat.
Proof.
  intros Hin Hout. induction nodes as [|nd nodes IH]; [destruct Hin|].
  rewrite !pendingCalls_cons, includes_setAdd.
  destruct Hin as [-> | Hin].
  - rewrite Hout, String.eqb_refl. simpl.
    pose proof (pendingCalls_mono nodes seen (fi_name (snd node))). lia.
  - specialize (IH Hin).
    destruct (includes seen (fi_name (snd nd))); simpl; [lia|].
    destruct (String.eqb (fi_name (snd nd)) (fi_name (snd node))); lia.
Qed.

Lemma totalCalls_pending nodes : totalCalls nodes = pendingCalls nodes [].
Proof.
  unfold totalCalls, pendingCalls.
  assert (H : forall n, fold_left (fun n0 node => (n0 + List.length (fi_calls (snd node)))%nat) nodes n
             = (n + list_sum (map (fun nd => List.length (fi_calls (snd nd))) nodes))%nat).
  { induction nodes as [|nd nodes IH]; intros n; simpl; [lia|]. rewrite IH. lia. }
  rewrite H.
  assert (Hf : filter (fun nd : nat * FunctionInfo => negb (includes [] (fi_name (snd nd)))) nodes = nodes).
  { clear H. induction nodes as [|nd nodes IH]; [reflexivity|].
    cbn [filter]. change (includes [] (fi_name (snd nd))) with false.
    cbn [negb]. now rewrite IH. }
  rewrite Hf. reflexivity.
Qed.

(** The pushes of one iteration of the chain walk. *)
Lemma chain_pushes nodes seen cs stack :
  let stack' := fold_left
    (fun stack calledName =>
       match findByName nodes calledName with
       | Some called => if includes seen (fi_name (snd called)) then stack else called :: stack
       | None => stack
       end) cs stack in
  (List.length stack' <= List.length stack + List.length cs)%nat /\
  ((forall n, In n stack -> In n nodes) -> forall n, In n stack' -> In n nodes).
Proof.
  revert stack. induction cs as [|c cs IH]; intros stack; cbn [fold_left].
  - split; [simpl; lia | auto].
  - destruct (findByName nodes c) as [called|] eqn:Ef.
    + destruct (includes seen (fi_name (snd called))).
      * destruct (IH stack) as [H1 H2]. split; [simpl; lia | exact H2].
      * destruct (IH (called :: stack)) as [H1 H2]. split; [simpl in *; lia|].
        intros Hs. apply H2. intros n [<- | Hn]; [now apply findByName_In in Ef | auto].
    + destruct (IH stack) as [H1 H2]. split; [simpl; lia | exact H2].
Qed.

Lemma walkChain_total fuel nodes toVisit seen meaningful :
  (forall n, In n toVisit -> In n nodes) ->
  (List.length toVisit + pendingCalls nodes seen < fuel)%nat ->
  exists r, walkChain fuel nodes toVisit seen meaningful = Some r.
Proof.
  revert toVisit seen meaningful.
  induction fuel as [|fuel IH]; intros toVisit seen meaningful Hin Hlt; [lia|].
  cbn [walkChain]. destruct toVisit as [|current rest]; [now eexists|].
  destruct (includes seen (fi_name (snd current))) eqn:E.
  - apply IH; [intros; apply Hin; now right | simpl in Hlt; lia].
  - assert (Hc : In current nodes) by (apply Hin; now left).
    pose proof (pendingCalls_setAdd nodes seen current Hc E) as Hp.
    destruct (chain_pushes nodes (setAdd seen (fi_name (snd current)))
                (fi_calls (snd current)) rest) as [Hlen Hmem].
    cbv zeta in Hlen, Hmem.
    apply IH.
    + apply Hmem. intros; apply Hin; now right.
    + simpl in Hlt. lia.
Qed.

Lemma findMeaningful_total nodes : exists m, findMeaningful nodes = Some m.
Proof.
  unfold findMeaningful.
  assert (H : forall l m, (forall n, In n l -> In n nodes) -> exists r,
    fold_left
      (fun acc func =>
         match acc with
         | None => None
         | Some meaningfulNodes =>
             match getMaxDepth (S (S (List.length nodes))) nodes func [] with
             | None => None
             | Some depth =>
                 if Nat.leb 2 depth || Nat.leb 2 (List.length (fi_calledBy (snd func)))
                 then walkChain (S (S (totalCalls nodes))) nodes [func] []
                        (setAdd meaningfulNodes (fi_name (snd func)))
                 else Some meaningfulNodes
             end
         end) l (Some m) = Some r).
  { induction l as [|func l IH]; intros m Hl; [now eexists|].
    cbn [fold_left].
    destruct (getMaxDepth_total (S (S (List.length nodes))) nodes func [])
      as [d Hd]; [apply Hl; now left | pose proof (unvisitedCount_le nodes []); lia |].
    rewrite Hd.
    destruct (Nat.leb 2 d || Nat.leb 2 (List.length (fi_calledBy (snd func)))).
    - destruct (walkChain_total (S (S (totalCalls nodes))) nodes [func] []
                  (setAdd m (fi_name (snd func)))) as [r Hr].
      + intros n [<- | []]. apply Hl. now left.
      + rewrite totalCalls_pending. simpl. lia.
      + rewrite Hr. apply IH. intros; apply Hl; now right.
    - apply IH. intros; apply Hl; now right. }
  apply H. auto.
Qed.

(** ** Levels *)

Lemma allLeveled_push lv level node :
  Permutation (allLeveled (levelsPush lv level node)) (node :: allLeveled lv).
Proof.
  unfold allLeveled. induction lv as [|[l ns] lv IH]; cbn [levelsPush flat_map snd].
  - simpl. apply Permutation_refl.
  - destruct (Nat.eqb l level); cbn [flat_map snd].
    + rewrite <- app_assoc. simpl. apply Permutation_sym, Permutation_middle.
    + apply Permutation_trans with (ns ++ node :: flat_map snd lv).
      * now apply Permutation_app_head.
      * apply Permutation_sym, Permutation_middle.
Qed.

Lemma LevelInv_push toDisplay st node level :
  In node toDisplay -> includes (visited st) (nodeName node) = false ->
  LevelInv toDisplay st ->
  LevelInv toDisplay
    (mkLevelState (setAdd (visited st) (nodeName node))
       (levelsPush (levels st) level node)).
Proof.
  intros Hin Hout (Hnd & Hperm & Hsub). unfold LevelInv. cbn [visited levels].
  unfold setAdd. rewrite Hout. pose proof Hout as Hni. apply includes_not_In in Hni.
  split; [|split].
  - apply NoDup_app; [assumption | repeat constructor; intros [] |].
    intros a Ha [<- | []]. contradiction.
  - apply Permutation_trans with (nodeName node :: visited st).
    + apply Permutation_sym, Permutation_cons_append.
    + apply Permutation_trans with (map nodeName (node :: allLeveled (levels st))).
      * simpl. now apply perm_skip.
      * apply Permutation_map, Permutation_sym, allLeveled_push.
  - intros n Hn. apply (Permutation_in _ (allLeveled_push _ _ _)) in Hn.
    destruct Hn as [<- | Hn]; auto.
Qed.

Lemma assignLevels_spec fuel toDisplay node level st :
  In node toDisplay ->
  (unvisitedCount toDisplay (visited st) < fuel)%nat ->
  LevelInv toDisplay st ->
  exists st', assignLevels fuel toDisplay node level st = Some st' /\
    LevelInv toDisplay st' /\
    (forall x, In x (visited st) -> In x (visited st')).
Proof.
  revert node level st. induction fuel as [|fuel IH]; intros node level st Hin Hlt Hinv; [lia|].
  cbn [assignLevels]. fold (nodeName node).
  destruct (includes (visited st) (nodeName node)) eqn:E; [exists st; auto|].
  set (st1 := mkLevelState (setAdd (visited st) (nodeName node))
                (levelsPush (levels st) level node)).
  assert (Hinv1 : LevelInv toDisplay st1) by (now apply LevelInv_push).
  assert (Hlt1 : (unvisitedCount toDisplay (visited st1) < fuel)%nat).
  { pose proof (unvisitedCount_setAdd toDisplay (visited st) node Hin E). simpl. 
    unfold nodeName. lia. }
  assert (Hsub1 : forall x, In x (visited st) -> In x (visited st1)).
  { intros x Hx. simpl. apply In_setAdd. now left. }
  clearbody st1.
  assert (Hfold : forall cs s, LevelInv toDisplay s ->
            (unvisitedCount toDisplay (visited s) < fuel)%nat ->
            exists st', fold_left
              (fun acc calledName =>
                 match acc with
                 | None => None
                 | Some st0 =>
                     match findByName toDisplay calledName with
                     | Some called => assignLevels fuel toDisplay called (level + 1) st0
                     | None => Some st0
                     end
                 end) cs (Some s) = Some st' /\
              LevelInv toDisplay st' /\
              (forall x, In x (visited s) -> In x (visited st'))).
  { induction cs as [|c cs IHcs]; intros s Hs Hls; [exists s; auto|].
    cbn [fold_left]. destruct (findByName toDisplay c) as [called|] eqn:Ef.
    - destruct (IH called (level + 1)%nat s (findByName_In _ _ _ Ef) Hls Hs)
        as (s' & -> & Hs' & Hsub').
      destruct (IHcs s' Hs') as (s'' & Hr & Hs'' & Hsub'').
      + pose proof (unvisitedCount_mono toDisplay _ _ Hsub'). lia.
      + exists s''. auto.
    - now apply IHcs. }
  destruct (Hfold (fi_calls (snd node)) st1 Hinv1 Hlt1) as (st' & Hr & Hinv' & Hsub').
  exists st'. auto.
Qed.

Lemma findRoots_incl toDisplay meaningful n :
  In n (findRoots toDisplay meaningful) -> In n toDisplay.
Proof.
  unfold findRoots.
  match goal with
  | |- context [filter ?p toDisplay] => set (roots := filter p toDisplay)
  end.
  assert (Hr : forall x, In x roots -> In x toDisplay)
    by (intros x Hx; now apply filter_In in Hx).
  clearbody roots. intros H. destruct roots as [|r rs]; [|now apply Hr].
  destruct toDisplay as [|first rest]; [destruct H|].
  destruct H as [<- | []]. now left.
Qed.

Lemma functionsToDisplay_incl nodes meaningful n :
  In n (functionsToDisplay nodes meaningful) -> In n nodes.
Proof.
  unfold functionsToDisplay. destruct (Nat.ltb 0 _); intros H; now apply filter_In in H.
Qed.

Lemma incl_length_filter {A : Type} (p : A -> bool) (l : list A) :
  (List.length (filter p l) <= List.length l)%nat.
Proof. apply filter_length_le. Qed.

Lemma functionsToDisplay_length nodes meaningful :
  (List.length (functionsToDisplay nodes meaningful) <= List.length nodes)%nat.
Proof.
  unfold functionsToDisplay. destruct (Nat.ltb 0 _); apply filter_length_le.
Qed.

(** The level assignment returns for every input, and what it returns. *)
Lemma hierarchicalLevels_spec (fns : list FunctionInfo) :
  exists m st, findMeaningful (indexed fns) = Some m /\
    hierarchicalLevels fns = Some st /\
    NoDup (visited st) /\
    Permutation (visited st) (map nodeName (allLeveled (levels st))) /\
    (forall n, In n (allLeveled (levels st)) ->
       In n (functionsToDisplay (indexed fns) (addCallers (indexed fns) m))) /\
    (forall n, In n (allLeveled (levels st)) -> In n (indexed fns)).
Proof.
  unfold hierarchicalLevels.
  destruct (findMeaningful_total (indexed fns)) as [m Hm]. rewrite Hm.
  exists m.
  set (nodes := indexed fns).
  set (mn := addCallers nodes m).
  set (toDisplay := functionsToDisplay nodes mn).
  assert (Hgen : forall roots s, (forall n, In n roots -> In n toDisplay) ->
            LevelInv toDisplay s ->
            exists st', fold_left
              (fun acc root =>
                 match acc with
                 | None => None
                 | Some st0 =>
                     assignLevels (S (S (List.length nodes))) toDisplay root 0 st0
                 end) roots (Some s) = Some st' /\ LevelInv toDisplay st').
  { induction roots as [|r roots IH]; intros s Hr Hs; [exists s; auto|].
    cbn [fold_left].
    destruct (assignLevels_spec (S (S (List.length nodes))) toDisplay r 0 s)
      as (s' & -> & Hs' & _); [apply Hr; now left | | exact Hs |].
    - pose proof (unvisitedCount_le toDisplay (visited s)).
      pose proof (functionsToDisplay_length nodes mn). fold toDisplay in H0. lia.
    - apply IH; [intros; apply Hr; now right | exact Hs']. }
  destruct (Hgen (findRoots toDisplay mn) (mkLevelState [] [])) as (st & Hst & Hnd & Hperm & Hsub).
  - intros n Hn. now apply findRoots_incl in Hn.
  - repeat split; simpl; [constructor | constructor | intros n []].
  - exists st. repeat split; try assumption.
    intros n Hn. apply Hsub in Hn. now apply functionsToDisplay_incl in Hn.
Qed.

(** ** Positions *)
Local Open Scope Q_scope.

Lemma placeLevels_writes lv width height positions :
  placeLevels lv width height positions =
  applyWrites
    (levelWrites (fun n i => nodeX n i width)
       (fun l _ => bandY (maxLevelOf lv) l height) lv) positions.
Proof.
  unfold placeLevels, applyWrites, levelWrites.
  rewrite fold_left_flat_map. apply fold_left_ext_in. intros ps e _.
  now rewrite fold_left_map.
Qed.

Lemma placeLevelsWebview_writes lv width height positions :
  LayoutWebview.placeLevels lv width height positions =
  applyWrites
    (levelWrites (fun n i => LayoutWebview.nodeX n i width)
       (fun l _ => LayoutWebview.bandY (maxLevelOf lv) l height) lv) positions.
Proof.
  unfold LayoutWebview.placeLevels, applyWrites, levelWrites.
  rewrite fold_left_flat_map. apply fold_left_ext_in. intros ps e _.
  now rewrite fold_left_map.
Qed.

Lemma length_setAt i p l : List.length (setAt i p l) = List.length l.
Proof.
  revert i. induction l as [|q l IH]; intros i; [now destruct i|].
  destruct i; simpl; [reflexivity | now rewrite IH].
Qed.

Lemma nth_error_setAt_same i p l :
  (i < List.length l)%nat -> nth_error (setAt i p l) i = Some p.
Proof.
  revert i. induction l as [|q l IH]; intros i H; [simpl in H; lia|].
  destruct i; simpl; [reflexivity|]. apply IH. simpl in H. lia.
Qed.

Lemma nth_error_setAt_other i j p l :
  i <> j -> nth_error (setAt j p l) i = nth_error l i.
Proof.
  revert i j. induction l as [|q l IH]; intros i j H; [now destruct j|].
  destruct j, i; simpl; try reflexivity; try lia. apply IH. lia.
Qed.

Lemma length_applyWrites ws positions :
  List.length (applyWrites ws positions) = List.length positions.
Proof.
  unfold applyWrites. revert positions.
  induction ws as [|w ws IH]; intros ps; [reflexivity|].
  simpl. now rewrite IH, length_setAt.
Qed.

(** An index that is never written keeps its position. *)
Lemma applyWrites_untouched ws positions i :
  ~ In i (map fst ws) ->
  nth_error (applyWrites ws positions) i = nth_error positions i.
Proof.
  unfold applyWrites. revert positions.
  induction ws as [|w ws IH]; intros ps H; [reflexivity|].
  simpl. rewrite IH by (intros Hi; apply H; now right).
  apply nth_error_setAt_other. intros ->. apply H. now left.
Qed.

(** An index that is written holds one of the positions written there. *)
Lemma applyWrites_written ws positions i :
  In i (map fst ws) -> (i < List.length positions)%nat ->
  exists p, In (i, p) ws /\ nth_error (applyWrites ws positions) i = Some p.
Proof.
  unfold applyWrites. revert positions.
  induction ws as [|[j q] ws IH]; intros ps Hin Hlt; [destruct Hin|].
  cbn [fold_left fst snd].
  destruct (in_dec Nat.eq_dec i (map fst ws)) as [Hlater | Hnot].
  - destruct (IH (setAt j q ps) Hlater) as (p & Hp & Hn);
      [now rewrite length_setAt|].
    exists p. split; [now right | exact Hn].
  - destruct Hin as [Hij | Hin]; [|contradiction]. cbn [fst] in Hij. subst j.
    exists q. split; [now left|].
    fold (applyWrites ws (setAt i q ps)).
    rewrite applyWrites_untouched by assumption.
    now apply nth_error_setAt_same.
Qed.

Lemma combine_seq_nodes {A : Type} (s : nat) (l : list A) (i : nat) (a : A) :
  In (i, a) (combine (seq s (List.length l)) l) <->
  (s <= i)%nat /\ nth_error l (i - s) = Some a.
Proof.
  revert s. induction l as [|b l IH]; intros s; simpl.
  - split; [intros [] | intros [_ H]]. destruct (i - s)%nat; discriminate.
  - rewrite IH. split.
    + intros [[= <- <-] | [Hle Hn]].
      * split; [lia|]. now rewrite Nat.sub_diag.
      * split; [lia|]. replace (i - s)%nat with (S (i - S s)) by lia. exact Hn.
    + intros [Hle Hn]. destruct (Nat.eq_dec s i) as [-> | Hne].
      * rewrite Nat.sub_diag in Hn. injection Hn as ->. now left.
      * right. split; [lia|]. replace (i - s)%nat with (S (i - S s)) in Hn by lia.
        exact Hn.
Qed.

Lemma indexed_In fns i f :
  In (i, f) (indexed fns) <-> nth_error fns i = Some f.
Proof.
  unfold indexed. rewrite combine_seq_nodes, Nat.sub_0_r. intuition lia.
Qed.

Lemma map_snd_combine_seq {A : Type} (s : nat) (l : list A) :
  map snd (combine (seq s (List.length l)) l) = l.
Proof.
  revert s. induction l as [|a l IH]; intros s; simpl; [reflexivity|].
  now rewrite IH.
Qed.

Lemma levelWrites_indices xf yf lv :
  map fst (levelWrites xf yf lv) = map fst (allLeveled lv).
Proof.
  unfold levelWrites, allLeveled.
  induction lv as [|[l ns] lv IH]; [reflexivity|].
  cbn [flat_map fst snd]. rewrite !map_app, IH. f_equal.
  rewrite map_map. cbn [fst].
  rewrite <- (map_snd_combine_seq 0 ns) at 3. now rewrite map_map.
Qed.

Lemma levelWrites_In xf yf lv i p :
  In (i, p) (levelWrites xf yf lv) ->
  exists l ns idx node,
    In (l, ns) lv /\ nth_error ns idx = Some node /\ fst node = i /\
    p = posXY (xf (List.length ns) idx) (yf l idx).
Proof.
  unfold levelWrites. intros H. apply in_flat_map in H as [[l ns] [Hl H]].
  apply in_map_iff in H as [[idx node] [Heq Hin]]. cbn [fst snd] in *.
  apply combine_seq_nodes in Hin as [_ Hn]. rewrite Nat.sub_0_r in Hn.
  injection Heq as <- <-. exists l, ns, idx, node. auto.
Qed.

Lemma ofNat_nonneg n : 0 <= ofNat n.
Proof. unfold ofNat. change 0 with (inject_Z 0). rewrite <- Zle_Qle. lia. Qed.

Lemma ofNat_le a b : (a <= b)%nat -> ofNat a <= ofNat b.
Proof. intros H. unfold ofNat. rewrite <- Zle_Qle. lia. Qed.

Lemma ofNat_pos n : (0 < n)%nat -> 0 < ofNat n.
Proof. intros H. unfold ofNat. change 0 with (inject_Z 0). rewrite <- Zlt_Qlt. lia. Qed.

(** A fraction [t / k] of a span lies within the span. *)
Lemma fraction_of_span (t k span : Q) :
  0 <= t -> t <= k -> 0 < k ->
  (0 <= span -> 0 <= t / k * span /\ t / k * span <= span) /\
  (span <= 0 -> span <= t / k * span /\ t / k * span <= 0).
Proof.
  intros Ht Htk Hk.
  assert (Hr0 : 0 <= t / k).
  { apply Qle_shift_div_l; [assumption | lra]. }
  assert (Hr1 : t / k <= 1).
  { apply Qle_shift_div_r; [assumption | lra]. }
  set (r := t / k) in *. clearbody r.
  split; intros Hs; split; nra.
Qed.

Lemma qmin_cases a b : (qmin a b = a /\ a <= b) \/ (qmin a b = b /\ b < a).
Proof.
  unfold qmin. destruct (Qle_bool a b) eqn:E.
  - left. split; [reflexivity | now apply Qle_bool_iff].
  - right. split; [reflexivity|]. apply Qnot_le_lt. intros H.
    apply Qle_bool_iff in H. congruence.
Qed.

Lemma nodeX_bounds (n idx : nat) (width : Q) :
  (idx < n)%nat ->
  (0 <= width -> -150 <= nodeX n idx width) /\
  (300 <= width -> 150 <= nodeX n idx width /\ nodeX n idx width <= width - 150).
Proof.
  intros Hidx. unfold nodeX, horizontalPadding.
  destruct (Nat.eqb n 1) eqn:E1.
  - assert (Hh : width / 2 == width * (1#2)) by field.
    rewrite Hh. split; intros; [|split]; lra.
  - apply Nat.eqb_neq in E1.
    set (k := ofNat (n - 1)). set (t := ofNat idx).
    assert (Hk : 0 < k) by (apply ofNat_pos; lia).
    assert (Ht : 0 <= t) by apply ofNat_nonneg.
    assert (Htk : t <= k) by (apply ofNat_le; lia).
    set (aw := width - 2 * 150).
    destruct (qmin_cases 250 (aw / k)) as [[-> Hle] | [-> Hlt]].
    + assert (Hk250 : 250 * k <= aw).
      { apply (Qmult_le_r _ _ k Hk) in Hle. 
        assert (E : aw / k * k == aw) by (field; lra). rewrite E in Hle. exact Hle. }
      assert (Hh : (width - 250 * k) / 2 + 250 * t == (width - 250 * k) * (1#2) + 250 * t) by field.
      rewrite Hh. unfold aw in *. split; intros; [|split]; nra.
    + assert (E : aw / k * k == aw) by (field; lra).
      assert (Hh : (width - aw / k * k) / 2 + aw / k * t == 150 + t / k * aw).
      { rewrite E. unfold aw. field. lra. }
      rewrite Hh.
      destruct (fraction_of_span t k aw Ht Htk Hk) as [Hpos Hneg].
      unfold aw in *. split.
      * intros Hw. destruct (Qlt_le_dec (width - 2 * 150) 0) as [Hn | Hp].
        -- destruct Hneg as [H1 H2]; lra.
        -- destruct (Hpos Hp); lra.
      * intros Hw. destruct Hpos as [H1 H2]; [lra|]. split; lra.
Qed.

Lemma bandY_bounds (maxLevel level : nat) (height : Q) :
  (level <= maxLevel)%nat -> 240 <= height ->
  120 <= bandY maxLevel level height /\ bandY maxLevel level height <= height - 120.
Proof.
  intros Hl Hh. unfold bandY, verticalPadding.
  destruct (Nat.ltb 0 maxLevel) eqn:E.
  - apply Nat.ltb_lt in E.
    destruct (fraction_of_span (ofNat level) (ofNat maxLevel) (height - 2 * 120))
      as [Hpos _]; [apply ofNat_nonneg | now apply ofNat_le | now apply ofNat_pos |].
    destruct Hpos; [lra|]. split; lra.
  - assert (Hx : height / 2 == height * (1#2)) by field. rewrite Hx. split; lra.
Qed.

Lemma webNodeX_bounds (n idx : nat) (width : Q) :
  (idx < n)%nat ->
  (0 <= width -> -50 <= LayoutWebview.nodeX n idx width) /\
  (100 <= width -> 50 <= LayoutWebview.nodeX n idx width /\ LayoutWebview.nodeX n idx width <= width - 50).
Proof.
  intros Hidx. unfold LayoutWebview.nodeX.
  destruct (Nat.ltb 1 n) eqn:E1.
  - apply Nat.ltb_lt in E1.
    destruct (fraction_of_span (ofNat idx) (ofNat (n - 1)) (width - 100))
      as [Hpos Hneg]; [apply ofNat_nonneg | apply ofNat_le; lia | apply ofNat_pos; lia |].
    split.
    + intros Hw. destruct (Qlt_le_dec (width - 100) 0) as [Hn | Hp].
      * destruct Hneg; lra.
      * destruct (Hpos Hp); lra.
    + intros Hw. destruct Hpos; [lra|]. split; lra.
  - assert (Hx : width / 2 == width * (1#2)) by field. rewrite Hx.
    split; intros; [|split]; lra.
Qed.

Lemma webBandY_bounds (maxLevel level : nat) (height : Q) :
  (level <= maxLevel)%nat -> 100 <= height ->
  50 <= LayoutWebview.bandY maxLevel level height /\ LayoutWebview.bandY maxLevel level height <= height - 50.
Proof.
  intros Hl Hh. unfold LayoutWebview.bandY.
  destruct (Nat.ltb 0 maxLevel) eqn:E.
  - apply Nat.ltb_lt in E.
    destruct (fraction_of_span (ofNat level) (ofNat maxLevel) (height - 100))
      as [Hpos _]; [apply ofNat_nonneg | now apply ofNat_le | now apply ofNat_pos |].
    destruct Hpos; [lra|]. split; lra.
  - assert (Hx : height / 2 == height * (1#2)) by field. rewrite Hx. split; lra.
Qed.

Lemma maxLevelOf_ge lv l ns : In (l, ns) lv -> (l <= maxLevelOf lv)%nat.
Proof.
  unfold maxLevelOf.
  assert (H : forall lv m, (m <= fold_left (fun m0 e => Nat.max m0 (fst e)) lv m)%nat /\
            (forall l ns, In (l, ns) lv ->
               (l <= fold_left (fun m0 (e : nat * list NodeRef) => Nat.max m0 (fst e)) lv m)%nat)).
  { clear. induction lv as [|[l0 ns0] lv IH]; intros m; simpl.
    - split; [lia | intros ? ? []].
    - destruct (IH (Nat.max m l0)) as [H1 H2]. split; [lia|].
      intros l ns [[= <- <-] | Hin]; [lia | now apply (H2 l ns)]. }
  apply H.
Qed.

(** ** Main results on the hierarchical layout *)

Lemma leveled_iff st i :
  leveled st i <-> In i (map fst (allLeveled (levels st))).
Proof.
  unfold leveled, leveledAt, allLeveled. split.
  - intros (l & ns & Hin & Hi). apply in_map_iff in Hi as (n & <- & Hn).
    apply in_map. apply in_flat_map. exists (l, ns). auto.
  - intros H. apply in_map_iff in H as (n & <- & Hn).
    apply in_flat_map in Hn as ([l ns] & Hin & Hn). exists l, ns.
    split; [assumption | now apply in_map].
Qed.

Lemma leveled_indices_NoDup fns st :
  NoDup (visited st) ->
  Permutation (visited st) (map nodeName (allLeveled (levels st))) ->
  (forall n, In n (allLeveled (levels st)) -> In n (indexed fns)) ->
  NoDup (map fst (allLeveled (levels st))).
Proof.
  intros Hnd Hperm Hsub.
  apply (NoDup_map_inj_on fst nodeName).
  - intros [i f] [j g] Hx Hy Heq. cbn [fst] in Heq. subst j.
    apply Hsub, indexed_In in Hx. apply Hsub, indexed_In in Hy.
    unfold nodeName. cbn [snd]. congruence.
  - now apply (Permutation_NoDup Hperm).
Qed.

Lemma NoDup_app_disjoint {A : Type} (l1 l2 : list A) (x : A) :
  NoDup (l1 ++ l2) -> In x l1 -> ~ In x l2.
Proof.
  induction l1 as [|a l1 IH]; intros Hnd Hx Hx'; [destruct Hx|].
  simpl in Hnd. inversion Hnd as [|? ? Ha Hnd']; subst.
  destruct Hx as [-> | Hx]; [apply Ha, in_or_app; now right | now apply IH].
Qed.

Lemma leveledAt_unique_in lv i l1 l2 :
  NoDup (map fst (allLeveled lv)) ->
  (exists ns, In (l1, ns) lv /\ In i (map fst ns)) ->
  (exists ns, In (l2, ns) lv /\ In i (map fst ns)) ->
  l1 = l2.
Proof.
  unfold allLeveled. induction lv as [|[l ns] lv IH]; intros Hnd (ns1 & H1 & Hi1) (ns2 & H2 & Hi2);
    [destruct H1|].
  cbn [flat_map snd] in Hnd. rewrite map_app in Hnd.
  assert (Hrest : forall l' ns', In (l', ns') lv -> In i (map fst ns') ->
                    In i (map fst (flat_map snd lv))).
  { intros l' ns' Hl Hi. apply in_map_iff in Hi as (n & <- & Hn).
    apply in_map, in_flat_map. exists (l', ns'). auto. }
  pose proof (NoDup_app_remove_l _ _ Hnd) as Hnd2.
  assert (Hdisj : forall x, In x (map fst ns) -> ~ In x (map fst (flat_map snd lv))).
  { intros x Hx. now apply (NoDup_app_disjoint _ _ x Hnd). }
  destruct H1 as [[= <- <-] | H1], H2 as [[= <- <-] | H2].
  - reflexivity.
  - exfalso. apply (Hdisj i Hi1). now apply (Hrest l2 ns2).
  - exfalso. apply (Hdisj i Hi2). now apply (Hrest l1 ns1).
  - apply IH; [assumption | now exists ns1 | now exists ns2].
Qed.

(** X16. The level assignment of the hierarchical layout puts no
    function in two levels, nor twice in one level, and every leveled index is
    the index of a function whose name was visited. *)
Theorem each_function_leveled_once (fns : list FunctionInfo) :
  exists st, hierarchicalLevels fns = Some st /\
    NoDup (map fst (allLeveled (levels st))) /\
    (forall i l1 l2, leveledAt st i l1 -> leveledAt st i l2 -> l1 = l2) /\
    (forall i, leveled st i ->
       exists f, nth_error fns i = Some f /\ In (fi_name f) (visited st)).
Proof.
  destruct (hierarchicalLevels_spec fns) as (m & st & _ & Hst & Hnd & Hperm & _ & Hsub).
  exists st. split; [exact Hst|].
  pose proof (leveled_indices_NoDup fns st Hnd Hperm Hsub) as Hidx.
  split; [exact Hidx|]. split.
  - intros i l1 l2 H1 H2. now apply (leveledAt_unique_in (levels st) i l1 l2).
  - intros i Hi. apply leveled_iff in Hi. apply in_map_iff in Hi as ([j f] & <- & Hn).
    exists f. split; [now apply indexed_In, Hsub|].
    apply (Permutation_in _ (Permutation_sym Hperm)).
    change (fi_name f) with (nodeName (j, f)). now apply in_map.
Qed.

Lemma initialPositions_nth fns st i f :
  nth_error fns i = Some f ->
  nth_error (initialPositions fns st) i =
  Some (if includes (visited st) (fi_name f) then posXY 0 0 else hiddenPosition).
Proof.
  intros H. unfold initialPositions. now rewrite nth_error_map, H.
Qed.

Lemma leveled_position (xf yf : nat -> nat -> Q) (fns : list FunctionInfo)
  (st : LevelState) (i : nat) :
  (forall n, In n (allLeveled (levels st)) -> In n (indexed fns)) ->
  leveled st i ->
  exists l ns idx,
    In (l, ns) (levels st) /\ (idx < List.length ns)%nat /\
    nth_error (applyWrites (levelWrites xf yf (levels st)) (initialPositions fns st)) i
    = Some (posXY (xf (List.length ns) idx) (yf l idx)).
Proof.
  intros Hsub Hi. apply leveled_iff in Hi.
  destruct (applyWrites_written (levelWrites xf yf (levels st))
              (initialPositions fns st) i) as (p & Hp & Hn).
  - now rewrite levelWrites_indices.
  - unfold initialPositions. rewrite length_map.
    apply in_map_iff in Hi as ([j f] & <- & Hn). apply Hsub, indexed_In in Hn.
    apply nth_error_Some. cbn [fst]. congruence.
  - apply levelWrites_In in Hp as (l & ns & idx & node & Hl & Hnode & _ & ->).
    exists l, ns, idx. split; [assumption|]. split; [|assumption].
    apply nth_error_Some. congruence.
Qed.

Lemma unleveled_excluded (xf yf : nat -> nat -> Q) (fns : list FunctionInfo)
  (st : LevelState) (i : nat) (f : FunctionInfo) :
  NoDup (map fi_name fns) ->
  Permutation (visited st) (map nodeName (allLeveled (levels st))) ->
  (forall n, In n (allLeveled (levels st)) -> In n (indexed fns)) ->
  nth_error fns i = Some f ->
  ~ leveled st i ->
  excluded (applyWrites (levelWrites xf yf (levels st)) (initialPositions fns st)) i.
Proof.
  intros Hnames Hperm Hsub Ef Hout. rewrite leveled_iff in Hout.
  assert (Hnv : includes (visited st) (fi_name f) = false).
  { apply includes_not_In. intros Hv.
    apply (Permutation_in _ Hperm) in Hv.
    apply in_map_iff in Hv as ([j g] & Hname & Hn).
    pose proof (Hsub _ Hn) as Hj. apply indexed_In in Hj.
    unfold nodeName in Hname. cbn [snd] in Hname.
    assert (j = i).
    { apply (proj1 (NoDup_nth_error (map fi_name fns)) Hnames).
      - rewrite length_map. apply nth_error_Some. congruence.
      - rewrite !nth_error_map, Hj, Ef. simpl. now rewrite Hname. }
    subst j. apply Hout. change i with (fst (i, g)). now apply in_map. }
  unfold excluded.
  rewrite applyWrites_untouched by (now rewrite levelWrites_indices).
  now rewrite (initialPositions_nth fns st i f Ef), Hnv.
Qed.

Lemma layout_split (xf yf : nat -> nat -> Q) (fns : list FunctionInfo) (st : LevelState) :
  (forall n idx, (idx < n)%nat -> -1000 < xf n idx) ->
  NoDup (map fi_name fns) ->
  Permutation (visited st) (map nodeName (allLeveled (levels st))) ->
  (forall n, In n (allLeveled (levels st)) -> In n (indexed fns)) ->
  forall i, (i < List.length fns)%nat ->
    let positions := applyWrites (levelWrites xf yf (levels st)) (initialPositions fns st) in
    (leveled st i /\ onCanvas positions i = true /\ ~ excluded positions i) \/
    (~ leveled st i /\ excluded positions i /\ onCanvas positions i = false).
Proof.
  intros Hxf Hnames Hperm Hsub i Hi positions.
  destruct (nth_error fns i) as [f|] eqn:Ef;
    [|apply nth_error_None in Ef; lia].
  destruct (in_dec Nat.eq_dec i (map fst (allLeveled (levels st)))) as [Hin | Hout].
  - left. apply leveled_iff in Hin. split; [assumption|].
    destruct (leveled_position xf yf fns st i Hsub Hin) as (l & ns & idx & _ & Hidx & Hn).
    assert (Hon : onCanvas positions i = true).
    { unfold onCanvas. fold positions in Hn. rewrite Hn. cbn [px posXY gtNum].
      specialize (Hxf _ _ Hidx).
      destruct (Qle_bool (xf (List.length ns) idx) (-1000)) eqn:E; [|reflexivity].
      apply Qle_bool_iff in E. lra. }
    split; [exact Hon | now apply on_canvas_not_excluded].
  - right. rewrite <- leveled_iff in Hout. split; [assumption|].
    assert (Hex : excluded positions i)
      by (now apply (unleveled_excluded xf yf fns st i f)).
    split; [exact Hex | now apply excluded_off_canvas].
Qed.

(** X15. On every array of functions, call cycles included, both
    copies of [calculateHierarchicalLayout] return, with exactly one position
    per function. *)
Theorem hierarchical_layout_returns (fns : list FunctionInfo) (width height : Q) :
  (exists positions,
     calculateHierarchicalLayout fns width height = Some positions /\
     List.length positions = List.length fns) /\
  (exists positions,
     LayoutWebview.calculateHierarchicalLayout fns width height = Some positions /\
     List.length positions = List.length fns).
Proof.
  destruct (hierarchicalLevels_spec fns) as (m & st & _ & Hst & _).
  unfold calculateHierarchicalLayout, LayoutWebview.calculateHierarchicalLayout.
  rewrite Hst. split; eexists; (split; [reflexivity|]).
  - rewrite placeLevels_writes, length_applyWrites.
    unfold initialPositions. apply length_map.
  - rewrite placeLevelsWebview_writes, length_applyWrites.
    unfold initialPositions. apply length_map.
Qed.

(** X17. With pairwise distinct names and a non-negative canvas
    width, both copies of the hierarchical layout split the functions in two:
    a function is either leveled, and then on the canvas side of the sentinel,
    or not leveled, and then exactly at the off-canvas position. *)
Theorem leveled_or_excluded (fns : list FunctionInfo) (width height : Q) :
  NoDup (map fi_name fns) -> 0 <= width ->
  exists st positions webPositions,
    hierarchicalLevels fns = Some st /\
    calculateHierarchicalLayout fns width height = Some positions /\
    LayoutWebview.calculateHierarchicalLayout fns width height = Some webPositions /\
    forall i, (i < List.length fns)%nat ->
      ((leveled st i /\ onCanvas positions i = true /\ ~ excluded positions i) \/
       (~ leveled st i /\ excluded positions i /\ onCanvas positions i = false)) /\
      ((leveled st i /\ onCanvas webPositions i = true /\ ~ excluded webPositions i) \/
       (~ leveled st i /\ excluded webPositions i /\ onCanvas webPositions i = false)).
Proof.
  intros Hnames Hw.
  destruct (hierarchicalLevels_spec fns) as (m & st & _ & Hst & Hnd & Hperm & _ & Hsub).
  unfold calculateHierarchicalLayout, LayoutWebview.calculateHierarchicalLayout.
  rewrite Hst. do 3 eexists. repeat (split; [reflexivity|]).
  intros i Hi. split.
  - rewrite placeLevels_writes. apply layout_split; try assumption.
    intros n idx Hidx. destruct (nodeX_bounds n idx width Hidx) as [H _].
    specialize (H Hw). lra.
  - rewrite placeLevelsWebview_writes. apply layout_split; try assumption.
    intros n idx Hidx. destruct (webNodeX_bounds n idx width Hidx) as [H _].
    specialize (H Hw). lra.
Qed.

Lemma leveled_or_excluded_witness :
  exists st positions webPositions,
    hierarchicalLevels chainWithIsolated = Some st /\
    calculateHierarchicalLayout chainWithIsolated 800 600 = Some positions /\
    LayoutWebview.calculateHierarchicalLayout chainWithIsolated 800 600
      = Some webPositions /\
    forall i, (i < List.length chainWithIsolated)%nat ->
      ((leveled st i /\ onCanvas positions i = true /\ ~ excluded positions i) \/
       (~ leveled st i /\ excluded positions i /\ onCanvas positions i = false)) /\
      ((leveled st i /\ onCanvas webPositions i = true /\ ~ excluded webPositions i) \/
       (~ leveled st i /\ excluded webPositions i /\ onCanvas webPositions i = false)).
Proof.
  apply (leveled_or_excluded chainWithIsolated 800 600).
  - vm_compute. repeat (constructor; [simpl; intuition discriminate|]). constructor.
  - discriminate.
Defined.

Lemma leveled_within_margins (fns : list FunctionInfo) (width height : Q) :
  exists st positions webPositions,
    hierarchicalLevels fns = Some st /\
    calculateHierarchicalLayout fns width height = Some positions /\
    LayoutWebview.calculateHierarchicalLayout fns width height = Some webPositions /\
    (300 <= width -> 240 <= height ->
     forall i, leveled st i ->
       exists x y, nth_error positions i = Some (posXY x y) /\
         150 <= x /\ x <= width - 150 /\ 120 <= y /\ y <= height - 120) /\
    (100 <= width -> 100 <= height ->
     forall i, leveled st i ->
       exists x y, nth_error webPositions i = Some (posXY x y) /\
         50 <= x /\ x <= width - 50 /\ 50 <= y /\ y <= height - 50).
Proof.
  destruct (hierarchicalLevels_spec fns) as (m & st & _ & Hst & Hnd & Hperm & _ & Hsub).
  unfold calculateHierarchicalLayout, LayoutWebview.calculateHierarchicalLayout.
  rewrite Hst. do 3 eexists. repeat (split; [reflexivity|]). split.
  - intros Hw Hh i Hi. rewrite placeLevels_writes.
    destruct (leveled_position (fun n idx => nodeX n idx width)
                (fun l _ => bandY (maxLevelOf (levels st)) l height) fns st i Hsub Hi)
      as (l & ns & idx & Hl & Hidx & Hn).
    do 2 eexists. split; [exact Hn|].
    destruct (nodeX_bounds (List.length ns) idx width Hidx) as [_ Hx].
    destruct (Hx Hw) as [Hx1 Hx2].
    destruct (bandY_bounds (maxLevelOf (levels st)) l height
                (maxLevelOf_ge _ _ _ Hl) Hh) as [Hy1 Hy2].
    auto.
  - intros Hw Hh i Hi. rewrite placeLevelsWebview_writes.
    destruct (leveled_position (fun n idx => LayoutWebview.nodeX n idx width)
                (fun l _ => LayoutWebview.bandY (maxLevelOf (levels st)) l height) fns st i Hsub Hi)
      as (l & ns & idx & Hl & Hidx & Hn).
    do 2 eexists. split; [exact Hn|].
    destruct (webNodeX_bounds (List.length ns) idx width Hidx) as [_ Hx].
    destruct (Hx Hw) as [Hx1 Hx2].
    destruct (webBandY_bounds (maxLevelOf (levels st)) l height
                (maxLevelOf_ge _ _ _ Hl) Hh) as [Hy1 Hy2].
    auto.
Qed.

(** ** What can become meaningful *)

Lemma findByName_name nodes c n : findByName nodes c = Some n -> nodeName n = c.
Proof.
  unfold findByName. intros H. apply find_some in H as [_ H].
  now apply String.eqb_eq in H.
Qed.

Lemma chain_pushes_names nodes seen current cs stack n :
  In current nodes ->
  (forall c, In c cs -> In c (fi_calls (snd current))) ->
  In n (fold_left
    (fun stack calledName =>
       match findByName nodes calledName with
       | Some called => if includes seen (fi_name (snd called)) then stack else called :: stack
       | None => stack
       end) cs stack) ->
  In n stack \/ calledBySome nodes (nodeName n).
Proof.
  intros Hc. revert stack. induction cs as [|c cs IH]; intros stack Hcs Hn; [now left|].
  cbn [fold_left] in Hn.
  assert (Hcs' : forall c0, In c0 cs -> In c0 (fi_calls (snd current)))
    by (intros; apply Hcs; now right).
  destruct (findByName nodes c) as [called|] eqn:Ef; [|now apply IH].
  destruct (includes seen (fi_name (snd called))); [now apply IH|].
  destruct (IH _ Hcs' Hn) as [[<- | H] | H]; auto.
  right. exists current. split; [assumption|].
  rewrite (findByName_name _ _ _ Ef). apply Hcs. now left.
Qed.

Lemma walkChain_names fuel nodes toVisit seen meaningful r x :
  (forall n, In n toVisit -> In n nodes) ->
  walkChain fuel nodes toVisit seen meaningful = Some r ->
  In x r ->
  In x meaningful \/ (exists n, In n toVisit /\ nodeName n = x) \/ calledBySome nodes x.
Proof.
  revert toVisit seen meaningful.
  induction fuel as [|fuel IH]; intros toVisit seen meaningful Hsub Hw Hx; [discriminate|].
  cbn [walkChain] in Hw. destruct toVisit as [|current rest]; [injection Hw as <-; now left|].
  assert (Hrest : forall n, In n rest -> In n nodes) by (intros; apply Hsub; now right).
  assert (Hcur : In current nodes) by (apply Hsub; now left).
  destruct (includes seen (fi_name (snd current))).
  - destruct (IH _ _ _ Hrest Hw Hx) as [H | [(n & Hn & Hname) | H]]; auto.
    right. left. exists n. split; [now right | exact Hname].
  - match type of Hw with
    | walkChain _ _ ?tv ?sn ?mn = _ =>
        assert (Htv : forall n, In n tv -> In n rest \/ calledBySome nodes (nodeName n))
    end.
    { intros n Hn. apply (chain_pushes_names nodes _ current _ _ n Hcur (fun c H => H) Hn). }
    match type of Hw with
    | walkChain _ _ ?tv ?sn ?mn = _ =>
        assert (Htv2 : forall n, In n tv -> In n nodes)
    end.
    { intros n Hn.
      destruct (chain_pushes nodes (setAdd seen (fi_name (snd current)))
                  (fi_calls (snd current)) rest) as [_ Hmem].
      now apply Hmem. }
    destruct (IH _ _ _ Htv2 Hw Hx) as [H | [(n & Hn & Hname) | H]]; auto.
    + apply In_setAdd in H as [H | ->]; [now left|].
      right. left. exists current. split; [now left | reflexivity].
    + destruct (Htv n Hn) as [H | H].
      * right. left. exists n. split; [now right | exact Hname].
      * right. right. now rewrite <- Hname.
Qed.

(** A name of the meaningful set before callers are added: a deep chain
    start, a hub, or something that is called. *)
Lemma findMeaningful_names nodes m x :
  findMeaningful nodes = Some m -> In x m ->
  (exists func depth, In func nodes /\ nodeName func = x /\
     getMaxDepth (S (S (List.length nodes))) nodes func [] = Some depth /\
     ((2 <= depth)%nat \/ (2 <= List.length (fi_calledBy (snd func)))%nat)) \/
  calledBySome nodes x.
Proof.
  unfold findMeaningful.
  assert (H : forall l m0 m, (forall n, In n l -> In n nodes) ->
    fold_left
      (fun acc func =>
         match acc with
         | None => None
         | Some meaningfulNodes =>
             match getMaxDepth (S (S (List.length nodes))) nodes func [] with
             | None => None
             | Some depth =>
                 if Nat.leb 2 depth || Nat.leb 2 (List.length (fi_calledBy (snd func)))
                 then walkChain (S (S (totalCalls nodes))) nodes [func] []
                        (setAdd meaningfulNodes (fi_name (snd func)))
                 else Some meaningfulNodes
             end
         end) l (Some m0) = Some m ->
    In x m ->
    In x m0 \/
    (exists func depth, In func nodes /\ nodeName func = x /\
       getMaxDepth (S (S (List.length nodes))) nodes func [] = Some depth /\
       ((2 <= depth)%nat \/ (2 <= List.length (fi_calledBy (snd func)))%nat)) \/
    calledBySome nodes x).
  { induction l as [|func l IH]; intros m0 m1 Hl Hf Hx; [injection Hf as <-; now left|].
    cbn [fold_left] in Hf.
    assert (Hl' : forall n, In n l -> In n nodes) by (intros; apply Hl; now right).
    assert (Hfn : In func nodes) by (apply Hl; now left).
    destruct (getMaxDepth (S (S (List.length nodes))) nodes func []) as [d|] eqn:Ed.
    2:{ exfalso. clear -Hf. induction l as [|a l IHl]; [discriminate | now apply IHl]. }
    destruct (Nat.leb 2 d || Nat.leb 2 (List.length (fi_calledBy (snd func)))) eqn:Eb.
    - destruct (walkChain (S (S (totalCalls nodes))) nodes [func] []
                  (setAdd m0 (fi_name (snd func)))) as [r|] eqn:Ew.
      2:{ exfalso. clear -Hf. induction l as [|a l IHl]; [discriminate | now apply IHl]. }
      assert (Hdeep : exists func0 depth, In func0 nodes /\ nodeName func0 = nodeName func /\
                getMaxDepth (S (S (List.length nodes))) nodes func0 [] = Some depth /\
                ((2 <= depth)%nat \/ (2 <= List.length (fi_calledBy (snd func0)))%nat)).
      { exists func, d. repeat split; try assumption.
        apply orb_true_iff in Eb as [Eb | Eb]; apply Nat.leb_le in Eb; auto. }
      destruct (IH r m1 Hl' Hf Hx) as [Hr | Hr]; [|now right].
      assert (Hone : forall n, In n [func] -> In n nodes)
        by (intros n [<- | []]; exact Hfn).
      destruct (walkChain_names _ _ _ _ _ _ x Hone Ew Hr)
        as [H | [(n & [<- | []] & Hname) | H]].
      + apply In_setAdd in H as [H | ->]; [now left|]. right. left. exact Hdeep.
      + right. left. rewrite <- Hname. exact Hdeep.
      + right. now right.
    - now apply (IH m0 m1). }
  intros Hf Hx. destruct (H nodes [] m (fun n Hn => Hn) Hf Hx) as [[] | Hr]. exact Hr.
Qed.

Lemma addCallers_names nodes m x :
  In x (addCallers nodes m) ->
  In x m \/ exists func, In func nodes /\ nodeName func = x /\ fi_calls (snd func) <> [].
Proof.
  unfold addCallers.
  assert (H : forall l m0, (forall n, In n l -> In n nodes) ->
    In x (fold_left
      (fun meaningfulNodes func =>
         fold_left
           (fun meaningfulNodes calledName =>
              if includes meaningfulNodes calledName
              then setAdd meaningfulNodes (fi_name (snd func))
              else meaningfulNodes)
           (fi_calls (snd func)) meaningfulNodes) l m0) ->
    In x m0 \/ exists func, In func nodes /\ nodeName func = x /\ fi_calls (snd func) <> []).
  { induction l as [|func l IH]; intros m0 Hl Hx; [now left|].
    cbn [fold_left] in Hx.
    apply IH in Hx; [|intros; apply Hl; now right].
    destruct Hx as [Hx | Hx]; [|now right].
    assert (Hinner : forall cs m1,
      In x (fold_left
              (fun meaningfulNodes calledName =>
                 if includes meaningfulNodes calledName
                 then setAdd meaningfulNodes (fi_name (snd func))
                 else meaningfulNodes) cs m1) ->
      In x m1 \/ (x = nodeName func /\ cs <> [])).
    { induction cs as [|c cs IHc]; intros m1 H1; [now left|].
      cbn [fold_left] in H1. apply IHc in H1.
      destruct H1 as [H1 | [-> _]]; [|right; split; [reflexivity | discriminate]].
      destruct (includes m1 c); [|now left].
      apply In_setAdd in H1 as [H1 | ->]; [now left|].
      right. split; [reflexivity | discriminate]. }
    destruct (Hinner _ _ Hx) as [H1 | [-> Hne]]; [now left|].
    right. exists func. split; [apply Hl; now left|]. split; [reflexivity | exact Hne]. }
  intros Hx. apply (H nodes m (fun n Hn => Hn) Hx).
Qed.

(** X20. With pairwise distinct names, a function that calls
    nothing, has no recorded caller and is called by no function of the array
    is never leveled: both copies of the layout put it at the off-canvas
    position, whatever the rest of the graph. *)
Theorem isolated_function_excluded (fns : list FunctionInfo) (width height : Q)
  (i : nat) (f : FunctionInfo) :
  NoDup (map fi_name fns) ->
  nth_error fns i = Some f ->
  fi_calls f = [] -> fi_calledBy f = [] ->
  (forall g, In g fns -> ~ In (fi_name f) (fi_calls g)) ->
  exists st positions webPositions,
    hierarchicalLevels fns = Some st /\
    calculateHierarchicalLayout fns width height = Some positions /\
    LayoutWebview.calculateHierarchicalLayout fns width height = Some webPositions /\
    ~ leveled st i /\ excluded positions i /\ excluded webPositions i.
Proof.
  intros Hnames Ef Hcalls Hcb Hnobody.
  destruct (hierarchicalLevels_spec fns)
    as (m & st & Hm & Hst & Hnd & Hperm & Hdisp & Hsub).
  assert (Hsame : forall func, In func (indexed fns) -> nodeName func = fi_name f ->
                    func = (i, f)).
  { intros [j g] Hj Hname. apply indexed_In in Hj. unfold nodeName in Hname.
    cbn [snd] in Hname.
    assert (j = i).
    { apply (proj1 (NoDup_nth_error (map fi_name fns)) Hnames).
      - rewrite length_map. apply nth_error_Some. congruence.
      - rewrite !nth_error_map, Hj, Ef. simpl. now rewrite Hname. }
    subst j. congruence. }
  assert (Hnocall : ~ calledBySome (indexed fns) (fi_name f)).
  { intros ([j g] & Hg & Hin). apply indexed_In in Hg. cbn [snd] in Hin.
    apply (Hnobody g); [now apply nth_error_In in Hg | exact Hin]. }
  assert (Hm_out : ~ In (fi_name f) m).
  { intros Hx. destruct (findMeaningful_names _ _ _ Hm Hx)
      as [(func & depth & Hfunc & Hname & Hdepth & Hdeep) | Hc]; [|contradiction].
    rewrite (Hsame func Hfunc Hname) in Hdepth, Hdeep.
    cbn [getMaxDepth snd includes existsb] in Hdepth. rewrite Hcalls in Hdepth.
    cbn in Hdepth. injection Hdepth as <-. cbn [snd] in Hdeep.
    rewrite Hcb in Hdeep. simpl in Hdeep. lia. }
  assert (Hmn_out : includes (addCallers (indexed fns) m) (fi_name f) = false).
  { apply includes_not_In. intros Hx.
    apply addCallers_names in Hx as [Hx | (func & Hfunc & Hname & Hne)];
      [contradiction|].
    rewrite (Hsame func Hfunc Hname) in Hne. now apply Hne. }
  assert (Hnot : ~ leveled st i).
  { rewrite leveled_iff. intros Hi. apply in_map_iff in Hi as ([j g] & Hij & Hn).
    cbn [fst] in Hij. subst j.
    pose proof (Hsub _ Hn) as Hg. apply indexed_In in Hg.
    assert (g = f) by congruence. subst g.
    apply Hdisp in Hn. unfold functionsToDisplay in Hn.
    destruct (Nat.ltb 0 (List.length (addCallers (indexed fns) m)));
      apply filter_In in Hn as [_ Hn]; cbn [snd] in Hn.
    - congruence.
    - rewrite Hcalls, Hcb in Hn. discriminate. }
  unfold calculateHierarchicalLayout, LayoutWebview.calculateHierarchicalLayout.
  rewrite Hst. do 3 eexists. repeat (split; [reflexivity|]).
  split; [exact Hnot|]. split.
  - rewrite placeLevels_writes. now apply (unleveled_excluded _ _ fns st i f).
  - rewrite placeLevelsWebview_writes. now apply (unleveled_excluded _ _ fns st i f).
Qed.

Lemma isolated_function_excluded_witness :
  exists st positions webPositions,
    hierarchicalLevels chainWithIsolated = Some st /\
    calculateHierarchicalLayout chainWithIsolated 800 600 = Some positions /\
    LayoutWebview.calculateHierarchicalLayout chainWithIsolated 800 600
      = Some webPositions /\
    ~ leveled st 3 /\ excluded positions 3 /\ excluded webPositions 3.
Proof.
  apply (isolated_function_excluded chainWithIsolated 800 600 3 isolatedD).
  - vm_compute. repeat (constructor; [simpl; intuition discriminate|]). constructor.
  - reflexivity.
  - reflexivity.
  - reflexivity.
  - intros g [<- | [<- | [<- | [<- | []]]]]; simpl; intuition discriminate.
Defined.

Lemma setAt_numeric i x y positions :
  forallb (fun pos => negb (Visualizer.needsFallback pos)) positions = true ->
  forallb (fun pos => negb (Visualizer.needsFallback pos))
    (setAt i (posXY x y) positions) = true.
Proof.
  revert i. induction positions as [|p r IH]; intros i H; [now destruct i|].
  cbn [forallb] in H. apply andb_prop in H as [Hp Hr].
  destruct i; cbn [setAt forallb].
  - now rewrite Hr.
  - now rewrite Hp, IH.
Qed.

Lemma levelWrites_numeric xf yf lv positions :
  forallb (fun pos => negb (Visualizer.needsFallback pos)) positions = true ->
  forallb (fun pos => negb (Visualizer.needsFallback pos))
    (applyWrites (levelWrites xf yf lv) positions) = true.
Proof.
  unfold applyWrites. generalize (levelWrites_In xf yf lv).
  generalize (levelWrites xf yf lv). intros ws.
  revert positions. induction ws as [|[i p] ws IH]; intros positions Hws H;
    [exact H|].
  cbn [fold_left fst snd]. apply IH.
  - intros j q Hq. apply Hws. now right.
  - destruct (Hws i p (or_introl eq_refl)) as (l & ns & idx & node & _ & _ & _ & ->).
    now apply setAt_numeric.
Qed.

Lemma initialPositions_numeric fns st :
  forallb (fun pos => negb (Visualizer.needsFallback pos))
    (initialPositions fns st) = true.
Proof.
  unfold initialPositions. induction fns as [|f fns IH]; [reflexivity|].
  cbn [map forallb]. rewrite IH.
  now destruct (includes (visited st) (fi_name f)).
Qed.

Lemma validatePositions_steady (rand : Visualizer.Random) (n : nat)
  (width height : Q) (positions : list Position) :
  forallb (fun pos => negb (Visualizer.needsFallback pos)) positions = true ->
  Visualizer.validatePositions rand n width height positions = (positions, n).
Proof.
  revert n. induction positions as [|pos rest IH]; intros n H; [reflexivity|].
  cbn [forallb] in H. apply andb_prop in H as [Hp Hr].
  apply negb_true_iff in Hp. cbn [Visualizer.validatePositions]. rewrite Hp.
  now rewrite (IH n Hr).
Qed.

(** X21. The positions that either copy of the hierarchical layout
    returns pass the validation loop of [renderVisualization] unchanged, and
    the loop draws no random number for them. *)
Theorem hierarchical_layout_needs_no_fallback (fns : list FunctionInfo)
  (width height : Q) (rand : Visualizer.Random) (n : nat) :
  exists positions webPositions,
    calculateHierarchicalLayout fns width height = Some positions /\
    LayoutWebview.calculateHierarchicalLayout fns width height = Some webPositions /\
    Visualizer.validatePositions rand n width height positions = (positions, n) /\
    Visualizer.validatePositions rand n width height webPositions
      = (webPositions, n).
Proof.
  destruct (hierarchicalLevels_spec fns) as (m & st & _ & Hst & _).
  unfold calculateHierarchicalLayout, LayoutWebview.calculateHierarchicalLayout.
  rewrite Hst. do 2 eexists. repeat (split; [reflexivity|]).
  split; apply validatePositions_steady.
  - rewrite placeLevels_writes. apply levelWrites_numeric, initialPositions_numeric.
  - rewrite placeLevelsWebview_writes.
    apply levelWrites_numeric, initialPositions_numeric.
Qed.



(** X19. On a canvas at least 100 wide and 100 high, the webview's
    copy of the layout places every leveled function at least 50 from every
    edge. *)
Theorem webview_layout_within_margins (fns : list FunctionInfo)
  (width height : Q) :
  100 <= width -> 100 <= height ->
  exists st webPositions,
    hierarchicalLevels fns = Some st /\
    LayoutWebview.calculateHierarchicalLayout fns width height = Some webPositions /\
    forall i, leveled st i ->
      exists x y, nth_error webPositions i = Some (posXY x y) /\
        50 <= x /\ x <= width - 50 /\ 50 <= y /\ y <= height - 50.
Proof.
  intros Hw Hh.
  destruct (leveled_within_margins fns width height)
    as (st & _ & webPositions & Hst & _ & Hp & _ & H).
  exists st, webPositions. auto.
Qed.

Lemma webview_layout_within_margins_witness :
  exists st webPositions,
    hierarchicalLevels chainWithIsolated = Some st /\
    LayoutWebview.calculateHierarchicalLayout chainWithIsolated 800 600
      = Some webPositions /\
    forall i, leveled st i ->
      exists x y, nth_error webPositions i = Some (posXY x y) /\
        50 <= x /\ x <= 800 - 50 /\ 50 <= y /\ y <= 600 - 50.
Proof.
  apply (webview_layout_within_margins chainWithIsolated 800 600); discriminate.
Defined.

End HierarchicalSteps.

(* ------------------------------------------------------------------ *)
(** ** The analyzer's tree walks *)

(** The body traversal visits the nodes of the subtree in document order. *)
Lemma traverseBody_subtree functionName isPython node calls :
  traverseBody functionName isPython node calls =
  fold_left (fun calls n => visitCall functionName isPython n calls)
    (subtreeNodes node) calls.
Proof.
  revert calls. induction node as [ty tx s e ch IH] using SyntaxNode_induction.
  intros calls. cbn [traverseBody subtreeNodes fold_left].
  generalize (visitCall functionName isPython (mkNode ty tx s e ch) calls).
  induction IH as [|c r Hc _ IHr]; intros cs; [reflexivity|].
  cbn [fold_left flat_map]. rewrite fold_left_app, <- Hc. apply IHr.
Qed.

Lemma visitCall_recorded functionName isPython node calls :
  visitCall functionName isPython node calls =
  if recordedCall functionName isPython node
  then Layout.setAdd calls (calleeNameOf node) else calls.
Proof.
  unfold visitCall, recordedCall, isCallNode, keywordsOf.
  destruct (includes _ (nodeType node)); [|reflexivity].
  cbn [andb]. reflexivity.
Qed.

Lemma NoDup_setAdd (s : list string) (x : string) :
  NoDup s -> NoDup (Layout.setAdd s x).
Proof.
  intros H. unfold Layout.setAdd. destruct (includes s x) eqn:E; [exact H|].
  apply includes_not_In in E. apply NoDup_app; [exact H| | ].
  - repeat constructor. intros [].
  - intros y Hy [<- | []]. contradiction.
Qed.

Lemma visited_calls functionName isPython nodes calls c :
  In c (fold_left (fun calls n => visitCall functionName isPython n calls)
          nodes calls) <->
  In c calls \/
  exists n, In n nodes /\ recordedCall functionName isPython n = true
            /\ calleeNameOf n = c.
Proof.
  revert calls. induction nodes as [|n nodes IH]; intros calls; cbn [fold_left].
  - split; [now left | intros [H | (n & [] & _)]; exact H].
  - rewrite IH, visitCall_recorded.
    destruct (recordedCall functionName isPython n) eqn:E.
    + rewrite In_setAdd. split.
      * intros [[H | ->] | (m & Hm & Hr & Hc)]; [now left | right | right].
        -- exists n. repeat split; [now left | exact E].
        -- exists m. repeat split; [now right | exact Hr | exact Hc].
      * intros [H | (m & [<- | Hm] & Hr & Hc)].
        -- left; now left.
        -- left; right. now rewrite Hc.
        -- right. now exists m.
    + split.
      * intros [H | (m & Hm & Hr & Hc)]; [now left | right].
        exists m. repeat split; [now right | exact Hr | exact Hc].
      * intros [H | (m & [<- | Hm] & Hr & Hc)]; [now left | congruence | right].
        now exists m.
Qed.

Lemma visited_calls_NoDup functionName isPython nodes calls :
  NoDup calls ->
  NoDup (fold_left (fun calls n => visitCall functionName isPython n calls)
           nodes calls).
Proof.
  revert calls. induction nodes as [|n nodes IH]; intros calls H; [exact H|].
  cbn [fold_left]. apply IH. rewrite visitCall_recorded.
  destruct (recordedCall _ _ _); [now apply NoDup_setAdd | exact H].
Qed.

Lemma traverseBody_skips_own_name functionName isPython node :
  ~ In functionName (traverseBody functionName isPython node []).
Proof.
  rewrite traverseBody_subtree, visited_calls.
  intros [[] | (n & _ & Hr & Hc)].
  unfold recordedCall in Hr. rewrite !andb_true_iff, !negb_true_iff in Hr.
  destruct Hr as ((_ & H) & _). apply String.eqb_neq in H. contradiction.
Qed.

(** X1. For a body node, a function name and either keyword list,
    [analyzeFunctionBody] started on an empty set records each callee once, and
    a name is recorded exactly when some call node of the body subtree
    (call_expression, call or method_invocation) yields it as its callee name
    and it is neither empty, nor the function's own name, nor a keyword. In
    particular a function never lists itself among its calls. *)
Theorem body_calls_exact (bodyNode : SyntaxNode) (functionName : string)
  (isPython : bool) :
  let calls := fst (analyzeFunctionBody bodyNode functionName [] isPython) in
  NoDup calls /\
  (forall c, In c calls <->
     exists n, In n (subtreeNodes bodyNode) /\ isCallNode n = true /\
               calleeNameOf n = c /\ c <> "" /\ c <> functionName /\
               ~ In c (keywordsOf isPython)) /\
  ~ In functionName calls.
Proof.
  cbn [analyzeFunctionBody fst]. rewrite traverseBody_subtree.
  assert (Hiff : forall c,
    In c (fold_left (fun calls n => visitCall functionName isPython n calls)
            (subtreeNodes bodyNode) []) <->
    exists n, In n (subtreeNodes bodyNode) /\ isCallNode n = true /\
              calleeNameOf n = c /\ c <> "" /\ c <> functionName /\
              ~ In c (keywordsOf isPython)).
  { intros c. rewrite visited_calls. split.
    - intros [[] | (n & Hn & Hr & Hc)]. exists n.
      unfold recordedCall in Hr. rewrite !andb_true_iff, !negb_true_iff in Hr.
      destruct Hr as (((H1 & H2) & H3) & H4).
      apply String.eqb_neq in H2, H3. apply includes_not_In in H4.
      subst c. repeat split; assumption.
    - intros (n & Hn & H1 & Hc & H2 & H3 & H4). right. exists n.
      subst c. repeat split; [exact Hn|].
      unfold recordedCall. rewrite !andb_true_iff, !negb_true_iff.
      apply String.eqb_neq in H2, H3. apply includes_not_In in H4.
      repeat split; assumption. }
  split; [apply visited_calls_NoDup; constructor|].
  split; [exact Hiff|].
  intros H. apply Hiff in H as (n & _ & _ & _ & _ & Hne & _). now apply Hne.
Qed.

Lemma pushNew_extends (params : list string) (x : string) :
  NoDup params ->
  exists added, pushNew params x = params ++ added /\ NoDup (params ++ added).
Proof.
  intros H. unfold pushNew. destruct (includes params x) eqn:E.
  - exists []. now rewrite app_nil_r.
  - exists [x]. split; [reflexivity|].
    apply includes_not_In in E. apply NoDup_app; [exact H| | ].
    + repeat constructor. intros [].
    + intros y Hy [<- | []]. contradiction.
Qed.

Lemma extractRecursive_extends (node : SyntaxNode) (params : list string) :
  NoDup params ->
  exists added,
    extractRecursive node params = params ++ added /\ NoDup (params ++ added).
Proof.
  revert params. induction node as [ty tx s e ch IH] using SyntaxNode_induction.
  intros params Hnd.
  assert (Hsame : exists added, params = params ++ added /\ NoDup (params ++ added)).
  { exists []. now rewrite app_nil_r. }
  assert (Hname : forall field,
    exists added,
      match childForFieldName (mkNode ty tx s e ch) field with
      | Some nameChild => pushNew params (nodeText nameChild)
      | None => params
      end = params ++ added /\ NoDup (params ++ added)).
  { intros field. destruct (childForFieldName _ field);
      [now apply pushNew_extends | exact Hsame]. }
  cbn [extractRecursive].
  destruct (String.eqb ty "identifier"); [now apply pushNew_extends|].
  destruct (String.eqb ty "property_identifier"); [now apply pushNew_extends|].
  destruct (includes ["typed_parameter"; "required_parameter"; "optional_parameter"] ty).
  { destruct (orElse _ _) as [nameChild|]; [|exact Hsame].
    destruct (String.eqb (nodeType nameChild) "identifier"); cbn [andb];
      [|exact Hsame].
    generalize (pushNew_extends params (nodeText nameChild) Hnd).
    unfold pushNew. now destruct (includes params (nodeText nameChild)). }
  destruct (String.eqb ty "formal_parameter"); [apply Hname|].
  destruct (includes ["parameter"; "typed_parameter"; "typed_default_parameter"] ty);
    [apply Hname|].
  clear Hsame Hname. revert params Hnd.
  induction IH as [|c r Hc _ IHr]; intros params Hnd; cbn [fold_left].
  - exists []. now rewrite app_nil_r.
  - destruct (Hc params Hnd) as (a1 & E1 & N1). rewrite E1.
    destruct (IHr _ N1) as (a2 & E2 & N2). rewrite E2.
    exists (a1 ++ a2). now rewrite app_assoc.
Qed.

(** X2. [extractParameters] only appends: on a parameter list
    without duplicates it returns that list followed by the new names, and the
    result has no duplicates either. *)
Theorem parameters_appended_once (paramsNode : SyntaxNode) (params : list string) :
  NoDup params ->
  exists added,
    extractParameters paramsNode params = params ++ added /\
    NoDup (params ++ added).
Proof. apply extractRecursive_extends. Qed.

Lemma parameters_appended_once_witness :
  exists added,
    extractParameters twoParameters [] = [] ++ added /\
    NoDup ([] ++ added).
Proof. apply (parameters_appended_once twoParameters []). constructor. Defined.

Lemma unitOf_name isPython nm node : pu_name (unitOf isPython nm node) = nm.
Proof.
  unfold unitOf. now destruct (childForFieldName node "body").
Qed.

Lemma unitOf_calls isPython nm node :
  ~ In nm (pu_calls (unitOf isPython nm node)).
Proof.
  unfold unitOf. destruct (childForFieldName node "body") as [bodyNode|].
  - cbn [analyzeFunctionBody pu_calls].
    apply traverseBody_skips_own_name.
  - intros [].
Qed.

Lemma processFunction_walked (a : CodeAnalysis) isPython nm node :
  freshStore (functions a) /\ noSelfCalls (functions a) ->
  freshStore (functions (processFunction a (unitOf isPython nm node))) /\
  noSelfCalls (functions (processFunction a (unitOf isPython nm node))).
Proof.
  intros [Hfresh Hself]. split.
  - apply (freshStore_processed [unitOf isPython nm node] a Hfresh).
  - unfold processFunction. cbn [functions with_functions].
    intros e He. apply JsMapFacts.In_set in He as [-> | He]; [|now apply Hself].
    cbn [snd name calls]. rewrite unitOf_name. apply unitOf_calls.
Qed.

Lemma visitJavaScript_walked (node : SyntaxNode) (a : CodeAnalysis) :
  freshStore (functions a) /\ noSelfCalls (functions a) ->
  freshStore (functions (visitJavaScript node a)) /\
  noSelfCalls (functions (visitJavaScript node a)).
Proof.
  intros H. unfold visitJavaScript.
  set (a1 := if String.eqb (nodeType node) "import_statement" then _ else a).
  assert (H1 : freshStore (functions a1) /\ noSelfCalls (functions a1)).
  { subst a1. destruct (String.eqb _ _); [|exact H].
    destruct (childForFieldName node "source"); exact H. }
  clearbody a1. clear H a.
  set (a2 := if String.eqb (nodeType node) "export_statement" then _ else a1).
  assert (H2 : freshStore (functions a2) /\ noSelfCalls (functions a2)).
  { subst a2. destruct (String.eqb _ _); [|exact H1].
    destruct (childForFieldName node "declaration") as [d|]; [|exact H1].
    destruct (childForFieldName d "name"); exact H1. }
  clearbody a2. clear H1 a1.
  set (a3 := if String.eqb (nodeType node) "function_declaration" || _ then _ else a2).
  assert (H3 : freshStore (functions a3) /\ noSelfCalls (functions a3)).
  { subst a3. destruct (_ || _); [|exact H2].
    destruct (childForFieldName node "name"); [|exact H2].
    now apply processFunction_walked. }
  clearbody a3. clear H2 a2.
  set (a4 := if String.eqb (nodeType node) "method_definition" then _ else a3).
  assert (H4 : freshStore (functions a4) /\ noSelfCalls (functions a4)).
  { subst a4. destruct (String.eqb _ _); [|exact H3].
    destruct (childForFieldName node "name"); [|exact H3].
    now apply processFunction_walked. }
  clearbody a4. clear H3 a3.
  destruct (_ || _); [|exact H4].
  revert a4 H4. induction (nodeChildren node) as [|c r IH]; intros a H;
    [exact H|].
  cbn [fold_left]. apply IH.
  destruct (String.eqb (nodeType c) "variable_declarator"); [|exact H].
  destruct (childForFieldName c "name"); [|exact H].
  destruct (childForFieldName c "value") as [v|]; [|exact H].
  destruct (_ || _); [|exact H].
  now apply processFunction_walked.
Qed.

Lemma traverseJavaScript_walked (node : SyntaxNode) (a : CodeAnalysis) :
  freshStore (functions a) /\ noSelfCalls (functions a) ->
  freshStore (functions (traverseJavaScript node a)) /\
  noSelfCalls (functions (traverseJavaScript node a)).
Proof.
  revert a. induction node as [ty tx s e ch IH] using SyntaxNode_induction.
  intros a H. cbn [traverseJavaScript].
  apply (visitJavaScript_walked (mkNode ty tx s e ch)) in H.
  revert H. generalize (visitJavaScript (mkNode ty tx s e ch) a).
  induction IH as [|c r Hc _ IHr]; intros b H; [exact H|].
  cbn [fold_left]. apply IHr, Hc, H.
Qed.

(** X3. For every syntax tree, the graph that [analyzeDocument]
    builds for a JavaScript document ([analyzeJavaScript], then the linking of
    callers, then the scoring) is resolved, every function is stored under its
    own name, and no function appears among its own calls or its own callers,
    recursive or not. *)
Theorem javascript_graph_has_no_self_loops (file language : string)
  (rootNode : SyntaxNode) :
  let graph := functions (analyzeJavaScriptDocument file language rootNode) in
  resolvedGraph graph /\
  forall k f, JsMap.get k graph = Some f ->
    name f = k /\ ~ In k (calls f) /\ ~ In k (calledBy f).
Proof.
  cbn zeta. unfold analyzeJavaScriptDocument, analyzeJavaScript.
  set (a0 := mkCodeAnalysis file language JsMap.empty [] []).
  destruct (traverseJavaScript_walked rootNode a0) as [Hfresh Hself].
  { split; [|intros e []]. repeat split; [constructor | intros e [] | intros e []]. }
  set (a := traverseJavaScript rootNode a0) in *.
  assert (Hres : resolvedGraph
            (functions (calculateSignificance (buildCalledByRelationships a)))).
  { apply resolvedGraph_scored.
    rewrite buildCalledByRelationships_functions by exact Hfresh.
    destruct Hfresh as (Hwf & Hsn & _). now apply resolvedGraph_linked. }
  split; [exact Hres|].
  intros k f Hget.
  destruct (Hres k f Hget) as (Hname & Hcb & _ & Hinv).
  assert (Hcalls : ~ In k (calls f)).
  { rewrite calculateSignificance_get in Hget.
    rewrite buildCalledByRelationships_functions in Hget by exact Hfresh.
    rewrite linked_get in Hget.
    destruct (JsMap.get k (functions a)) as [g|] eqn:Eg; [|discriminate].
    cbn [option_map] in Hget. injection Hget as <-.
    cbn [calls with_significance with_calledBy].
    apply JsMapFacts.get_In in Eg.
    destruct Hfresh as (_ & Hsn & _).
    generalize (Hself _ Eg). rewrite (Hsn _ Eg). exact (fun H => H). }
  repeat split; [exact Hname | exact Hcalls |].
  intros Hin. apply Hcalls.
  rewrite <- Hname in Hin |- *. now apply (Hinv k f Hget).
Qed.

(* ------------------------------------------------------------------ *)
(** ** Scores, cutoffs and validated positions *)

(** X5. Whatever the graph and the exports, the score that
    [calculateSignificance] assigns lies between 43 and 100: the lower clamp at
    0 never applies. *)
Theorem score_between_43_and_100 (fns : list FunctionNode) (exps : list string)
  (func : FunctionNode) :
  (43 <= scoreOf fns exps func <= 100)%Z.
Proof.
  unfold scoreOf.
  set (k := len (filter _ (calls func))).
  pose proof (len_nonneg (calledBy func)) as Hn.
  pose proof (len_nonneg (calls func)) as Hc.
  set (n := len (calledBy func)) in *. set (c := len (calls func)) in *.
  destruct (includes exps (name func));
    destruct (Z.eqb_spec n 0); destruct (Z.ltb_spec 0 n);
    destruct (Z.ltb_spec 3 c); destruct (Z.ltb_spec 3 n);
    destruct (Z.ltb_spec 0 c); destruct (Z.ltb_spec 2 k);
    cbv beta iota zeta delta [andb]; lia.
Qed.

Lemma calleeAlsoCalled_ext (fns fns' : list FunctionNode) (c : string) :
  map (fun g => (name g, calledBy g)) fns =
  map (fun g => (name g, calledBy g)) fns' ->
  calleeAlsoCalled fns c = calleeAlsoCalled fns' c.
Proof.
  unfold calleeAlsoCalled.
  revert fns'. induction fns as [|g fns IH]; intros [|g' fns'] H;
    try discriminate; [reflexivity|].
  simpl in H. injection H as Hn Hc Hrest. simpl. rewrite Hn.
  destruct (String.eqb (name g') c); [now rewrite Hc | now apply IH].
Qed.

Lemma scoreOf_ext (fns fns' : list FunctionNode) (exps : list string)
  (f f' : FunctionNode) :
  map (fun g => (name g, calledBy g)) fns =
  map (fun g => (name g, calledBy g)) fns' ->
  name f = name f' -> calls f = calls f' -> calledBy f = calledBy f' ->
  scoreOf fns exps f = scoreOf fns' exps f'.
Proof.
  intros Hfns Hn Hc Hcb. unfold scoreOf. rewrite Hn, Hc, Hcb.
  now rewrite (filter_ext _ _ (fun c => calleeAlsoCalled_ext fns fns' c Hfns)).
Qed.

(** X6. [calculateSignificance] is idempotent: the score does not
    depend on the significance already stored, so scoring a scored analysis
    again returns it unchanged. *)
Theorem rescoring_changes_nothing (analysis : CodeAnalysis) :
  calculateSignificance (calculateSignificance analysis) =
  calculateSignificance analysis.
Proof.
  unfold calculateSignificance at 2 3.
  destruct (Nat.eqb (List.length (JsMap.values (functions analysis))) 0) eqn:E.
  - unfold calculateSignificance. now rewrite E.
  - set (score := fun e : string * FunctionNode => _).
    unfold calculateSignificance. cbn [functions with_functions exports].
    unfold JsMap.values in *. rewrite !length_map in *. rewrite E.
    unfold with_functions. cbn [ca_fileName ca_language functions imports exports].
    f_equal. rewrite map_map. apply map_ext. intros e. subst score.
    cbn [fst snd]. f_equal.
    match goal with
    | |- with_significance _ ?s2 = with_significance _ ?s1 =>
        assert (Hs : s2 = s1)
    end.
    { apply scoreOf_ext; try reflexivity.
      rewrite !map_map. apply map_ext. reflexivity. }
    rewrite Hs. reflexivity.
Qed.

Section ViewportMore.

Import Visualizer.
Local Open Scope Q_scope.

Lemma getMinSignificance_steps (zoomLevel : Q) :
  getMinSignificance zoomLevel = Some (cutoffSteps zoomLevel).
Proof.
  unfold getMinSignificance, getMinSignificanceIn, cutoffSteps.
  rewrite thresholds_descending. cbn [firstAtMost].
  destruct (Qle_bool 2.5 zoomLevel); [reflexivity|].
  destruct (Qle_bool 1.8 zoomLevel); [reflexivity|].
  destruct (Qle_bool 1.3 zoomLevel); [reflexivity|].
  destruct (Qle_bool 1.0 zoomLevel); [reflexivity|].
  destruct (Qle_bool 0.8 zoomLevel); [reflexivity|].
  destruct (Qle_bool 0.5 zoomLevel); reflexivity.
Qed.

Lemma Qle_bool_mono (t z1 z2 : Q) :
  z1 <= z2 -> Qle_bool t z1 = true -> Qle_bool t z2 = true.
Proof.
  intros H H1. apply Qle_bool_iff in H1. apply Qle_bool_iff.
  now apply Qle_trans with z1.
Qed.

Lemma cutoffSteps_antitone (z1 z2 : Q) :
  z1 <= z2 -> (cutoffSteps z2 <= cutoffSteps z1)%Z.
Proof.
  intros H. unfold cutoffSteps.
  destruct (Qle_bool 2.5 z1) eqn:A1;
    [rewrite (Qle_bool_mono _ _ _ H A1); lia|].
  destruct (Qle_bool 1.8 z1) eqn:A2;
    [rewrite (Qle_bool_mono _ _ _ H A2); destruct (Qle_bool 2.5 z2); lia|].
  destruct (Qle_bool 1.3 z1) eqn:A3;
    [rewrite (Qle_bool_mono _ _ _ H A3);
     destruct (Qle_bool 2.5 z2); destruct (Qle_bool 1.8 z2); lia|].
  destruct (Qle_bool 1.0 z1) eqn:A4;
    [rewrite (Qle_bool_mono _ _ _ H A4);
     destruct (Qle_bool 2.5 z2); destruct (Qle_bool 1.8 z2);
     destruct (Qle_bool 1.3 z2); lia|].
  destruct (Qle_bool 0.8 z1) eqn:A5;
    [rewrite (Qle_bool_mono _ _ _ H A5);
     destruct (Qle_bool 2.5 z2); destruct (Qle_bool 1.8 z2);
     destruct (Qle_bool 1.3 z2); destruct (Qle_bool 1.0 z2); lia|].
  destruct (Qle_bool 2.5 z2); destruct (Qle_bool 1.8 z2);
    destruct (Qle_bool 1.3 z2); destruct (Qle_bool 1.0 z2);
    destruct (Qle_bool 0.8 z2); lia.
Qed.

(** X11. [getMinSignificance] returns a cutoff at every zoom level,
    between 0 and 70; the cutoff never rises when the zoom level does; and
    below 0.8, which includes every level under the lowest threshold 0.5, it
    is 70. *)
Theorem cutoff_never_rises_with_zoom (z1 z2 : Q) :
  z1 <= z2 ->
  exists c1 c2,
    getMinSignificance z1 = Some c1 /\ getMinSignificance z2 = Some c2 /\
    (0 <= c2 <= c1)%Z /\ (c1 <= 70)%Z /\
    (z1 < 0.8 -> c1 = 70%Z).
Proof.
  intros H. exists (cutoffSteps z1), (cutoffSteps z2).
  rewrite !getMinSignificance_steps.
  repeat split; try reflexivity.
  - unfold cutoffSteps. repeat destruct (Qle_bool _ z2); lia.
  - now apply cutoffSteps_antitone.
  - unfold cutoffSteps. repeat destruct (Qle_bool _ z1); lia.
  - intros Hlow. unfold cutoffSteps.
    assert (Hno : forall t, 0.8 <= t -> Qle_bool t z1 = false).
    { intros t Ht. apply not_true_is_false. intros Hle.
      apply Qle_bool_iff in Hle. lra. }
    rewrite !Hno by lra. reflexivity.
Qed.

Lemma cutoff_never_rises_with_zoom_witness :
  exists c1 c2,
    getMinSignificance 0.6 = Some c1 /\ getMinSignificance 1.2 = Some c2 /\
    (0 <= c2 <= c1)%Z /\ (c1 <= 70)%Z /\
    (0.6 < 0.8 -> c1 = 70%Z).
Proof. apply (cutoff_never_rises_with_zoom 0.6 1.2). discriminate. Defined.

(** X12. With the mode and the file sets unchanged, a function
    that [shouldShowFunction] accepts at one zoom level is accepted at every
    higher zoom level. *)
Theorem zooming_in_never_hides (func : FunctionNode) (z1 z2 : Q)
  (ws : bool) (expanded toShow : list string) :
  z1 <= z2 ->
  shouldShowFunction func z1 ws expanded toShow = true ->
  shouldShowFunction func z2 ws expanded toShow = true.
Proof.
  intros H. rewrite !shouldShowFunction_filter.
  destruct (fileFiltered func ws expanded toShow); [discriminate|].
  unfold meetsCutoff. rewrite !getMinSignificance_steps.
  rewrite !Z.leb_le. pose proof (cutoffSteps_antitone z1 z2 H). lia.
Qed.

Lemma zooming_in_never_hides_witness :
  shouldShowFunction helperOfA 2 false [] [] = true.
Proof.
  apply (zooming_in_never_hides helperOfA 1 2 false [] []).
  - discriminate.
  - vm_compute. reflexivity.
Defined.

(** X13. At zoom 1.0 or more, every function of an analysis scored
    by [calculateSignificance] passes [shouldShowFunction] unless the workspace
    file filter excludes it: the significance cutoff hides no scored function
    there. *)
Theorem scored_functions_shown_from_zoom_1 (analysis : CodeAnalysis)
  (e : string * FunctionNode) (zoomLevel : Q) (ws : bool)
  (expanded toShow : list string) :
  1 <= zoomLevel ->
  In e (functions (calculateSignificance analysis)) ->
  shouldShowFunction (snd e) zoomLevel ws expanded toShow =
  negb (fileFiltered (snd e) ws expanded toShow).
Proof.
  intros Hz Hin. rewrite shouldShowFunction_filter.
  destruct (fileFiltered (snd e) ws expanded toShow); [reflexivity|].
  cbn [negb]. unfold meetsCutoff. rewrite getMinSignificance_steps.
  apply Z.leb_le.
  assert (Hc : (cutoffSteps zoomLevel <= 30)%Z).
  { pose proof (cutoffSteps_antitone 1 zoomLevel Hz) as Hm.
    change (cutoffSteps 1) with 30%Z in Hm. exact Hm. }
  rewrite calculateSignificance_functions in Hin.
  apply in_map_iff in Hin as [e0 [<- _]].
  cbn [snd]. unfold significanceOrDefault. cbn [significance with_significance].
  pose proof (score_between_43_and_100
                (JsMap.values (functions analysis)) (exports analysis) (snd e0)).
  lia.
Qed.

Lemma scored_functions_shown_from_zoom_1_witness :
  shouldShowFunction
    (snd ("f", mkFunctionNode "f" "f" 0 1 [] ["g"] [] "" None None (Some 58%Z)))
    1.2 false [] [] =
  negb (fileFiltered
          (snd ("f", mkFunctionNode "f" "f" 0 1 [] ["g"] [] "" None None (Some 58%Z)))
          false [] []).
Proof.
  apply (scored_functions_shown_from_zoom_1 (graphOf calledOnce)
           ("f", mkFunctionNode "f" "f" 0 1 [] ["g"] [] "" None None (Some 58%Z))
           1.2 false [] []).
  - discriminate.
  - vm_compute. left. reflexivity.
Defined.


Lemma validatePositions_valid (rand : Random) (n : nat) (width height : Q)
  (positions : list Position) :
  forallb (fun pos => negb (needsFallback pos))
    (fst (validatePositions rand n width height positions)) = true.
Proof.
  revert n. induction positions as [|pos rest IH]; intros n; [reflexivity|].
  cbn [validatePositions]. destruct (needsFallback pos) eqn:E.
  - specialize (IH (S (S n))).
    destruct (validatePositions rand (S (S n)) width height rest) as [r m].
    cbn [fst forallb] in *. now rewrite IH.
  - specialize (IH n).
    destruct (validatePositions rand n width height rest) as [r m].
    cbn [fst forallb] in *. now rewrite E, IH.
Qed.

(** X14. After the validation loop of [renderVisualization] has
    run, running it again, with any canvas size and any random draws, leaves
    every position as it is and draws no random number. *)
Theorem validation_is_idempotent (rand rand' : Random) (n n' : nat)
  (width height width' height' : Q) (positions : list Position) :
  let validated := fst (validatePositions rand n width height positions) in
  validatePositions rand' n' width' height' validated = (validated, n').
Proof.
  cbn zeta. apply validatePositions_steady, validatePositions_valid.
Qed.

End ViewportMore.

Lemma split_nonempty (c : ascii) (s : string) : JsString.split c s <> [].
Proof.
  destruct s as [|a s]; cbn [JsString.split]; [discriminate|].
  destruct (Ascii.eqb a c); [discriminate|].
  destruct (JsString.split c s); discriminate.
Qed.

Lemma split_slash_free (s : string) :
  slash_free s = true -> JsString.split "/"%char s = [s].
Proof.
  induction s as [|a s IH]; cbn [slash_free JsString.split]; [reflexivity|].
  intros H. apply andb_prop in H as [Ha Hs]. apply negb_true_iff in Ha.
  rewrite Ha, (IH Hs). reflexivity.
Qed.

Lemma split_at_separator (c : ascii) (dir base : string) :
  JsString.split c (dir ++ String c base)%string =
  JsString.split c dir ++ JsString.split c base.
Proof.
  induction dir as [|a dir IH]; cbn [String.append JsString.split].
  - now rewrite Ascii.eqb_refl.
  - rewrite IH. destruct (Ascii.eqb a c); [reflexivity|].
    pose proof (split_nonempty c dir) as Hne.
    destruct (JsString.split c dir); [contradiction|reflexivity].
Qed.

Lemma pop_after_segments (l1 l2 : list string) :
  l2 <> [] -> JsString.pop (l1 ++ l2) = JsString.pop l2.
Proof.
  unfold JsString.pop. intros H.
  induction l1 as [|x l1 IH]; [reflexivity|].
  cbn [app last]. destruct (l1 ++ l2) eqn:E; [|exact IH].
  apply app_eq_nil in E as [_ E]. contradiction.
Qed.

(** X10. The file label of a path that ends in a slash-free segment
    after a slash is that segment; when the segment is empty (the path ends in
    a slash) the label is the whole path. *)
Theorem file_label_is_last_segment (dir base : string) :
  slash_free base = true ->
  fileLabelOf (dir ++ "/" ++ base)%string =
  if String.eqb base "" then (dir ++ "/")%string else base.
Proof.
  intros H. unfold fileLabelOf.
  change (dir ++ "/" ++ base)%string with (dir ++ String "/" base)%string.
  rewrite split_at_separator, pop_after_segments by apply split_nonempty.
  rewrite (split_slash_free base H). unfold JsString.pop. cbn [last].
  destruct (String.eqb base "") eqn:E; [|reflexivity].
  apply String.eqb_eq in E. now subst.
Qed.

Lemma file_label_is_last_segment_witness :
  fileLabelOf ("/ws/src" ++ "/" ++ "a.ts")%string =
  if String.eqb "a.ts" "" then ("/ws/src" ++ "/")%string else "a.ts".
Proof. apply (file_label_is_last_segment "/ws/src" "a.ts"). reflexivity. Defined.

(* ------------------------------------------------------------------ *)
(** ** Linking twice, and what a merge keeps *)

Lemma pushAll_In (cb l : list string) (y : string) :
  In y (pushAll cb l) <-> In y cb \/ In y l.
Proof.
  revert cb. induction l as [|a l IH]; intros cb.
  - unfold pushAll. simpl. tauto.
  - change (pushAll cb (a :: l))
      with (pushAll (if includes cb a then cb else cb ++ [a]) l).
    rewrite IH. destruct (includes cb a) eqn:E.
    + apply includes_In in E. simpl. split; [tauto|].
      intros [H | [<- | H]]; tauto.
    + rewrite in_app_iff. simpl. tauto.
Qed.

Lemma pushAll_absorbed (cb l : list string) :
  (forall y, In y l -> In y cb) -> pushAll cb l = cb.
Proof.
  induction l as [|a l IH]; intros H; [reflexivity|].
  change (pushAll cb (a :: l))
    with (pushAll (if includes cb a then cb else cb ++ [a]) l).
  assert (Ha : includes cb a = true) by (apply includes_In, H; now left).
  rewrite Ha. apply IH. intros y Hy. apply H. now right.
Qed.

Lemma byName_with_calledBy (k : string) (f : FunctionNode) (cb : list string) :
  (fun e : string * FunctionNode => name (snd e)) (k, with_calledBy f cb) =
  (fun e : string * FunctionNode => name (snd e)) (k, f).
Proof. reflexivity. Qed.

Lemma buildCalledByRelationships_run (a : CodeAnalysis) :
  NoDup (map (fun e => name (snd e)) (functions a)) ->
  functions (buildCalledByRelationships a) =
  map (bumps (fun e => name (snd e))
         (pairsBy (fun e => name (snd e)) (functions a)))
    (functions a).
Proof.
  intros Hnd.
  unfold buildCalledByRelationships. cbn [functions with_functions].
  unfold JsMap.values. rewrite fold_left_map.
  rewrite <- (linkWith_run _ byName_with_calledBy) by exact Hnd.
  unfold pairsBy. rewrite fold_left_flat_map.
  apply fold_left_ext_in. intros st e _. now rewrite fold_left_map.
Qed.

Lemma bumps_twice (ps : list (string * string)) (e : string * FunctionNode) :
  bumps (fun e => name (snd e)) ps (bumps (fun e => name (snd e)) ps e) =
  bumps (fun e => name (snd e)) ps e.
Proof.
  rewrite (bumps_shape _ byName_with_calledBy ps (bumps _ ps e)).
  rewrite (sel_bumps _ byName_with_calledBy).
  rewrite (bumps_shape _ byName_with_calledBy ps e).
  cbn [fst snd calledBy with_calledBy].
  set (callers := map fst _).
  rewrite (pushAll_absorbed (pushAll (calledBy (snd e)) callers));
    [reflexivity|].
  intros y Hy. apply pushAll_In. now right.
Qed.

(** X4. When the functions of an analysis have pairwise distinct
    names, running [buildCalledByRelationships] a second time changes nothing,
    whatever callers were there before the first run. *)
Theorem linking_twice_adds_nothing (analysis : CodeAnalysis) :
  NoDup (map name (JsMap.values (functions analysis))) ->
  buildCalledByRelationships (buildCalledByRelationships analysis) =
  buildCalledByRelationships analysis.
Proof.
  intros Hnd. unfold JsMap.values in Hnd. rewrite map_map in Hnd.
  set (sel := fun e : string * FunctionNode => name (snd e)) in *.
  pose proof (buildCalledByRelationships_run analysis Hnd) as H1. fold sel in H1.
  assert (Hsel : forall ps (m : JsMap.t FunctionNode),
             map sel (map (bumps sel ps) m) = map sel m).
  { intros ps m. rewrite map_map. apply map_ext. intros e.
    apply (sel_bumps sel byName_with_calledBy). }
  assert (Hnd1 : NoDup (map sel (functions (buildCalledByRelationships analysis)))).
  { now rewrite H1, Hsel. }
  pose proof (buildCalledByRelationships_run _ Hnd1) as H2. fold sel in H2.
  assert (Hps : pairsBy sel (functions (buildCalledByRelationships analysis))
                = pairsBy sel (functions analysis)).
  { rewrite H1. unfold pairsBy. rewrite flat_map_concat_map, map_map.
    rewrite flat_map_concat_map. f_equal. apply map_ext. intros e.
    rewrite (sel_bumps sel byName_with_calledBy).
    now rewrite (calls_bumps sel _ e byName_with_calledBy). }
  rewrite Hps, H1, map_map in H2.
  assert (Hfun : functions (buildCalledByRelationships
                              (buildCalledByRelationships analysis))
                 = functions (buildCalledByRelationships analysis)).
  { rewrite H2, H1. apply map_ext. intros e. apply bumps_twice. }
  change (buildCalledByRelationships (buildCalledByRelationships analysis))
    with (with_functions (buildCalledByRelationships analysis)
            (functions (buildCalledByRelationships
                          (buildCalledByRelationships analysis)))).
  rewrite Hfun. reflexivity.
Qed.

Lemma linking_twice_adds_nothing_witness :
  buildCalledByRelationships (buildCalledByRelationships (graphOf calledOnce)) =
  buildCalledByRelationships (graphOf calledOnce).
Proof.
  apply (linking_twice_adds_nothing (graphOf calledOnce)).
  vm_compute. repeat constructor. intros [].
Defined.

Lemma In_mergeEntries (analyses : list CodeAnalysis)
  (x : CodeAnalysis * (string * FunctionNode)) :
  In x (mergeEntries analyses) <->
  In (fst x) analyses /\ In (snd x) (functions (fst x)).
Proof.
  unfold mergeEntries. rewrite in_flat_map. split.
  - intros (a & Ha & Hx). apply in_map_iff in Hx as (e & <- & He). now split.
  - intros [Ha He]. exists (fst x). split; [exact Ha|].
    apply in_map_iff. exists (snd x). split; [now destruct x | exact He].
Qed.

(** X7. For any list of analyses, the keys of the merged graph are
    pairwise distinct, a key is present exactly when it is the name of some
    function of some analysis followed by the separator and that analysis's
    file label, and the merged graph never has more entries than the analyses
    have functions in total. *)
Theorem merged_keys_are_entry_keys (analyses : list CodeAnalysis) :
  let keys := JsMap.keys (functions (mergeAnalyses analyses)) in
  NoDup keys /\
  (forall k, In k keys <->
     exists a e, In a analyses /\ In e (functions a) /\
       k = uniqueKey (fst e) (fileLabelOf (ca_fileName a))) /\
  (JsMap.size (functions (mergeAnalyses analyses))
   <= list_sum (map (fun a => JsMap.size (functions a)) analyses))%nat.
Proof.
  cbn zeta.
  destruct (merged_store analyses)
    as (merged & store & -> & _ & Hkeys & Hwf & _ & _ & _).
  rewrite merged_keys.
  assert (Hiff : forall k, In k (JsMap.keys store) <->
            exists x, In x (mergeEntries analyses) /\ entryKey x = k).
  { intros k. rewrite Hkeys. split.
    - apply insertSteps_keys_origin.
    - intros (x & Hx & <-). now apply insertSteps_has. }
  split; [exact Hwf|]. split.
  - intros k. rewrite Hiff. split.
    + intros (x & Hx & <-). apply In_mergeEntries in Hx as [Ha He].
      exists (fst x), (snd x). now repeat split.
    + intros (a & e & Ha & He & ->). exists (a, e). split; [|reflexivity].
      apply In_mergeEntries. now split.
  - unfold JsMap.size.
    replace (List.length (functions (calculateSignificance
               (with_functions merged (linked fst store)))))
      with (List.length (JsMap.keys store)).
    2:{ rewrite <- (merged_keys merged store). unfold JsMap.keys.
        now rewrite length_map. }
    assert (Hlen : List.length (mergeEntries analyses)
                   = list_sum (map (fun a => List.length (functions a)) analyses)).
    { unfold mergeEntries. clear. induction analyses as [|a l IH]; [reflexivity|].
      cbn [flat_map map list_sum]. rewrite length_app, length_map, IH.
      reflexivity. }
    rewrite <- Hlen, <- (length_map entryKey).
    apply NoDup_incl_length; [exact Hwf|].
    intros k Hk. apply Hiff in Hk as (x & Hx & <-). now apply in_map.
Qed.

(** X8. The merged analysis is named "Workspace Analysis", its
    language is "multiple", and its imports and exports are the imports and
    exports of the analyses, concatenated in order with duplicates kept. *)
Theorem merged_header_and_lists (analyses : list CodeAnalysis) :
  ca_fileName (mergeAnalyses analyses) = "Workspace Analysis" /\
  ca_language (mergeAnalyses analyses) = "multiple" /\
  imports (mergeAnalyses analyses) = flat_map imports analyses /\
  exports (mergeAnalyses analyses) = flat_map exports analyses.
Proof.
  unfold mergeAnalyses.
  set (start := mkCodeAnalysis "Workspace Analysis" "multiple" JsMap.empty [] []).
  destruct (mergeInsert_header analyses start) as (Hf & Hl & Hi).
  pose proof (mergeInsert_exports analyses start) as He.
  unfold calculateSignificance.
  destruct (Nat.eqb _ 0);
    cbn [ca_fileName ca_language imports exports with_functions];
    rewrite Hf, Hl, Hi, He; repeat split.
Qed.

Lemma sameDetails_refl m : sameDetails m m.
Proof. intros k. reflexivity. Qed.

Lemma sameDetails_trans m1 m2 m3 :
  sameDetails m1 m2 -> sameDetails m2 m3 -> sameDetails m1 m3.
Proof. intros H1 H2 k. now rewrite H1. Qed.

Lemma sameDetails_set (m : JsMap.t FunctionNode) (k : string)
  (f g : FunctionNode) :
  JsMap.get k m = Some f -> name g = name f -> details g = details f ->
  sameDetails (JsMap.set k g m) m.
Proof.
  intros Hget Hn Hd k'. destruct (string_dec k k') as [<- | Hne].
  - rewrite JsMapFacts.get_set_eq, Hget. cbn [option_map]. now rewrite Hn, Hd.
  - now rewrite JsMapFacts.get_set_neq.
Qed.

Lemma sameDetails_fold {A : Type} (step : JsMap.t FunctionNode -> A -> JsMap.t FunctionNode)
  (l : list A) (m : JsMap.t FunctionNode) :
  (forall st x, sameDetails (step st x) st) ->
  sameDetails (fold_left step l m) m.
Proof.
  intros H. revert m. induction l as [|x l IH]; intros m; [apply sameDetails_refl|].
  cbn [fold_left]. eapply sameDetails_trans; [apply IH | apply H].
Qed.

Lemma rewriteStep_details m x : sameDetails (rewriteStep m x) m.
Proof.
  unfold rewriteStep. destruct (JsMap.get (entryKey x) m) as [f|] eqn:E;
    [|apply sameDetails_refl].
  now apply (sameDetails_set m _ f).
Qed.

Lemma linkByKey_details a c m : sameDetails (linkByKey a c m) m.
Proof.
  unfold linkByKey. destruct (JsMap.get c m) as [f|] eqn:E;
    [|apply sameDetails_refl].
  destruct (includes (calledBy f) a); [apply sameDetails_refl|].
  now apply (sameDetails_set m _ f).
Qed.

Lemma mergeLink_details m : sameDetails (mergeLink m) m.
Proof.
  unfold mergeLink. apply sameDetails_fold. intros st k.
  destruct (JsMap.get k st); [|apply sameDetails_refl].
  apply sameDetails_fold. intros st' c. apply linkByKey_details.
Qed.

Lemma calculateSignificance_details (a : CodeAnalysis) :
  sameDetails (functions (calculateSignificance a)) (functions a).
Proof.
  intros k. rewrite calculateSignificance_get.
  now destruct (JsMap.get k (functions a)).
Qed.

Lemma insertSteps_last pre x post m :
  (forall y, In y post -> entryKey y <> entryKey x) ->
  JsMap.get (entryKey x) (fold_left insertStep (pre ++ x :: post) m) =
  Some (mkFunctionNode (entryKey x) (fst (snd x))
          (startLine (snd (snd x))) (endLine (snd (snd x)))
          (calls (snd (snd x))) (calledBy (snd (snd x)))
          (params (snd (snd x))) (complexity (snd (snd x)))
          (Some (ca_fileName (fst x))) (code (snd (snd x)))
          (significance (snd (snd x)))).
Proof.
  intros Hpost. rewrite fold_left_app. cbn [fold_left].
  generalize (fold_left insertStep pre m). intros m0.
  assert (H0 : JsMap.get (entryKey x) (insertStep m0 x) = Some
          (mkFunctionNode (entryKey x) (fst (snd x))
          (startLine (snd (snd x))) (endLine (snd (snd x)))
          (calls (snd (snd x))) (calledBy (snd (snd x)))
          (params (snd (snd x))) (complexity (snd (snd x)))
          (Some (ca_fileName (fst x))) (code (snd (snd x)))
          (significance (snd (snd x))))).
  { unfold insertStep. apply JsMapFacts.get_set_eq. }
  revert H0. generalize (insertStep m0 x). clear m0.
  induction post as [|y post IH]; intros m1 H1; [exact H1|].
  cbn [fold_left]. apply IH.
  - intros z Hz. apply Hpost. now right.
  - unfold insertStep at 1. rewrite JsMapFacts.get_set_neq; [exact H1|].
    apply Hpost. now left.
Qed.

(** X9. In the merged graph, the record under the key of an entry
    (the last entry with that key, when several collide) is named by that key
    and keeps the entry's local name as display name, the file name of the
    entry's analysis, and the entry's start line, end line, parameters,
    complexity and code. *)
Theorem merged_record_keeps_last_entry (analyses : list CodeAnalysis)
  (pre post : list (CodeAnalysis * (string * FunctionNode)))
  (x : CodeAnalysis * (string * FunctionNode)) :
  mergeEntries analyses = pre ++ x :: post ->
  (forall y, In y post -> entryKey y <> entryKey x) ->
  exists mergedFunc,
    JsMap.get (entryKey x) (functions (mergeAnalyses analyses)) = Some mergedFunc /\
    name mergedFunc = entryKey x /\
    displayName mergedFunc = fst (snd x) /\
    fileName mergedFunc = Some (ca_fileName (fst x)) /\
    startLine mergedFunc = startLine (snd (snd x)) /\
    endLine mergedFunc = endLine (snd (snd x)) /\
    params mergedFunc = params (snd (snd x)) /\
    complexity mergedFunc = complexity (snd (snd x)) /\
    code mergedFunc = code (snd (snd x)).
Proof.
  intros HE Hpost. unfold mergeAnalyses.
  set (start := mkCodeAnalysis "Workspace Analysis" "multiple" JsMap.empty [] []).
  set (merged := fold_left mergeInsert analyses start).
  assert (Hsame : sameDetails
            (functions (calculateSignificance
               (with_functions merged
                  (mergeLink (fold_left mergeRewrite analyses (functions merged))))))
            (functions merged)).
  { eapply sameDetails_trans; [apply calculateSignificance_details|].
    cbn [functions with_functions].
    eapply sameDetails_trans; [apply mergeLink_details|].
    rewrite mergeRewrite_steps. apply sameDetails_fold. apply rewriteStep_details. }
  specialize (Hsame (entryKey x)).
  unfold merged at 3 in Hsame. rewrite mergeInsert_functions in Hsame.
  cbn [functions start] in Hsame.
  rewrite HE, (insertSteps_last pre x post JsMap.empty Hpost) in Hsame.
  destruct (JsMap.get (entryKey x) _) as [mf|]; [|discriminate].
  cbn [option_map name details displayName startLine endLine params complexity
       fileName code] in Hsame.
  injection Hsame as Hn Hd Hs He Hp Hc Hf Hcode.
  exists mf. repeat split; assumption.
Qed.

Lemma merged_record_keeps_last_entry_witness :
  exists mergedFunc,
    JsMap.get "load::b.ts" (functions (mergeAnalyses demoWorkspace)) = Some mergedFunc /\
    name mergedFunc = "load::b.ts" /\
    displayName mergedFunc = "load" /\
    fileName mergedFunc = Some "/ws/b.ts" /\
    startLine mergedFunc = 0%Z /\
    endLine mergedFunc = 1%Z /\
    params mergedFunc = [] /\
    complexity mergedFunc = "" /\
    code mergedFunc = Some "".
Proof.
  apply (merged_record_keeps_last_entry demoWorkspace
           (firstn 2 (mergeEntries demoWorkspace))
           (skipn 3 (mergeEntries demoWorkspace))
           (nth 2 (mergeEntries demoWorkspace)
              (demoFileB, ("", loneFunction)))).
  - reflexivity.
  - intros y [<- | []]. vm_compute. discriminate.
Defined.

(* ------------------------------------------------------------------ *)
(** ** The links of the render loops *)

Section RenderLoops.

Import Visualizer Render.


Lemma In_placed fns positions i f p :
  List.length positions = List.length fns ->
  In (i, (f, p)) (placed fns positions) <->
  nth_error fns i = Some f /\ nth_error positions i = Some p.
Proof.
  intros Hlen. unfold placed.
  replace (List.length fns) with (List.length (combine fns positions))
    by (rewrite length_combine; lia).
  rewrite combine_seq_nodes, Nat.sub_0_r.
  split.
  - intros [_ H]. revert i H. clear Hlen. revert positions.
    induction fns as [|g fns IH]; intros [|q positions] [|i] H;
      try discriminate; cbn in *.
    + now injection H as <- <-.
    + now apply IH.
  - intros [Hf Hp]. split; [lia|]. revert i Hf Hp. clear Hlen. revert positions.
    induction fns as [|g fns IH]; intros [|q positions] [|i] Hf Hp;
      try discriminate; cbn in *.
    + now injection Hf as <-; injection Hp as <-.
    + now apply IH.
Qed.

Lemma hasIndex_In s i : hasIndex s i = true <-> In i s.
Proof.
  unfold hasIndex. rewrite existsb_exists. split.
  - intros (j & Hj & E). apply Nat.eqb_eq in E. now subst.
  - intros H. exists i. split; [exact H | apply Nat.eqb_refl].
Qed.

Lemma In_visibleIndices vs toShow fns positions i :
  List.length positions = List.length fns ->
  In i (visibleIndices vs toShow fns positions) <->
  exists func pos,
    nth_error fns i = Some func /\ nth_error positions i = Some pos /\
    gtNum (px pos) (-1000) = true /\
    shouldShowFunction func (scale vs) (isWorkspaceMode vs) (expandedFiles vs)
      toShow = true.
Proof.
  intros Hlen. unfold visibleIndices. rewrite in_map_iff. split.
  - intros ([j [f p]] & <- & H). apply filter_In in H as [Hin Hb].
    apply (In_placed _ _ _ _ _ Hlen) in Hin as [Hf Hp].
    apply andb_prop in Hb as [Hx Hs]. exists f, p. now repeat split.
  - intros (f & p & Hf & Hp & Hx & Hs). exists (i, (f, p)).
    split; [reflexivity|]. apply filter_In.
    split; [now apply In_placed|]. cbn [fst snd]. now rewrite Hx, Hs.
Qed.

Lemma gt_not_lt (v : JsNum) : gtNum v (-1000) = true -> ltNum v (-1000) = false.
Proof.
  destruct v as [q| | | |]; cbn; try discriminate; [|reflexivity].
  rewrite !negb_true_iff, negb_false_iff. intros H.
  apply Qle_bool_iff. destruct (Qle_bool q (-1000)) eqn:E; [discriminate|].
  apply Qnot_lt_le. intros Hlt.
  assert (Hle : (q <= -1000)%Q) by now apply Qlt_le_weak.
  apply Qle_bool_iff in Hle. congruence.
Qed.

Lemma In_standardNodes vs fns positions i :
  List.length positions = List.length fns ->
  In i (standardNodes vs fns positions) <->
  In i (visibleIndices vs [] fns positions).
Proof.
  intros Hlen. unfold standardNodes. rewrite filter_In. split; [tauto|].
  intros H. split; [exact H|].
  apply (In_visibleIndices _ _ _ _ _ Hlen) in H as (f & p & _ & Hp & Hx & _).
  unfold xAt. rewrite Hp. now rewrite gt_not_lt.
Qed.

(** X22. With one position per function, [renderStandardView]
    draws a link from index i to index t exactly when both are drawn nodes and
    the function at i calls a name whose first bearer in the array is at
    t. *)
Theorem standard_links_join_drawn_nodes (vs : ViewState)
  (fns : list FunctionNode) (positions : list Position) (i t : nat) :
  List.length positions = List.length fns ->
  (In (i, t) (standardLinks vs fns positions) <->
   In i (standardNodes vs fns positions) /\
   In t (standardNodes vs fns positions) /\
   exists func calledFunc,
     nth_error fns i = Some func /\ In calledFunc (calls func) /\
     findIndex calledFunc fns = Some t).
Proof.
  intros Hlen. rewrite !In_standardNodes by exact Hlen.
  unfold standardLinks. cbn zeta. rewrite in_flat_map. split.
  - intros ([j [f p]] & Hin & H). cbn [fst snd] in H.
    destruct (hasIndex _ j) eqn:Hj; cbn [negb orb] in H; [|contradiction].
    destruct (ltNum (px p) (-1000)); [contradiction|].
    apply in_flat_map in H as (c & Hc & H).
    destruct (findIndex c fns) as [t'|] eqn:Et; [|contradiction].
    destruct (hasIndex _ t') eqn:Ht; cbn [andb] in H; [|contradiction].
    destruct (gtNum (xAt positions t') (-1000)); [|contradiction].
    destruct H as [[= <- <-] | []].
    apply hasIndex_In in Hj, Ht.
    apply (In_placed _ _ _ _ _ Hlen) in Hin as [Hf _].
    split; [exact Hj|]. split; [exact Ht|]. now exists f, c.
  - intros (Hi & Ht & f & c & Hf & Hc & Et).
    pose proof Hi as Hi'. pose proof Ht as Ht'.
    apply (In_visibleIndices _ _ _ _ _ Hlen) in Hi' as (f' & p & Hf' & Hp & Hx & _).
    apply (In_visibleIndices _ _ _ _ _ Hlen) in Ht' as (g & q & _ & Hq & Hxq & _).
    assert (f' = f) by congruence. subst f'.
    exists (i, (f, p)). split; [now apply In_placed|]. cbn [fst snd].
    apply hasIndex_In in Hi, Ht. rewrite Hi, (gt_not_lt _ Hx). cbn [negb orb].
    apply in_flat_map. exists c. split; [exact Hc|].
    rewrite Et, Ht. unfold xAt. rewrite Hq, Hxq. now left.
Qed.

Lemma standard_links_join_drawn_nodes_witness :
  In (0%nat, 1%nat)
    (standardLinks (mkViewState 1.0 false [] []) [mainOfA; helperOfA]
       [posXY 100 100; posXY 200 200]) <->
  In 0%nat
    (standardNodes (mkViewState 1.0 false [] []) [mainOfA; helperOfA]
       [posXY 100 100; posXY 200 200]) /\
  In 1%nat
    (standardNodes (mkViewState 1.0 false [] []) [mainOfA; helperOfA]
       [posXY 100 100; posXY 200 200]) /\
  exists func calledFunc,
    nth_error [mainOfA; helperOfA] 0 = Some func /\ In calledFunc (calls func) /\
    findIndex calledFunc [mainOfA; helperOfA] = Some 1%nat.
Proof.
  apply (standard_links_join_drawn_nodes (mkViewState 1.0 false [] [])
           [mainOfA; helperOfA] [posXY 100 100; posXY 200 200] 0 1).
  reflexivity.
Defined.

(** X23. With one position per function, every link that
    [renderDetailedView] draws ends at a drawn node and starts at a visible
    function; in workspace mode with a file expanded it also starts at a drawn
    node. *)
Theorem detailed_links_end_at_drawn_nodes (vs : ViewState)
  (fns : list FunctionNode) (positions : list Position) (i t : nat) :
  List.length positions = List.length fns ->
  In (i, t) (detailedLinks vs fns positions) ->
  In t (detailedNodes vs fns positions) /\
  In i (visibleIndices vs (filesToShow vs) fns positions) /\
  (isWorkspaceMode vs = true -> expandedFiles vs <> [] ->
   In i (detailedNodes vs fns positions)).
Proof.
  intros Hlen. unfold detailedLinks. cbn zeta. rewrite in_flat_map.
  intros ([j [f p]] & Hin & H). cbn [fst snd] in H.
  destruct (hasIndex _ j) eqn:Hj; cbn [negb] in H; [|contradiction].
  apply in_flat_map in H as (c & Hc & H).
  destruct (findIndex c fns) as [t'|] eqn:Et; [|contradiction].
  destruct (hasIndex _ t') eqn:Ht; cbn [andb] in H; [|contradiction].
  destruct (gtNum (xAt positions t') (-1000)); cbn [andb] in H; [|contradiction].
  destruct (nth_error fns t') as [g|] eqn:Eg; [|contradiction].
  destruct (hasFile (filesToShow vs) (fileName g)) eqn:Hg; [|contradiction].
  destruct H as [[= <- <-] | []].
  apply hasIndex_In in Hj, Ht.
  split; [|split; [exact Hj|]].
  - unfold detailedNodes. apply filter_In. split; [exact Ht|]. now rewrite Eg.
  - intros Hws Hexp. unfold detailedNodes. apply filter_In.
    split; [exact Hj|].
    apply (In_visibleIndices _ _ _ _ _ Hlen) in Hj as (f' & p' & Hf' & _ & _ & Hs).
    rewrite Hf'. unfold shouldShowFunction in Hs. rewrite Hws in Hs.
    destruct (expandedFiles vs) as [|x l]; [contradiction|].
    cbn [andb List.length Nat.eqb negb] in Hs.
    destruct (hasFile (filesToShow vs) (fileName f')); [reflexivity|].
    discriminate.
Qed.

Lemma detailed_links_end_at_drawn_nodes_witness :
  In 1%nat
    (detailedNodes (mkViewState 1.0 true ["/ws/a.ts"] ["/ws/a.ts"; "/ws/b.ts"])
       [mainOfA; helperOfA] [posXY 100 100; posXY 200 200]) /\
  In 0%nat
    (visibleIndices (mkViewState 1.0 true ["/ws/a.ts"] ["/ws/a.ts"; "/ws/b.ts"])
       (filesToShow (mkViewState 1.0 true ["/ws/a.ts"] ["/ws/a.ts"; "/ws/b.ts"]))
       [mainOfA; helperOfA] [posXY 100 100; posXY 200 200]) /\
  (isWorkspaceMode (mkViewState 1.0 true ["/ws/a.ts"] ["/ws/a.ts"; "/ws/b.ts"]) = true ->
   expandedFiles (mkViewState 1.0 true ["/ws/a.ts"] ["/ws/a.ts"; "/ws/b.ts"]) <> [] ->
   In 0%nat
     (detailedNodes (mkViewState 1.0 true ["/ws/a.ts"] ["/ws/a.ts"; "/ws/b.ts"])
        [mainOfA; helperOfA] [posXY 100 100; posXY 200 200])).
Proof.
  apply (detailed_links_end_at_drawn_nodes
           (mkViewState 1.0 true ["/ws/a.ts"] ["/ws/a.ts"; "/ws/b.ts"])
           [mainOfA; helperOfA] [posXY 100 100; posXY 200 200] 0 1).
  - reflexivity.
  - vm_compute. left. reflexivity.
Defined.

End RenderLoops.

(* ------------------------------------------------------------------ *)
(** ** Zooming *)

Section Zooming.

Import Zoom.
Local Open Scope Q_scope.




Lemma qmin_glb a b c : c <= a -> c <= b -> c <= Layout.qmin a b.
Proof. unfold Layout.qmin. now destruct (Qle_bool a b). Qed.






End Zooming.

(* ------------------------------------------------------------------ *)
(** ** Truncated labels *)

Section LabelFacts.

Import Labels.
Local Open Scope Z_scope.

Lemma substring_length (s : JsText) (a b : Z) :
  0 <= a -> a <= b ->
  textLength (substring s a b) = Z.min b (textLength s) - Z.min a (textLength s).
Proof.
  intros Ha Hab. unfold substring, textLength, clampIndex.
  rewrite length_firstn, length_skipn. lia.
Qed.

Lemma substring_prefix_length (s : JsText) (b : Z) :
  textLength (substring s 0 b) = Z.max 0 (Z.min b (textLength s)).
Proof.
  unfold substring, textLength, clampIndex.
  rewrite length_firstn, length_skipn. lia.
Qed.

Lemma substringFrom_length (s : JsText) (a : Z) :
  textLength (substringFrom s a) = textLength s - Z.max 0 (Z.min a (textLength s)).
Proof.
  unfold substringFrom, substring, textLength, clampIndex.
  rewrite length_firstn, length_skipn. lia.
Qed.

Lemma textLength_app (s t : JsText) :
  textLength (s ++ t) = textLength s + textLength t.
Proof. unfold textLength. rewrite length_app. lia. Qed.

(** X26. For an integer limit of at least 1, the label that
    [smartTruncate] returns has at most that many code units, whichever of
    its three shortenings applies, and a name within the limit is returned
    unchanged. *)
Theorem truncated_name_fits (name : JsText) (maxLength : Z) :
  1 <= maxLength ->
  textLength (smartTruncate name maxLength) <= maxLength /\
  (textLength name <= maxLength -> smartTruncate name maxLength = name).
Proof.
  intros Hm. unfold smartTruncate.
  destruct (Z.leb_spec (textLength name) maxLength) as [Hfit | Hlong];
    [split; [exact Hfit | reflexivity]|].
  split; [|lia].
  set (camel := if hasCamelBoundary name then _ else None).
  assert (Hcamel : match camel with
                   | Some label => textLength label <= maxLength
                   | None => True
                   end).
  { subst camel. destruct (hasCamelBoundary name); [|exact I].
    destruct (Nat.ltb 1 _); [|exact I].
    destruct (Z.leb_spec (textLength (firstPart (splitBeforeUpper name))
                          + textLength (lastPart (splitBeforeUpper name)) + 2)
                maxLength) as [H | H]; [|exact I].
    rewrite !textLength_app. change (textLength [ellipsis]) with 1. lia. }
  destruct camel as [label|]; [exact Hcamel|].
  set (snake := if includesUnit name underscore then _ else None).
  assert (Hsnake : match snake with
                   | Some label => textLength label <= maxLength
                   | None => True
                   end).
  { subst snake. destruct (includesUnit name underscore); [|exact I].
    destruct (Nat.ltb 1 _); [|exact I].
    destruct (Z.leb_spec (textLength (firstPart (splitOn underscore name))
                          + textLength (lastPart (splitOn underscore name)) + 3)
                maxLength) as [H | H]; [|exact I].
    rewrite !textLength_app.
    change (textLength [underscore; ellipsis; underscore]) with 3. lia. }
  destruct snake as [label|]; [exact Hsnake|].
  rewrite !textLength_app, substring_prefix_length, substringFrom_length.
  change (textLength [ellipsis]) with 1.
  pose proof (Z.div_mod (maxLength - 1) 2 ltac:(lia)) as Hd.
  pose proof (Z.mod_pos_bound (maxLength - 1) 2 ltac:(lia)) as Hr.
  lia.
Qed.

Lemma truncated_name_fits_witness :
  textLength (smartTruncate (unitsOf "calculateHierarchicalLayout") 20) <= 20 /\
  (textLength (unitsOf "calculateHierarchicalLayout") <= 20 ->
   smartTruncate (unitsOf "calculateHierarchicalLayout") 20
   = unitsOf "calculateHierarchicalLayout").
Proof.
  apply (truncated_name_fits (unitsOf "calculateHierarchicalLayout") 20). lia.
Defined.

(** X27. For an integer limit of at least 8, the label that
    [truncateFileName] returns has at most that many code units, with or
    without a kept extension, and a file name within the limit is returned
    unchanged. *)
Theorem truncated_file_name_fits (fileName : JsText) (maxLength : Z) :
  8 <= maxLength ->
  textLength (truncateFileName fileName maxLength) <= maxLength /\
  (textLength fileName <= maxLength -> truncateFileName fileName maxLength = fileName).
Proof.
  intros Hm. unfold truncateFileName.
  destruct (Z.leb_spec (textLength fileName) maxLength) as [Hfit | Hlong];
    [split; [exact Hfit | reflexivity]|].
  split; [|lia].
  set (withExtension := if Nat.ltb 1 _ then _ else None).
  assert (Hext : match withExtension with
                 | Some label => textLength label <= maxLength
                 | None => True
                 end).
  { subst withExtension. destruct (Nat.ltb 1 _); [|exact I].
    destruct (Z.ltb_spec (textLength (lastPart (splitOn dot fileName))) 6)
      as [He | He]; [|exact I].
    destruct (15 <? _); cbn [andb]; [|exact I].
    rewrite !textLength_app, substring_prefix_length.
    change (textLength [dot; dot; dot]) with 3.
    assert (0 <= textLength (lastPart (splitOn dot fileName)))
      by (unfold textLength; lia).
    lia. }
  destruct withExtension as [label|]; [exact Hext|].
  rewrite !textLength_app, substring_prefix_length.
  change (textLength [dot; dot; dot]) with 3. lia.
Qed.

Lemma truncated_file_name_fits_witness :
  textLength (truncateFileName (unitsOf "visualizer-refactored-webview.ts") 28) <= 28 /\
  (textLength (unitsOf "visualizer-refactored-webview.ts") <= 28 ->
   truncateFileName (unitsOf "visualizer-refactored-webview.ts") 28
   = unitsOf "visualizer-refactored-webview.ts").
Proof.
  apply (truncated_file_name_fits (unitsOf "visualizer-refactored-webview.ts") 28).
  lia.
Defined.

End LabelFacts.
